(** * SWE-bench PoC: agents, agent factory, evaluator and provider comparison

    A shallow embedding of the JavaScript sources
      - [lib/evaluator.js]        (class [Evaluator]),
      - [lib/agent-factory.js]    (class [AgentFactory]),
      - [lib/ollama-agent.js], [lib/openai-agent.js], [lib/gemini-agent.js]
        and [lib/claude-agent.js] (the four agents),
      - the multi-provider command line, class [SWEBenchPoC]
        ([compareProviders], [generateComparisonSummary] and the limit on
        the number of problems),
      - [lib/problem-loader.js]   (class [ProblemLoader]: [validateProblem],
        [createProblem], [loadProblem] and [loadBatch]),
    followed by the properties of the specification proved (or refuted) on it,
    and by further properties of the same code.

    Conventions of the embedding.
      - A JavaScript string is a [string]: a sequence of code units below 256.
      - [null]/[undefined] are [None]; a value tested for truthiness keeps its
        JavaScript meaning (the empty string is falsy).
      - A thrown [Error] is the [Throw] outcome carrying [error.message].
      - Everything outside the program (HTTP exchanges, subprocesses, the
        clock) is read from an abstract external world through oracles; the
        file system under [/tmp], the console and the heap of option objects
        are explicit components of the state. A subprocess reads the files
        and leaves them as it likes; the directory itself stays writable.
      - An object used as a table is the ordered list of its own properties;
        where the program reads or writes it at a name given from outside,
        the names of [Object.prototype] are told apart ([readProperty],
        [assign]).
      - [Number]s that come from a division are IEEE binary64 values
        ([PrimFloat.float]); counts and lengths are [nat]. *)

From Stdlib Require Import ZArith Ascii String List Bool Lia Floats Uint63 Sorted.
From stdpp Require Import gmap strings list.

Local Open Scope string_scope.
Set Warnings "-inexact-float".

(** ** JavaScript strings *)

Module JS.

(** The double quote, which cannot be written inside a string literal. *)
Definition dquote : string := String (ascii_of_nat 34) EmptyString.

(** [WhiteSpace] and [LineTerminator] code units below 256: TAB, LF, VT, FF,
    CR, SP and NBSP. This is the set of [\s] and of [String.prototype.trim]. *)
Definition is_ws (c : ascii) : bool :=
  let n := nat_of_ascii c in
  (((9 <=? n) && (n <=? 13)) || (n =? 32) || (n =? 160))%nat.

Fixpoint trimStartL (s : list ascii) : list ascii :=
  match s with
  | c :: s' => if is_ws c then trimStartL s' else s
  | [] => []
  end.

Fixpoint trimEndL (s : list ascii) : list ascii :=
  match s with
  | c :: s' =>
      match trimEndL s' with
      | [] => if is_ws c then [] else [c]
      | t => c :: t
      end
  | [] => []
  end.

Definition trimL (s : list ascii) : list ascii := trimEndL (trimStartL s).

(** [s.trim()] *)
Definition trim (s : string) : string :=
  string_of_list_ascii (trimL (list_ascii_of_string s)).

(** [s.toUpperCase()] / [s.toLowerCase()] on one code unit below 256 (the two
    letters whose upper case lies outside this range are left alone). *)
Definition upper (c : ascii) : ascii :=
  let n := nat_of_ascii c in
  if (((97 <=? n) && (n <=? 122)) || ((224 <=? n) && (n <=? 254) && negb (n =? 247)))%nat
  then ascii_of_nat (n - 32) else c.

Definition lower (c : ascii) : ascii :=
  let n := nat_of_ascii c in
  if (((65 <=? n) && (n <=? 90)) || ((192 <=? n) && (n <=? 222) && negb (n =? 215)))%nat
  then ascii_of_nat (n + 32) else c.

Fixpoint toLowerCase (s : string) : string :=
  match s with
  | EmptyString => EmptyString
  | String c s' => String (lower c) (toLowerCase s')
  end.

(** [s.startsWith(p)] on code-unit lists. *)
Fixpoint prefixb (p s : list ascii) : bool :=
  match p, s with
  | [], _ => true
  | a :: p', b :: s' => Ascii.eqb a b && prefixb p' s'
  | _ :: _, [] => false
  end.

(** [s.includes(p)] *)
Fixpoint includesL (p s : list ascii) : bool :=
  prefixb p s || match s with [] => false | _ :: s' => includesL p s' end.

Definition includes (s p : string) : bool :=
  includesL (list_ascii_of_string p) (list_ascii_of_string s).

(** [s.split(sep)] for a one-character separator: never the empty array. *)
Fixpoint splitL (sep : ascii) (s : list ascii) : list (list ascii) :=
  match s with
  | [] => [[]]
  | c :: s' =>
      if Ascii.eqb c sep then [] :: splitL sep s'
      else match splitL sep s' with
           | l :: ls => (c :: l) :: ls
           | [] => [[c]]
           end
  end.

Definition split (sep : ascii) (s : string) : list string :=
  map string_of_list_ascii (splitL sep (list_ascii_of_string s)).

(** [a.join(sep)] *)
Fixpoint join (sep : string) (l : list string) : string :=
  match l with
  | [] => ""
  | [x] => x
  | x :: l' => x ++ sep ++ join sep l'
  end.

(** Truthiness of a string-or-null value: [null], [undefined] and the empty
    string are falsy. *)
Definition truthy (v : option string) : bool :=
  match v with
  | Some s => negb (String.eqb s "")
  | None => false
  end.

(** [a || b] on string-or-null values. *)
Definition or_else (a b : option string) : option string :=
  if truthy a then a else b.

(** [a || 'literal'] *)
Definition str_or (a : option string) (d : string) : string :=
  match a with
  | Some s => if String.eqb s "" then d else s
  | None => d
  end.

End JS.

(** ** Regular expressions

    The fragment of ECMAScript regular expressions the evaluator uses:
    literal characters, character classes, greedy and lazy stars of a class,
    concatenation, alternation, one capture group and the [^] assertion,
    matched by backtracking in the priority order of the language. *)

Module Regex.

Inductive regex : Type :=
  | Eps
  | Chr (c : ascii)
  | Cls (p : ascii -> bool)
  | StarG (p : ascii -> bool)
  | StarL (p : ascii -> bool)
  | Cat (r1 r2 : regex)
  | Alt (r1 r2 : regex)
  | Grp (r : regex)
  | Bol.

(** A literal word. *)
Fixpoint lit (w : list ascii) : regex :=
  match w with
  | [] => Eps
  | c :: w' => Cat (Chr c) (lit w')
  end.

Definition word (w : string) : regex := lit (list_ascii_of_string w).

(** Character comparison, under the [i] flag by canonical (upper-case) form. *)
Definition chr_eq (ic : bool) (c x : ascii) : bool :=
  if ic then Ascii.eqb (JS.upper c) (JS.upper x) else Ascii.eqb c x.

Section Matcher.
Context {A : Type}.

  (** A continuation receives the rest of the input and the capture. *)
Definition cont : Type := list ascii -> option (list ascii) -> option A.

Fixpoint starG (p : ascii -> bool) (s : list ascii)
      (cap : option (list ascii)) (k : cont) : option A :=
    match s with
    | c :: s' =>
        if p c then
          match starG p s' cap k with
          | Some a => Some a
          | None => k s cap
          end
        else k s cap
    | [] => k [] cap
    end.

Fixpoint starL (p : ascii -> bool) (s : list ascii)
      (cap : option (list ascii)) (k : cont) : option A :=
    match k s cap with
    | Some a => Some a
    | None =>
        match s with
        | c :: s' => if p c then starL p s' cap k else None
        | [] => None
        end
    end.

  (** [rmatch ic n r s cap k]: match [r] at the front of [s], the input being
      [n] code units long in all, then continue with [k]. *)
Fixpoint rmatch (ic : bool) (n : nat) (r : regex) (s : list ascii)
      (cap : option (list ascii)) (k : cont) : option A :=
    match r with
    | Eps => k s cap
    | Chr c =>
        match s with
        | x :: s' => if chr_eq ic c x then k s' cap else None
        | [] => None
        end
    | Cls p =>
        match s with
        | x :: s' => if p x then k s' cap else None
        | [] => None
        end
    | StarG p => starG p s cap k
    | StarL p => starL p s cap k
    | Cat r1 r2 =>
        rmatch ic n r1 s cap (fun s1 cap1 => rmatch ic n r2 s1 cap1 k)
    | Alt r1 r2 =>
        match rmatch ic n r1 s cap k with
        | Some a => Some a
        | None => rmatch ic n r2 s cap k
        end
    | Grp r1 =>
        rmatch ic n r1 s cap
          (fun s1 _ => k s1 (Some (take (length s - length s1) s)))
    | Bol => if (length s =? n)%nat then k s cap else None
    end.
End Matcher.

(** Leftmost match: the start positions are tried from left to right. *)
Fixpoint search (ic : bool) (n : nat) (r : regex) (s : list ascii)
    : option (option (list ascii)) :=
  match rmatch ic n r s None (fun _ cap => Some cap) with
  | Some cap => Some cap
  | None =>
      match s with
      | [] => None
      | _ :: s' => search ic n r s'
      end
  end.

(** [s.match(r)], keeping group 1 of the match array: [None] when there is no
    match, [Some m1] with [m1 = match[1]] otherwise. *)
Definition match1 (ic : bool) (r : regex) (s : string) : option string :=
  let l := list_ascii_of_string s in
  match search ic (length l) r l with
  | Some cap => Some (string_of_list_ascii (default [] cap))
  | None => None
  end.

Definition any : ascii -> bool := fun _ => true.

End Regex.

(** ** Extraction of the fixed code ([Evaluator.extractFixedCode]) *)

Module Extract.
Import Regex.

(** The opening fence with its language tag, and the closing fence. *)
Definition fence_python : string := "```python".
Definition fence : string := "```".
Definition label : string := "FIXED_CODE:".

(** [\s*([\s\S]*?)\s*```], the tail shared by the two block patterns. *)
Definition block_tail : regex :=
  Cat (StarG JS.is_ws)
    (Cat (Grp (StarL any))
      (Cat (StarG JS.is_ws) (word fence))).

(** [/FIXED_CODE:\s*```python\s*([\s\S]*?)\s*```/i] *)
Definition re_fixed_code : regex :=
  Cat (word label) (Cat (StarG JS.is_ws) (Cat (word fence_python) block_tail)).

(** [/```python\s*([\s\S]*?)\s*```/] *)
Definition re_code_block : regex := Cat (word fence_python) block_tail.

(** [/^(def|class|import|from|if|for|while|try|with|\s+)/] *)
Definition re_statement : regex :=
  Cat Bol
    (Grp (Alt (word "def") (Alt (word "class") (Alt (word "import")
         (Alt (word "from") (Alt (word "if") (Alt (word "for")
         (Alt (word "while") (Alt (word "try") (Alt (word "with")
         (Cat (Cls JS.is_ws) (StarG JS.is_ws)))))))))))).

(** The loop over the lines: [inCodeBlock] is the flag, the collected lines
    are returned in order. *)
Fixpoint scanLines (inCodeBlock : bool) (lines : list string) : list string :=
  match lines with
  | [] => []
  | line :: rest =>
      let inCodeBlock :=
        match match1 false re_statement (JS.trim line) with
        | Some _ => true
        | None => inCodeBlock
        end in
      if inCodeBlock then line :: scanLines inCodeBlock rest
      else scanLines inCodeBlock rest
  end.

(** The last resort of [extractFixedCode]. *)
Definition lineScan (analysis : string) : option string :=
  let lines := JS.split (ascii_of_nat 10) analysis in
  let codeLines := scanLines false lines in
  if (0 <? length codeLines)%nat
  then Some (JS.trim (JS.join (String (ascii_of_nat 10) "") codeLines))
  else None.

Definition extractFixedCode (analysis : string) : option string :=
  match match1 true re_fixed_code analysis with
  | Some m1 => Some (JS.trim m1)
  | None =>
      match match1 false re_code_block analysis with
      | Some m1 => Some (JS.trim m1)
      | None => lineScan analysis
      end
  end.

End Extract.

(** ** Outcomes and the monad of effects

    A computation reads and changes a state and either returns a value or
    throws; the state changes made before a throw are kept, as the mutations
    made before a JavaScript exception are. *)

Inductive outcome (A : Type) : Type :=
  | Ret (a : A)
  | Throw (message : string).
Arguments Ret {A} a.
Arguments Throw {A} message.

Module Eff.
Section Monad.
Context {S : Type}.

Definition M (A : Type) : Type := S -> outcome A * S.

Definition ret {A} (a : A) : M A := fun s => (Ret a, s).

Definition throw {A} (message : string) : M A := fun s => (Throw message, s).

Definition bind {A B} (c : M A) (f : A -> M B) : M B :=
    fun s =>
      match c s with
      | (Ret a, s') => f a s'
      | (Throw m, s') => (Throw m, s')
      end.

  (** [try { c } catch (error) { h error.message }] *)
Definition try_catch {A} (c : M A) (h : string -> M A) : M A :=
    fun s =>
      match c s with
      | (Ret a, s') => (Ret a, s')
      | (Throw m, s') => h m s'
      end.

Definition get : M S := fun s => (Ret s, s).

  (** A step that leaves the state alone. *)
Definition settled {A} (o : outcome A) : M A := fun s => (o, s).
Definition modify (f : S -> S) : M unit := fun s => (Ret tt, f s).
End Monad.
End Eff.

Declare Scope eff_scope.
Delimit Scope eff_scope with eff.
Notation "x <- c1 ;; c2" := (Eff.bind c1 (fun x => c2))
  (at level 100, c1 at next level, right associativity) : eff_scope.
Notation "c1 ;;; c2" := (Eff.bind c1 (fun _ => c2))
  (at level 100, right associativity) : eff_scope.

(** ** Data of the agents *)

Inductive Provider : Type := Ollama | OpenAI | Gemini | Claude.

(** The [options] object given to the factory and to the constructors. *)
Record Options : Type := mkOptions {
  opt_model : option string;
  opt_apiKey : option string;
  opt_host : option string;
  opt_port : option Z;
  opt_timeout : option Z
}.

Definition emptyOptions : Options := mkOptions None None None None None.

Definition set_model (m : option string) (o : Options) : Options :=
  mkOptions m (opt_apiKey o) (opt_host o) (opt_port o) (opt_timeout o).

(** The fields of an agent instance; [ag_apiKey] is [None] for the local one. *)
Record Agent : Type := mkAgent {
  ag_kind : Provider;
  ag_host : string;
  ag_port : Z;
  ag_model : string;
  ag_timeout : Z;
  ag_apiKey : option string
}.

(** The second argument of [generate]. *)
Record GenOptions : Type := mkGenOptions {
  go_temperature : option float;
  go_top_p : option float;
  go_max_tokens : option Z
}.

(** What [generate] hands to [http.request]/[https.request]: the request
    options and the fields of the JSON body. *)
Record Request : Type := mkRequest {
  rq_secure : bool;
  rq_hostname : string;
  rq_port : Z;
  rq_path : string;
  rq_headers : list (string * string);
  rq_timeout : Z;
  rq_model : string;
  rq_prompt : string;
  rq_temperature : float;
  rq_top_p : float;
  rq_max_tokens : option Z
}.

(** What the handlers of [generate] observe of the body once it has ended. *)
Inductive Body : Type :=
  | BadJson (message : string)
      (* [JSON.parse], or the handler reading the envelope, threw [message] *)
  | ErrorField (message : string)
      (* [response.error] is truthy; its text as the template renders it *)
  | TextField (text : option string)
      (* the envelope of the provider is there; its text field *)
  | NoEnvelope.
      (* valid JSON, no [error], no envelope *)

(** What happens to one request. The request is made inside the executor of
    the promise: when [http.request], [req.write] or [req.end] throws there
    (a character that a header or the path may not hold, an option of the
    wrong type), the promise rejects with that very error. *)
Inductive Response : Type :=
  | Threw (message : string)          (* the call itself threw [message] *)
  | RequestError (message : string)   (* the ['error'] event *)
  | RequestTimeout                    (* the ['timeout'] event *)
  | Ended (b : Body).                 (* the ['end'] event *)

(** The result of [execAsync(command)]: the streams of a child that exits
    with status 0, or the message of the rejection. *)
Inductive ExecResult : Type :=
  | Exited (stdout stderr : string)
  | ExecFailed (message : string).

(** [x || d] on numbers: [0], [-0] and [NaN] are falsy. *)
Definition num_or (x : option float) (d : float) : float :=
  match x with
  | Some v => if PrimFloat.eqb v 0 || PrimFloat.is_nan v then d else v
  | None => d
  end.

Definition int_or (x : option Z) (d : Z) : Z :=
  match x with
  | Some v => if Z.eqb v 0 then d else v
  | None => d
  end.

(** The own properties of an object literal, in the order written. *)
Fixpoint lookup_obj {A} (o : list (string * A)) (k : string) : option A :=
  match o with
  | [] => None
  | (k', v) :: o' => if String.eqb k' k then Some v else lookup_obj o' k
  end.

(** The names every object inherits from [Object.prototype]: read on an
    empty object they are not [undefined]. *)
Definition inheritedNames : list string :=
  ["constructor"; "__defineGetter__"; "__defineSetter__"; "hasOwnProperty";
   "__lookupGetter__"; "__lookupSetter__"; "isPrototypeOf";
   "propertyIsEnumerable"; "toString"; "valueOf"; "__proto__"; "toLocaleString"].

(** What [o[k]] reads on an object literal [o]: the value of an own property;
    for a name of [Object.prototype] that the literal does not define, the
    inherited value (a function, or the prototype itself for [__proto__]:
    truthy, and with none of the methods of an array); else [undefined]. *)
Inductive Property (A : Type) : Type :=
  | Own (v : A)
  | Inherited
  | Undefined.
Arguments Own {A} v.
Arguments Inherited {A}.
Arguments Undefined {A}.

Definition readProperty {A} (o : list (string * A)) (k : string) : Property A :=
  match lookup_obj o k with
  | Some v => Own v
  | None => if existsb (String.eqb k) inheritedNames then Inherited else Undefined
  end.

(** ** Numbers *)

Module Num.

Definition digit (d : N) : ascii := ascii_of_N (48 + d).

(** The decimal digits of [n], most significant first, in front of [acc]. *)
Fixpoint digits_go (fuel : nat) (n : N) (acc : list ascii) : list ascii :=
  match fuel with
  | O => acc
  | S fuel' =>
      let acc' := digit (n mod 10) :: acc in
      if (n <? 10)%N then acc' else digits_go fuel' (n / 10) acc'
  end.

Definition digitsL (n : N) : list ascii :=
  digits_go (S (N.to_nat (N.log2 n))) n [].

(** [String(n)] for a natural number. *)
Definition ofN (n : N) : string := string_of_list_ascii (digitsL n).

(** [String(z)] for an integer. *)
Definition ofZ (z : Z) : string :=
  match z with
  | Zneg p => "-" +:+ ofN (Npos p)
  | _ => ofN (Z.to_N z)
  end.

(** The number of an array length or of a count. *)
Definition of_nat (n : nat) : float := PrimFloat.of_uint63 (Uint63.of_Z (Z.of_nat n)).

(** The integer nearest to [m * 2^e * 10^f] for [m >= 0], the larger one when
    two are as near: the [n] of [Number.prototype.toFixed]. *)
Definition scaled (f : nat) (m e : Z) : Z :=
  let v := (m * 10 ^ Z.of_nat f)%Z in
  match e with
  | Zneg p => ((2 * v + 2 ^ Zpos p) / 2 ^ (Zpos p + 1))%Z
  | _ => (v * 2 ^ e)%Z
  end.

(** The digits of [n] with a point before the last [f] of them, [n] being
    padded with zeros on the left to [f + 1] digits. *)
Definition fixedL (f : nat) (n : N) : list ascii :=
  let ds := digitsL n in
  let ds := (repeat (digit 0) (S f - length ds) ++ ds)%list in
  let k := (length ds - f)%nat in
  match f with
  | O => ds
  | _ => (take k ds ++ "."%char :: drop k ds)%list
  end.

Definition fixed (f : nat) (n : N) : string := string_of_list_ascii (fixedL f n).

(** [x.toFixed(f)] for [x] below [10^21] in absolute value. *)
Definition toFixed (f : nat) (x : float) : string :=
  match Prim2SF x with
  | S754_nan => "NaN"
  | S754_infinity false => "Infinity"
  | S754_infinity true => "-Infinity"
  | S754_zero _ => fixed f 0
  | S754_finite false m e => fixed f (Z.to_N (scaled f (Zpos m) e))
  | S754_finite true m e => "-" +:+ fixed f (Z.to_N (scaled f (Zpos m) e))
  end.

(** [Math.round(x)] for a finite [x]: the integer nearest to it, the larger
    one when two are as near ([0] stands for the values that are no
    integers). *)
Definition Math_round (x : float) : Z :=
  match Prim2SF x with
  | S754_finite false m e => scaled 0 (Zpos m) e
  | S754_finite true m e =>
      match e with
      | Zneg p => (- ((2 * Zpos m + 2 ^ Zpos p - 1) / 2 ^ (Zpos p + 1)))%Z
      | _ => (- (Zpos m * 2 ^ e))%Z
      end
  | _ => 0%Z
  end.

(** The number of an integer. *)
Definition of_Z (z : Z) : float :=
  match z with
  | Zneg p => PrimFloat.opp (PrimFloat.of_uint63 (Uint63.of_Z (Zpos p)))
  | _ => PrimFloat.of_uint63 (Uint63.of_Z z)
  end.

(** A number read from a decimal literal is kept as the literal denotes it:
    [Dec neg mant scale] is [mant / 10^scale], negated when [neg]. Its
    binary64 value is computed where the program does arithmetic on it. *)
Inductive number : Type :=
  | NaN
  | Inf (neg : bool)
  | Dec (neg : bool) (mant : N) (scale : nat).

Definition is_digit (c : ascii) : bool :=
  let n := N_of_ascii c in ((48 <=? n) && (n <=? 57))%N.

(** The digits in front of [s] read as a natural number, after those already
    read as [acc]; with their count and the rest of [s]. *)
Fixpoint read_digits (s : list ascii) (acc : N) (count : nat)
    : N * nat * list ascii :=
  match s with
  | c :: s' =>
      if is_digit c
      then read_digits s' (10 * acc + (N_of_ascii c - 48))%N (S count)
      else (acc, count, s)
  | [] => (acc, count, [])
  end.

(** The unsigned part of a decimal literal: digits, and digits after a point. *)
Definition read_unsigned (neg : bool) (s : list ascii) : number :=
  if JS.prefixb (list_ascii_of_string "Infinity") s then Inf neg
  else
    let '(int, ni, rest) := read_digits s 0%N 0 in
    match rest with
    | "."%char :: rest' =>
        let '(mant, nf, _) := read_digits rest' int 0 in
        if ((ni + nf)%nat =? 0)%nat then NaN else Dec neg mant nf
    | _ => if (ni =? 0)%nat then NaN else Dec neg int 0
    end.

(** [parseFloat(s)] on a literal without exponent part: white space, a sign,
    then the longest decimal literal; what follows it is ignored. *)
Definition parseFloat (s : string) : number :=
  match JS.trimStartL (list_ascii_of_string s) with
  | "-"%char :: s' => read_unsigned true s'
  | "+"%char :: s' => read_unsigned false s'
  | s' => read_unsigned false s'
  end.

(** The binary64 value of a number. *)
Definition to_float (x : number) : float :=
  match x with
  | NaN => PrimFloat.nan
  | Inf false => PrimFloat.infinity
  | Inf true => PrimFloat.neg_infinity
  | Dec neg mant scale =>
      let v := (of_Z (Z.of_N mant) / of_Z (10 ^ Z.of_nat scale))%float in
      if neg then PrimFloat.opp v else v
  end.

(** The exact value of a decimal, as a fraction over [10^scale]. *)
Definition signed (neg : bool) (mant : N) : Z :=
  if neg then (- Z.of_N mant)%Z else Z.of_N mant.

(** The sign of [x - y] ([0] when the difference is [NaN], as
    [Array.prototype.sort] reads a comparator). *)
Definition sub_sign (x y : number) : Z :=
  match x, y with
  | NaN, _ | _, NaN => 0
  | Inf a, Inf b => if Bool.eqb a b then 0 else if a then (-1) else 1
  | Inf a, Dec _ _ _ => if a then (-1) else 1
  | Dec _ _ _, Inf b => if b then 1 else (-1)
  | Dec n1 m1 s1, Dec n2 m2 s2 =>
      Z.sgn (signed n1 m1 * 10 ^ Z.of_nat s2 - signed n2 m2 * 10 ^ Z.of_nat s1)
  end%Z.

(** The digits of a decimal once the zeros that end its fraction are gone. *)
Fixpoint strip (mant : N) (scale : nat) : N * nat :=
  match scale with
  | O => (mant, O)
  | S scale' =>
      if (mant mod 10 =? 0)%N then strip (mant / 10) scale' else (mant, scale)
  end.

(** [String(x)] for a number of at most fifteen significant digits between
    [10^-6] and [10^21] in absolute value. *)
Definition toString (x : number) : string :=
  match x with
  | NaN => "NaN"
  | Inf false => "Infinity"
  | Inf true => "-Infinity"
  | Dec neg mant scale =>
      let '(m, k) := strip mant scale in
      (if neg && negb (m =? 0)%N then "-" else "") +:+ fixed k m
  end.

End Num.

(** ** Data of the evaluator *)

Record Problem : Type := mkProblem {
  id : string;
  problem_statement : string;
  base_code : string;
  filename : option string;
  test_cases : option (list string)
}.

Record TestResult : Type := mkTestResult {
  test_id : nat;
  test_case : string;
  passed : bool;
  output : option string;
  test_error : option string
}.

Record EvaluationResult : Type := mkResult {
  problem_id : string;
  success : bool;
  error : option string;
  analysis : option string;
  generated_fix : option string;
  patch : option string;
  test_results : list TestResult;
  execution_time : Z;
  timestamp : Z     (* the instant [new Date()] read, in milliseconds *)
}.

(** An [Evaluator] instance. *)
Record Evaluator : Type := mkEvaluator {
  agent : Agent;
  results : list EvaluationResult
}.

(** A property set or overwritten on an object: a new key goes last, a key
    already there keeps its place. *)
Fixpoint obj_set {A} (o : list (string * A)) (k : string) (v : A)
    : list (string * A) :=
  match o with
  | [] => [(k, v)]
  | (k', v') :: o' =>
      if String.eqb k' k then (k, v) :: o' else (k', v') :: obj_set o' k v
  end.

(** [o[k] = v] for an object [v] and an object [o] created by a literal: the
    name [__proto__] is the accessor of [Object.prototype], so the assignment
    replaces the prototype of [o] and creates no property; any other name is
    set as an own property. *)
Definition assign {A} (o : list (string * A)) (k : string) (v : A)
    : list (string * A) :=
  if String.eqb k "__proto__" then o else obj_set o k v.

(** The value of a string of digits. *)
Definition digitsValue (k : string) : N :=
  fold_left (fun acc c => (10 * acc + (N_of_ascii c - 48))%N)
    (list_ascii_of_string k) 0%N.

(** A key that is an array index: the canonical numeral of an integer below
    [2^32 - 1]. *)
Definition isArrayIndex (k : string) : bool :=
  forallb Num.is_digit (list_ascii_of_string k)
  && String.eqb k (Num.ofN (digitsValue k))
  && (digitsValue k <? 4294967295)%N.

(** [x] put in its place among the entries [l], whose index keys ascend. *)
Fixpoint insertIndex {A} (x : string * A) (l : list (string * A))
    : list (string * A) :=
  match l with
  | [] => [x]
  | y :: l' =>
      if (digitsValue (fst x) <=? digitsValue (fst y))%N then x :: l
      else y :: insertIndex x l'
  end.

(** [Object.entries(o)]: the keys that are array indices first, in ascending
    order, then the other keys in the order they were created in. *)
Definition Object_entries {A} (o : list (string * A)) : list (string * A) :=
  (fold_right insertIndex [] (List.filter (fun e => isArrayIndex (fst e)) o)
   ++ List.filter (fun e => negb (isArrayIndex (fst e))) o)%list.

(** The [summary] of a report. *)
Record Summary : Type := mkSummary {
  total_problems : nat;
  successful_solutions : nat;
  failed_solutions : nat;
  success_rate : string;
  average_time_ms : Z
}.

Record Report : Type := mkReport {
  summary : Summary;
  error_analysis : list (string * nat);
  detailed_results : list EvaluationResult;
  generated_at : Z
}.

(** What [compareProviders] stores for a provider: the report of its run, or
    [{ error: message, summary: { success_rate: '0%' } }]. *)
Inductive ProviderResult : Type :=
  | Reported (report : Report)
  | Failed (message : string).

Definition result_error (r : ProviderResult) : option string :=
  match r with
  | Reported _ => None
  | Failed message => Some message
  end.

Definition result_success_rate (r : ProviderResult) : string :=
  match r with
  | Reported report => success_rate (summary report)
  | Failed _ => "0%"
  end.

(** An element of [validResults]. *)
Record Rated : Type := mkRated {
  provider : string;
  rate : Num.number
}.

Record ComparisonSummary : Type := mkComparisonSummary {
  best_performer : option string;
  performance_ranking : list (string * string);
  average_success_rate : option string   (* [None]: the initial number [0] *)
}.

Record ComparisonResults : Type := mkComparisonResults {
  meta_providers : list string;
  meta_total_problems : nat;
  meta_timestamp : Z;
  provider_results : list (string * ProviderResult);
  comparison_summary : ComparisonSummary
}.

(** ** The program *)

Section Program.
Context {Ext : Type}.

  (** The state the program runs in. [ext] is the world outside it. *)
Record World : Type := mkWorld {
    env : gmap string string;     (* [process.env] *)
    heap : gmap nat Options;      (* the option objects, by reference *)
    files : gmap string string;   (* the files under [/tmp], by path *)
    stderr_lines : list string;   (* what [console.error] has printed *)
    ext : Ext
  }.

Definition set_heap (h : gmap nat Options) (w : World) : World :=
    mkWorld (env w) h (files w) (stderr_lines w) (ext w).
Definition set_files (f : gmap string string) (w : World) : World :=
    mkWorld (env w) (heap w) f (stderr_lines w) (ext w).
Definition set_stderr (l : list string) (w : World) : World :=
    mkWorld (env w) (heap w) (files w) l (ext w).
Definition set_ext (e : Ext) (w : World) : World :=
    mkWorld (env w) (heap w) (files w) (stderr_lines w) e.

  (** The oracles: one HTTP exchange, one child process, one reading of the
      clock. Each may change the world outside. A child process reads the
      files and may change them ([rm], [os.remove], a script that deletes
      itself): it answers with the files it leaves. None touches the
      environment, the option objects or what was printed. *)
Variable exchange : Request -> Ext -> Response * Ext.
Variable child_process : string -> gmap string string -> Ext -> ExecResult * gmap string string * Ext.
Variable clock : Ext -> Z * Ext.

Definition M : Type -> Type := @Eff.M World.

Local Open Scope eff_scope.

  (** [console.error(a, b)] prints its arguments separated by a space. *)
Definition console_error (a b : string) : M unit :=
    Eff.modify (fun w => set_stderr (stderr_lines w ++ [a +:+ " " +:+ b]) w).

  (** [Date.now()] *)
Definition Date_now : M Z :=
    fun w => let '(t, e) := clock (ext w) in (Ret t, set_ext e w).

  (** [await execAsync(command)] *)
Definition execAsync (command : string) : M (string * string) :=
    fun w =>
      let '(r, f, e) := child_process command (files w) (ext w) in
      let w := set_ext e (set_files f w) in
      match r with
      | Exited out err => (Ret (out, err), w)
      | ExecFailed m => (Throw m, w)
      end.

  (** [await fs.writeFile(path, data, 'utf8')], to a path in [/tmp]: the
      file is created, or replaced. *)
Definition writeFile (path data : string) : M unit :=
    Eff.modify (fun w => set_files (<[path := data]> (files w)) w).

  (** [await fs.unlink(path)]: fails on a path that does not exist. *)
Definition unlink (path : string) : M unit :=
    fun w =>
      match files w !! path with
      | Some _ => (Ret tt, set_files (delete path (files w)) w)
      | None =>
          (Throw ("ENOENT: no such file or directory, unlink '" +:+ path +:+ "'"), w)
      end.

  (** *** The agents *)

Definition providerName (k : Provider) : string :=
    match k with
    | Ollama => "Ollama"
    | OpenAI => "OpenAI"
    | Gemini => "Gemini"
    | Claude => "Claude"
    end.

Definition key_of (a : Agent) : string := default "" (ag_apiKey a).

  (** The request [generate] builds. *)
Definition request (a : Agent) (prompt : string) (o : GenOptions) : Request :=
    let json := ("Content-Type", "application/json") in
    let temperature := num_or (go_temperature o) 0.1%float in
    let top_p := num_or (go_top_p o) 0.9%float in
    let max_tokens := Some (int_or (go_max_tokens o) 2048) in
    match ag_kind a with
    | Ollama =>
        mkRequest false (ag_host a) (ag_port a) "/api/generate" [json]
          (ag_timeout a) (ag_model a) prompt temperature top_p None
    | OpenAI =>
        mkRequest true (ag_host a) 443 "/v1/chat/completions"
          [json; ("Authorization", "Bearer " +:+ key_of a)]
          (ag_timeout a) (ag_model a) prompt temperature top_p max_tokens
    | Gemini =>
        mkRequest true (ag_host a) 443
          ("/v1/models/" +:+ ag_model a +:+ ":generateContent?key=" +:+ key_of a)
          [json]
          (ag_timeout a) (ag_model a) prompt temperature top_p max_tokens
    | Claude =>
        mkRequest true (ag_host a) 443 "/v1/messages"
          [json; ("x-api-key", key_of a); ("anthropic-version", "2023-06-01")]
          (ag_timeout a) (ag_model a) prompt temperature top_p max_tokens
    end.

  (** How the promise of [generate] settles on each event. *)
Definition settle (a : Agent) (r : Response) : outcome string :=
    let name := providerName (ag_kind a) in
    match r with
    | Threw m => Throw m
    | RequestError m => Throw ("Request failed: " +:+ m)
    | RequestTimeout =>
        Throw ("Request timeout after " +:+ Num.ofZ (ag_timeout a) +:+ "ms")
    | Ended (BadJson m) =>
        Throw ("Failed to parse " +:+ name +:+ " response: " +:+ m)
    | Ended (ErrorField m) => Throw (name +:+ " API error: " +:+ m)
    | Ended (TextField text) =>
        match ag_kind a with
        | Claude =>
            if JS.truthy text then Ret (default "" text)
            else Throw "Invalid response format from Claude API"
        | _ => Ret (default "" (JS.or_else text (Some "")))
        end
    | Ended NoEnvelope =>
        match ag_kind a with
        | Ollama => Ret ""
        | _ => Throw ("Invalid response format from " +:+ name +:+ " API")
        end
    end.

Definition generate (a : Agent) (prompt : string) (o : GenOptions) : M string :=
    fun w =>
      let '(r, e) := exchange (request a prompt o) (ext w) in
      (settle a r, set_ext e w).

  (** The options of the probe: [{ temperature: 0 }], with
      [max_tokens: 10] for the OpenAI and Claude agents. *)
Definition probeOptions (k : Provider) : GenOptions :=
    match k with
    | OpenAI | Claude => mkGenOptions (Some 0%float) None (Some 10%Z)
    | Ollama | Gemini => mkGenOptions (Some 0%float) None None
    end.

Definition testConnection (a : Agent) : M bool :=
    Eff.try_catch
      (response <- generate a "Hello" (probeOptions (ag_kind a));;
       Eff.ret (0 <? String.length response)%nat)
      (fun message =>
         console_error
           (providerName (ag_kind a) +:+ " connection test failed:") message;;;
         Eff.ret false).

Definition analyzePrompt (code problem : string) : string :=
"
You are a software engineer tasked with analyzing and fixing code issues.

PROBLEM DESCRIPTION:
" +:+ problem +:+ "

CURRENT CODE:
```python
" +:+ code +:+ "
```

Please analyze the code and provide:
1. Explanation of the issue
2. The exact fixed code
3. Explanation of the fix

Format your response as:
ANALYSIS: [your analysis]
FIXED_CODE:
```python
[corrected code here]
```
EXPLANATION: [explanation of the fix]
".

Definition analyzeCode (a : Agent) (code problem : string) : M string :=
    generate a (analyzePrompt code problem)
      (mkGenOptions (Some 0.1%float) None None).

Definition patchPrompt (originalCode fixedCode filename : string) : string :=
"
Generate a unified diff patch for the following code change:

ORIGINAL CODE:
```python
" +:+ originalCode +:+ "
```

FIXED CODE:
```python
" +:+ fixedCode +:+ "
```

Filename: " +:+ filename +:+ "

Please provide ONLY the unified diff format patch, starting with:
--- a/" +:+ filename +:+ "
+++ b/" +:+ filename +:+ "
".

Definition generatePatch (a : Agent) (originalCode fixedCode filename : string)
      : M string :=
    generate a (patchPrompt originalCode fixedCode filename)
      (mkGenOptions (Some 0%float) None None).

  (** *** The agent factory ([AgentFactory]) *)

  (** A parameter declared [options = {}]: the object passed by the caller,
      or a fresh empty object. *)
Definition optionsArg (options : option nat) : M nat :=
    fun w =>
      match options with
      | Some l => (Ret l, w)
      | None =>
          let l := fresh (dom (heap w)) in
          (Ret l, set_heap (<[l := emptyOptions]> (heap w)) w)
      end.

Definition readOptions (l : nat) : M Options :=
    fun w => (Ret (default emptyOptions (heap w !! l)), w).

Definition writeModel (l : nat) (m : option string) : M unit :=
    Eff.modify (fun w =>
      set_heap (<[l := set_model m (default emptyOptions (heap w !! l))]> (heap w)) w).

  (** [new OllamaAgent(options)] *)
Definition OllamaAgent (l : nat) : M Agent :=
    o <- readOptions l;;
    Eff.ret (mkAgent Ollama
               (JS.str_or (opt_host o) "localhost")
               (int_or (opt_port o) 11434)
               (JS.str_or (opt_model o) "qwen:2.5-8b")
               (int_or (opt_timeout o) 60000)
               None).

  (** The constructor the three cloud agents share, up to their constants. *)
Definition cloudAgent (k : Provider) (envVar defaultModel baseUrl required : string)
      (l : nat) : M Agent :=
    o <- readOptions l;;
    w <- Eff.get;;
    let apiKey := JS.or_else (opt_apiKey o) (env w !! envVar) in
    let model := JS.str_or (opt_model o) defaultModel in
    let timeout := int_or (opt_timeout o) 60000 in
    if JS.truthy apiKey
    then Eff.ret (mkAgent k baseUrl 443 model timeout apiKey)
    else Eff.throw required.

  (** [new OpenAIAgent(options)] *)
Definition OpenAIAgent : nat -> M Agent :=
    cloudAgent OpenAI "OPENAI_API_KEY" "gpt-4" "api.openai.com"
      "OpenAI API key required. Set OPENAI_API_KEY environment variable or pass apiKey option.".

  (** [new GeminiAgent(options)] *)
Definition GeminiAgent : nat -> M Agent :=
    cloudAgent Gemini "GEMINI_API_KEY" "gemini-pro" "generativelanguage.googleapis.com"
      "Gemini API key required. Set GEMINI_API_KEY environment variable or pass apiKey option.".

  (** [new ClaudeAgent(options)] *)
Definition ClaudeAgent : nat -> M Agent :=
    cloudAgent Claude "ANTHROPIC_API_KEY" "claude-3-sonnet-20240229" "api.anthropic.com"
      "Anthropic API key required. Set ANTHROPIC_API_KEY environment variable or pass apiKey option.".

Definition createAgent (provider : string) (options : option nat) : M Agent :=
    l <- optionsArg options;;
    let normalizedProvider := JS.toLowerCase provider in
    if String.eqb normalizedProvider "ollama" then OllamaAgent l
    else if String.eqb normalizedProvider "openai" then OpenAIAgent l
    else if String.eqb normalizedProvider "gemini" then GeminiAgent l
    else if String.eqb normalizedProvider "claude" then ClaudeAgent l
    else Eff.throw ("Unsupported provider: " +:+ provider
                    +:+ ". Supported providers: ollama, openai, gemini, claude").

Definition getDefaultModels : list (string * string) :=
    [ ("ollama", "qwen:2.5-8b");
      ("openai", "gpt-4");
      ("gemini", "gemini-pro");
      ("claude", "claude-3-sonnet-20240229") ].

Definition getAvailableModels : list (string * list string) :=
    [ ("ollama", [ "qwen:2.5-8b"; "qwen:2.5-14b"; "codellama:13b"; "codellama:34b";
                   "deepseek-coder:6.7b"; "deepseek-coder:33b"; "llama3:8b";
                   "llama3:70b" ]);
      ("openai", [ "gpt-4"; "gpt-4-turbo"; "gpt-3.5-turbo"; "gpt-4o"; "gpt-4o-mini" ]);
      ("gemini", [ "gemini-pro"; "gemini-1.5-pro"; "gemini-1.5-flash" ]);
      ("claude", [ "claude-3-sonnet-20240229"; "claude-3-opus-20240229";
                   "claude-3-haiku-20240307"; "claude-3-5-sonnet-20241022" ]) ].

  (** [array.includes(model)], the model being a string or [undefined]. *)
Definition includesModel (models : list string) (model : option string) : bool :=
    match model with
    | Some m => existsb (String.eqb m) models
    | None => false
    end.

Definition isValidProviderModel (provider : string) (model : option string)
      : outcome bool :=
    let availableModels := getAvailableModels in
    let normalizedProvider := JS.toLowerCase provider in
    match readProperty availableModels normalizedProvider with
    | Undefined => Ret false
    | Inherited =>
        Throw "availableModels[normalizedProvider].includes is not a function"
    | Own models => Ret (includesModel models model)
    end.

Definition getRequiredEnvVars : list (string * list string) :=
    [ ("ollama", []);
      ("openai", ["OPENAI_API_KEY"]);
      ("gemini", ["GEMINI_API_KEY"]);
      ("claude", ["ANTHROPIC_API_KEY"]) ].

Record EnvCheck : Type := mkEnvCheck {
    valid : bool;
    missing : list string;
    envError : option string
  }.

Definition validateEnvironment (e : gmap string string) (provider : string)
      : outcome EnvCheck :=
    let normalizedProvider := JS.toLowerCase provider in
    match readProperty getRequiredEnvVars normalizedProvider with
    | Undefined =>
        Ret (mkEnvCheck false [] (Some ("Unknown provider: " +:+ provider)))
    | Inherited => Throw "requiredVars.filter is not a function"
    | Own requiredVars =>
        let missing :=
          List.filter (fun varName => negb (JS.truthy (e !! varName))) requiredVars in
        Ret (mkEnvCheck (length missing =? 0)%nat missing
               (if (0 <? length missing)%nat
                then Some ("Missing environment variables: " +:+ JS.join ", " missing)
                else None))
    end.

Definition createValidatedAgent (provider : string) (options : option nat)
      : M Agent :=
    l <- optionsArg options;;
    (* Validate environment *)
    w <- Eff.get;;
    envCheck <- Eff.settled (validateEnvironment (env w) provider);;
    if negb (valid envCheck) then Eff.throw (default "null" (envError envCheck))
    else
      (* Set default model if not specified; the provider is one of the four
         that [getRequiredEnvVars] lists, so the tables are read at a name
         of their own. *)
      o <- readOptions l;;
      (if negb (JS.truthy (opt_model o))
       then writeModel l (lookup_obj getDefaultModels (JS.toLowerCase provider))
       else Eff.ret tt);;;
      (* Validate model *)
      o <- readOptions l;;
      validModel <- Eff.settled (isValidProviderModel provider (opt_model o));;
      if negb validModel
      then
        let availableModels :=
          default [] (lookup_obj getAvailableModels (JS.toLowerCase provider)) in
        Eff.throw ("Invalid model " +:+ default "undefined" (opt_model o)
                   +:+ " for provider " +:+ provider
                   +:+ ". Available models: " +:+ JS.join ", " availableModels)
      else createAgent provider (Some l).

  (** *** The evaluator ([Evaluator]) *)

  (** A method that fills in an object [X] created on entry runs in the state
      [X * World]: the object and the world. *)
Definition ML (X : Type) : Type -> Type := @Eff.M (X * World).

Definition lift {X A} (c : M A) : ML X A :=
    fun s => let '(r, w) := c (snd s) in (r, (fst s, w)).

Definition update {X} (f : X -> X) : ML X unit :=
    Eff.modify (fun s => (f (fst s), snd s)).

Definition readObject {X} : ML X X :=
    fun s => (Ret (fst s), s).

  (** The setters of the fields the methods assign. *)
Definition set_passed (b : bool) (t : TestResult) : TestResult :=
    mkTestResult (test_id t) (test_case t) b (output t) (test_error t).
Definition set_output (o : option string) (t : TestResult) : TestResult :=
    mkTestResult (test_id t) (test_case t) (passed t) o (test_error t).
Definition set_test_error (e : option string) (t : TestResult) : TestResult :=
    mkTestResult (test_id t) (test_case t) (passed t) (output t) e.

Definition set_success (b : bool) (r : EvaluationResult) : EvaluationResult :=
    mkResult (problem_id r) b (error r) (analysis r) (generated_fix r) (patch r)
      (test_results r) (execution_time r) (timestamp r).
Definition set_error (e : option string) (r : EvaluationResult) : EvaluationResult :=
    mkResult (problem_id r) (success r) e (analysis r) (generated_fix r) (patch r)
      (test_results r) (execution_time r) (timestamp r).
Definition set_analysis (a : option string) (r : EvaluationResult) : EvaluationResult :=
    mkResult (problem_id r) (success r) (error r) a (generated_fix r) (patch r)
      (test_results r) (execution_time r) (timestamp r).
Definition set_generated_fix (f : option string) (r : EvaluationResult)
      : EvaluationResult :=
    mkResult (problem_id r) (success r) (error r) (analysis r) f (patch r)
      (test_results r) (execution_time r) (timestamp r).
Definition set_patch (p : option string) (r : EvaluationResult) : EvaluationResult :=
    mkResult (problem_id r) (success r) (error r) (analysis r) (generated_fix r) p
      (test_results r) (execution_time r) (timestamp r).
Definition set_test_results (t : list TestResult) (r : EvaluationResult)
      : EvaluationResult :=
    mkResult (problem_id r) (success r) (error r) (analysis r) (generated_fix r)
      (patch r) t (execution_time r) (timestamp r).
Definition set_execution_time (t : Z) (r : EvaluationResult) : EvaluationResult :=
    mkResult (problem_id r) (success r) (error r) (analysis r) (generated_fix r)
      (patch r) (test_results r) t (timestamp r).

Definition validateSyntax (code : string) : M bool :=
    Eff.try_catch
      (now <- Date_now;;
       let tempFile := "/tmp/validate_" +:+ Num.ofZ now +:+ ".py" in
       writeFile tempFile code;;;
       execAsync ("python3 -m py_compile " +:+ JS.dquote +:+ tempFile +:+ JS.dquote);;;
       unlink tempFile;;;
       Eff.ret true)
      (fun _ => Eff.ret false).

Definition sentinel : string := "TEST_PASSED".

  (** The script of one test case. *)
Definition testCode (fixedCode testCase : string) : string :=
"
" +:+ fixedCode +:+ "

# Test case
" +:+ testCase +:+ "
print(" +:+ JS.dquote +:+ sentinel +:+ JS.dquote +:+ ")
".

  (** The body of the loop of [runTestCases], for the test case at index [i]:
      the [try] block and its [catch], run on the fresh [testResult]. *)
Definition runTestCase (i : nat) (testCase fixedCode : string) : ML TestResult unit :=
    Eff.try_catch
      (now <- lift Date_now;;
       let tempFile := "/tmp/test_" +:+ Num.ofZ now +:+ "_"
                       +:+ Num.ofN (N.of_nat i) +:+ ".py" in
       lift (writeFile tempFile (testCode fixedCode testCase));;;
       streams <- lift (execAsync ("python3 " +:+ JS.dquote +:+ tempFile +:+ JS.dquote));;
       let '(stdout, stderr) := streams in
       update (set_output (Some stdout));;;
       update (set_passed (JS.includes stdout sentinel
                           && negb (JS.truthy (Some stderr))));;;
       (if JS.truthy (Some stderr) then update (set_test_error (Some stderr))
        else Eff.ret tt);;;
       lift (unlink tempFile))
      (fun message =>
         update (set_test_error (Some message));;;
         update (set_passed false)).

  (** [for (let i = ...; i < testCases.length; i++) { ... results.push(testResult) }]
      from index [i] on. *)
Fixpoint runTestCasesFrom (i : nat) (testCases : list string) (fixedCode : string)
      : M (list TestResult) :=
    match testCases with
    | [] => Eff.ret []
    | testCase :: rest =>
        fun w =>
          let testResult := mkTestResult i testCase false None None in
          let '(_, (testResult, w)) := runTestCase i testCase fixedCode (testResult, w) in
          (rest <- runTestCasesFrom (S i) rest fixedCode;;
           Eff.ret (testResult :: rest)) w
    end.

Definition runTestCases (testCases : list string) (fixedCode : string)
      (problem : Problem) : M (list TestResult) :=
    runTestCasesFrom 0 testCases fixedCode.

Definition determineSucess (result : EvaluationResult) (problem : Problem) : bool :=
    if JS.truthy (error result) then false
    else if negb (JS.truthy (generated_fix result))
            || (String.length (JS.trim (default "" (generated_fix result))) =? 0)%nat
    then false
    else if (0 <? length (test_results result))%nat then
      let passedTests := length (List.filter passed (test_results result)) in
      (0 <? passedTests)%nat
    else true.

  (** The [try] block of [evaluateProblem] and its [catch]. *)
Definition evaluateSteps (a : Agent) (problem : Problem) : ML EvaluationResult unit :=
    Eff.try_catch
      ((* Step 1: Analyze the code and generate fix *)
       analysis <- lift (analyzeCode a (base_code problem) (problem_statement problem));;
       update (set_analysis (Some analysis));;;
       (* Step 2: Extract the fixed code from analysis *)
       let fixedCode := Extract.extractFixedCode analysis in
       if negb (JS.truthy fixedCode)
       then Eff.throw "Could not extract fixed code from analysis"
       else
         let fixedCode := default "" fixedCode in
         update (set_generated_fix (Some fixedCode));;;
         (* Step 3: Generate patch *)
         patch <- lift (generatePatch a (base_code problem) fixedCode
                          (JS.str_or (filename problem) "main.py"));;
         update (set_patch (Some patch));;;
         (* Step 4: Basic syntax validation *)
         syntaxValid <- lift (validateSyntax fixedCode);;
         if negb syntaxValid
         then Eff.throw "Generated code has syntax errors"
         else
           (* Step 5: Run test cases if available *)
           (match test_cases problem with
            | Some (t :: ts) =>
                trs <- lift (runTestCases (t :: ts) fixedCode problem);;
                update (set_test_results trs)
            | _ => Eff.ret tt
            end);;;
           (* Step 6: Determine success *)
           result <- readObject;;
           update (set_success (determineSucess result problem)))
      (fun message =>
         lift (console_error
                 ("❌ Error evaluating problem " +:+ id problem +:+ ":") message);;;
         update (set_error (Some message));;;
         update (set_success false)).

Definition evaluateProblem (ev : Evaluator) (problem : Problem)
      : M (EvaluationResult * Evaluator) :=
    startTime <- Date_now;;
    timestamp <- Date_now;;
    fun w =>
      let result :=
        mkResult (id problem) false None None None None [] 0 timestamp in
      let '(_, (result, w)) := evaluateSteps (agent ev) problem (result, w) in
      (endTime <- Date_now;;
       let result := set_execution_time (endTime - startTime) result in
       Eff.ret (result, mkEvaluator (agent ev) (results ev ++ [result])%list)) w.

  (** The loop of [evaluateBatch]. *)
Fixpoint evaluateBatch (ev : Evaluator) (problems : list Problem)
      : M (list EvaluationResult * Evaluator) :=
    match problems with
    | [] => Eff.ret ([], ev)
    | problem :: rest =>
        r <- evaluateProblem ev problem;;
        let '(result, ev) := r in
        rs <- evaluateBatch ev rest;;
        let '(results, ev) := rs in
        Eff.ret (result :: results, ev)
    end.

  (** [results.reduce((sum, r) => sum + r.execution_time, 0)] *)
Definition sumTimes (results : list EvaluationResult) : float :=
    fold_left (fun sum r => (sum + Num.of_Z (execution_time r))%float) results 0%float.

  (** [errorTypes[errorType] = (errorTypes[errorType] || 0) + 1] *)
Definition countError (errorTypes : list (string * nat)) (errorType : string)
      : list (string * nat) :=
    obj_set errorTypes errorType (default 0%nat (lookup_obj errorTypes errorType) + 1)%nat.

Definition errorTypesOf (results : list EvaluationResult) : list (string * nat) :=
    fold_left
      (fun errorTypes r =>
         countError errorTypes
           (default "" (head (JS.split ":"%char (default "" (error r))))))
      (List.filter (fun r => JS.truthy (error r)) results)
      [].

  (** The [success_rate] of the summary. *)
Definition successRate (successful total : nat) : string :=
    if (0 <? total)%nat
    then Num.toFixed 2 (Num.of_nat successful / Num.of_nat total * 100)%float +:+ "%"
    else "0%".

Definition generateReport (results : list EvaluationResult) : M Report :=
    let total := length results in
    let successful := length (List.filter success results) in
    let failed := (total - successful)%nat in
    let avgTime :=
      if (0 <? length results)%nat
      then (sumTimes results / Num.of_nat (length results))%float
      else 0%float in
    let errorTypes := errorTypesOf results in
    generated_at <- Date_now;;
    Eff.ret
      (mkReport
         (mkSummary total successful failed (successRate successful total)
            (Num.Math_round avgTime))
         errorTypes results generated_at).

  (** *** The comparison of providers ([SWEBenchPoC]) *)

  (** [Array.prototype.sort(comparefn)] for a consistent comparator: the sort
      is stable. [insert] puts [x], which precedes the elements of [l] in the
      array, after those that [comparefn] orders strictly before it. *)
Fixpoint insert {A} (comparefn : A -> A -> Z) (x : A) (l : list A) : list A :=
    match l with
    | [] => [x]
    | y :: l' =>
        if (0 <? comparefn x y)%Z then y :: insert comparefn x l' else x :: l
    end.

Definition sort {A} (comparefn : A -> A -> Z) (l : list A) : list A :=
    fold_right (insert comparefn) [] l.

  (** [s.replace('%', '')]: the first occurrence is removed. *)
Fixpoint removeFirst (c : ascii) (s : string) : string :=
    match s with
    | EmptyString => EmptyString
    | String x s' => if Ascii.eqb x c then s' else String x (removeFirst c s')
    end.

  (** The constant [validResults] of [generateComparisonSummary]. *)
Definition validResults (providerResults : list (string * ProviderResult))
      : list Rated :=
    sort (fun a b => Num.sub_sign (rate b) (rate a))
      (map (fun e =>
              mkRated (fst e)
                (Num.parseFloat (removeFirst "%"%char (result_success_rate (snd e)))))
         (List.filter (fun e => negb (JS.truthy (result_error (snd e))))
            (Object_entries providerResults))).

  (** [validResults.reduce((sum, r) => sum + r.success_rate, 0)] *)
Definition sumRates (l : list Rated) : float :=
    fold_left (fun sum r => (sum + Num.to_float (rate r))%float) l 0%float.

Definition generateComparisonSummary
      (providerResults : list (string * ProviderResult)) : ComparisonSummary :=
    let validResults := validResults providerResults in
    match validResults with
    | [] => mkComparisonSummary None [] None
    | best :: _ =>
        mkComparisonSummary
          (Some (provider best))
          (map (fun r => (provider r, Num.toString (rate r) +:+ "%")) validResults)
          (Some (Num.toFixed 1 (sumRates validResults
                                / Num.of_nat (length validResults))%float
                 +:+ "%"))
    end.

  (** The [try] block of the loop of [compareProviders]. *)
Definition runProvider (provider : string) (problems : list Problem) : M Report :=
    agent <- createValidatedAgent provider None;;
    let evaluator := mkEvaluator agent [] in
    connected <- testConnection agent;;
    if negb connected then Eff.throw ("Cannot connect to " +:+ provider)
    else
      r <- evaluateBatch evaluator problems;;
      let '(results, evaluator) := r in
      generateReport results.

  (** The loop of [compareProviders] over the providers still to run. What
      a turn leaves, the report or the error object, is assigned to
      [provider_results[provider]]. *)
Fixpoint compareLoop (providers : list string) (problems : list Problem)
      (provider_results : list (string * ProviderResult))
      : M (list (string * ProviderResult)) :=
    match providers with
    | [] => Eff.ret provider_results
    | provider :: rest =>
        entry <- Eff.try_catch
                   (report <- runProvider provider problems;;
                    Eff.ret (Reported report))
                   (fun message => Eff.ret (Failed message));;
        compareLoop rest problems (assign provider_results provider entry)
    end.

  (** [compareProviders], from the problems loaded and cut to the limit to the
      results it then saves: [providers] is [options.providers]. *)
Definition compareProviders (providers : string) (problems : list Problem)
      : M ComparisonResults :=
    let providers := map JS.trim (JS.split ","%char providers) in
    timestamp <- Date_now;;
    provider_results <- compareLoop providers problems [];;
    Eff.ret
      (mkComparisonResults providers (length problems) timestamp provider_results
         (generateComparisonSummary provider_results)).
End Program.

(** ** Problems as read from a file ([ProblemLoader]) *)

Module Loader.

Set Warnings "-register-all".

(** A value as [JSON.parse] returns it. The properties of an object stand in
    the order of the text, each name once. *)
Inductive JSON : Type :=
  | JNull
  | JBool (b : bool)
  | JNum (x : float)
  | JStr (s : string)
  | JArr (elements : list JSON)
  | JObj (properties : list (string * JSON)).

(** [value[name]] for a name that no prototype defines, as are the names the
    loader reads: [undefined] is [None], and reading a property of [null]
    throws the [TypeError] of the engine. *)
Definition get (value : JSON) (name : string) : outcome (option JSON) :=
  match value with
  | JNull => Throw ("Cannot read properties of null (reading '" +:+ name +:+ "')")
  | JObj properties => Ret (lookup_obj properties name)
  | _ => Ret None
  end.

(** Truthiness: [undefined], [null], [false], [0], [NaN] and the empty string
    are falsy. *)
Definition truthy (v : option JSON) : bool :=
  match v with
  | None | Some JNull => false
  | Some (JBool b) => b
  | Some (JNum x) => negb (PrimFloat.eqb x 0 || PrimFloat.is_nan x)
  | Some (JStr s) => negb (String.eqb s "")
  | Some (JArr _) | Some (JObj _) => true
  end.

(** [typeof v === 'string'] *)
Definition isString (v : option JSON) : bool :=
  match v with
  | Some (JStr _) => true
  | _ => false
  end.

(** [Array.isArray(v)] *)
Definition isArray (v : option JSON) : bool :=
  match v with
  | Some (JArr _) => true
  | _ => false
  end.

(** Sequencing of steps that may throw. *)
Definition andThen {A B} (x : outcome A) (f : A -> outcome B) : outcome B :=
  match x with
  | Ret a => f a
  | Throw message => Throw message
  end.

Definition requiredFields : list string := ["id"; "problem_statement"; "base_code"].

(** The loop of [validateProblem] over the required fields. *)
Fixpoint requireFields (problem : JSON) (fields : list string) : outcome unit :=
  match fields with
  | [] => Ret tt
  | field :: rest =>
      andThen (get problem field) (fun v =>
      if negb (truthy v)
      then Throw ("Problem missing required field: " +:+ field)
      else requireFields problem rest)
  end.

(** [validateProblem(problem)] *)
Definition validateProblem (problem : JSON) : outcome unit :=
  andThen (requireFields problem requiredFields) (fun _ =>
  andThen (get problem "id") (fun id =>
  if negb (isString id) then Throw "Problem ID must be a string" else
  andThen (get problem "problem_statement") (fun statement =>
  if negb (isString statement) then Throw "Problem statement must be a string" else
  andThen (get problem "base_code") (fun code =>
  if negb (isString code) then Throw "Base code must be a string" else
  (* Optional fields validation *)
  andThen (get problem "test_cases") (fun tests =>
  if truthy tests && negb (isArray tests)
  then Throw "Test cases must be an array" else
  andThen (get problem "expected_patch") (fun expected =>
  if truthy expected && negb (isString expected)
  then Throw "Expected patch must be a string"
  else Ret tt)))))).

(** [v || d] *)
Definition orDefault (v : option JSON) (d : JSON) : JSON :=
  match v with
  | Some x => if truthy v then x else d
  | None => d
  end.

(** [createProblem(id, statement, code, options)]; [created_at] is the text
    of the date of the call. *)
Definition createProblem (id statement code : string) (options : JSON)
    (created_at : string) : outcome JSON :=
  andThen (get options "repo") (fun repo =>
  andThen (get options "filename") (fun filename =>
  andThen (get options "test_cases") (fun tests =>
  andThen (get options "expected_patch") (fun expected =>
  andThen (get options "difficulty") (fun difficulty =>
  andThen (get options "tags") (fun tags =>
  Ret (JObj
         [ ("id", JStr id);
           ("repo", orDefault repo (JStr "example/repo"));
           ("problem_statement", JStr statement);
           ("base_code", JStr code);
           ("filename", orDefault filename (JStr "main.py"));
           ("test_cases", orDefault tests (JArr []));
           ("expected_patch", orDefault expected JNull);
           ("difficulty", orDefault difficulty (JStr "medium"));
           ("tags", orDefault tags (JArr []));
           ("created_at", JStr created_at) ]))))))).

(** The [catch] of the two loaders: the error is thrown again behind the
    name of the file. *)
Definition rethrow {A} (what filePath : string) (x : outcome A) : outcome A :=
  match x with
  | Ret a => Ret a
  | Throw message =>
      Throw ("Failed to load " +:+ what +:+ " from " +:+ filePath +:+ ": " +:+ message)
  end.

(** [loadProblem(filePath)]; [parsed] is what
    [JSON.parse(await fs.readFile(filePath, 'utf8'))] gave: the value, or the
    message of the error thrown. *)
Definition loadProblem (filePath : string) (parsed : outcome JSON) : outcome JSON :=
  rethrow "problem" filePath
    (andThen parsed (fun problem =>
     andThen (validateProblem problem) (fun _ =>
     Ret problem))).

(** The loop of [loadBatch] over the tasks: the problems pushed so far are
    returned when every task is valid. *)
Fixpoint validateAll (tasks : list JSON) : outcome (list JSON) :=
  match tasks with
  | [] => Ret []
  | problem :: rest =>
      andThen (validateProblem problem) (fun _ =>
      andThen (validateAll rest) (fun problems =>
      Ret (problem :: problems)))
  end.

(** [loadBatch(filePath)], with [parsed] as for [loadProblem]. *)
Definition loadBatch (filePath : string) (parsed : outcome JSON)
    : outcome (list JSON) :=
  rethrow "batch" filePath
    (andThen parsed (fun batch =>
     andThen (get batch "tasks") (fun tasks =>
     if negb (truthy tasks) || negb (isArray tasks)
     then Throw ("Batch file must contain a " +:+ JS.dquote +:+ "tasks"
                 +:+ JS.dquote +:+ " array")
     else
       match tasks with
       | Some (JArr elements) => validateAll elements
       | _ => Ret []
       end))).

End Loader.

(** ** The limit on the number of problems ([--limit]) *)

Module Limit.

(** The value of a hexadecimal digit. *)
Definition hex_digit (c : ascii) : option N :=
  let n := N_of_ascii c in
  if ((48 <=? n) && (n <=? 57))%N then Some (n - 48)%N
  else if ((97 <=? n) && (n <=? 102))%N then Some (n - 87)%N
  else if ((65 <=? n) && (n <=? 70))%N then Some (n - 55)%N
  else None.

(** The hexadecimal digits in front of [s], after those read as [acc]. *)
Fixpoint read_hex (s : list ascii) (acc : N) (count : nat) : N * nat :=
  match s with
  | c :: s' =>
      match hex_digit c with
      | Some d => read_hex s' (16 * acc + d)%N (S count)
      | None => (acc, count)
      end
  | [] => (acc, count)
  end.

(** [s] starts with [0x] or [0X]. *)
Definition hexPrefix (s : list ascii) : bool :=
  match s with
  | "0"%char :: c :: _ => Ascii.eqb c "x" || Ascii.eqb c "X"
  | _ => false
  end.

(** The sign in front of a numeral, and what follows it. *)
Definition sign (s : list ascii) : bool * list ascii :=
  match s with
  | "-"%char :: r => (true, r)
  | "+"%char :: r => (false, r)
  | _ => (false, s)
  end.

(** [parseInt(s)], by the integer it denotes; [None] is [NaN]. White space
    is skipped, then a sign, then [0x] or [0X] announces hexadecimal digits;
    the digits are read as far as they go and what follows is ignored. The
    Number returned is the double nearest to the integer, which is the integer
    itself below [2^53]. *)
Definition parseInt (s : string) : option Z :=
  let s0 := JS.trimStartL (list_ascii_of_string s) in
  let '(neg, s1) := sign s0 in
  let '(value, count) :=
    if hexPrefix s1 then read_hex (drop 2 s1) 0%N 0
    else let '(v, n, _) := Num.read_digits s1 0%N 0 in (v, n) in
  if (count =? 0)%nat then None
  else Some (if neg then (- Z.of_N value)%Z else Z.of_N value).

(** [l.slice(0, stop)] for the number [parseInt] returned: [NaN] counts as 0,
    a negative number counts from the end, and the result never reaches past
    the ends of [l] (a double of [2^53] or more is past the end as the
    integer it stands for is). *)
Definition slice_to {A} (l : list A) (stop : option Z) : list A :=
  match stop with
  | None => []
  | Some n =>
      if (n <? 0)%Z then take (Z.to_nat (Z.of_nat (length l) + n)) l
      else take (Z.to_nat n) l
  end.

(** [problems.slice(0, parseInt(options.limit))], the cut of
    [compareProviders]: its option has the default ['3'], so the limit is
    always a string there. *)
Definition limitProblems {A} (limit : string) (problems : list A) : list A :=
  slice_to problems (parseInt limit).

(** The cut of the two [evaluateBatch] commands, made only
    [if (options.limit)]: their option has no default, and without it
    ([undefined]) or with an empty one the problems stay as they are. *)
Definition limitIfGiven {A} (limit : option string) (problems : list A) : list A :=
  if JS.truthy limit then limitProblems (default "" limit) problems else problems.

End Limit.

(** * Properties *)

(** ** Extraction of the fixed code *)

Module ExtractFacts.
Import Regex Extract.

(** [w] stands at the front of [s], up to case when [ic] is set. *)
Fixpoint prefix_ic (ic : bool) (w s : list ascii) : bool :=
  match w, s with
  | [], _ => true
  | c :: w', x :: s' => chr_eq ic c x && prefix_ic ic w' s'
  | _ :: _, [] => false
  end.

(** [w] occurs in [s] at an offset below [n]. *)
Fixpoint occursWithin (ic : bool) (w : list ascii) (n : nat) (s : list ascii) : bool :=
  match n with
  | O => false
  | S n' =>
      prefix_ic ic w s
      || match s with
         | [] => false
         | _ :: s' => occursWithin ic w n' s'
         end
  end.

(** [w] occurs in [s]. *)
Definition occurs (ic : bool) (w s : list ascii) : bool :=
  occursWithin ic w (S (length s)) s.

Definition fenceL : list ascii := list_ascii_of_string fence.
Definition pythonL : list ascii := list_ascii_of_string fence_python.
Definition labelL : list ascii := list_ascii_of_string label.

(** A closing fence follows the white space at the front of [s]. *)
Definition closes (s : list ascii) : bool := JS.prefixb fenceL (JS.trimStartL s).

(** The offset of the first suffix of [s] that [closes]. *)
Fixpoint first_close (s : list ascii) : option nat :=
  if closes s then Some O
  else match s with
       | [] => None
       | _ :: s' => option_map S (first_close s')
       end.

(** What group 1 captures behind an opening fence followed by [s]. *)
Definition captured (s : list ascii) : option (option (list ascii)) :=
  option_map (fun j => Some (take j (JS.trimStartL s)))
    (first_close (JS.trimStartL s)).

(** *** Continuations may be replaced by equal ones *)

Lemma starG_ext {A} (p : ascii -> bool) (k1 k2 : @cont A) :
  (forall s cap, k1 s cap = k2 s cap) ->
  forall s cap, starG p s cap k1 = starG p s cap k2.
Proof.
  intros H s. induction s as [| c s IH]; intros cap; cbn; [apply H |].
  destruct (p c); [| apply H]. rewrite IH, H. reflexivity.
Qed.

Lemma starL_ext {A} (p : ascii -> bool) (k1 k2 : @cont A) :
  (forall s cap, k1 s cap = k2 s cap) ->
  forall s cap, starL p s cap k1 = starL p s cap k2.
Proof.
  intros H s. induction s as [| c s IH]; intros cap; cbn; rewrite H; [reflexivity |].
  destruct (k2 (c :: s) cap); [reflexivity |]. destruct (p c); [apply IH | reflexivity].
Qed.

Lemma rmatch_ext {A} (ic : bool) (n : nat) (r : regex) :
  forall (k1 k2 : @cont A),
    (forall s cap, k1 s cap = k2 s cap) ->
    forall s cap, rmatch ic n r s cap k1 = rmatch ic n r s cap k2.
Proof.
  induction r as [| c | p | p | p | r1 IH1 r2 IH2 | r1 IH1 r2 IH2 | r IH |];
    intros k1 k2 H s cap; cbn [rmatch].
  - apply H.
  - destruct s as [| x s]; [reflexivity |]. destruct (chr_eq ic c x); [apply H | reflexivity].
  - destruct s as [| x s]; [reflexivity |]. destruct (p x); [apply H | reflexivity].
  - apply starG_ext, H.
  - apply starL_ext, H.
  - apply IH1. intros s1 cap1. apply IH2, H.
  - rewrite (IH1 k1 k2 H), (IH2 k1 k2 H). reflexivity.
  - apply IH. intros s1 cap1. apply H.
  - destruct (length s =? n)%nat; [apply H | reflexivity].
Qed.

(** *** Literal words and stars *)

Lemma rmatch_lit {A} (ic : bool) (n : nat) (w : list ascii) :
  forall s cap (k : @cont A),
    rmatch ic n (lit w) s cap k =
    if prefix_ic ic w s then k (drop (length w) s) cap else None.
Proof.
  induction w as [| c w IH]; intros s cap k; cbn [lit rmatch prefix_ic length drop].
  - destruct s; reflexivity.
  - destruct s as [| x s]; [reflexivity |].
    destruct (chr_eq ic c x); cbn [andb]; [apply IH | reflexivity].
Qed.

(** A greedy [\s*] settles on the longest run of white space when giving
    back a character cannot help the continuation. *)
Lemma starG_max {A} (cap : option (list ascii)) (k : @cont A) :
  (forall c s, JS.is_ws c = true ->
               k (JS.trimStartL s) cap = None -> k (c :: s) cap = None) ->
  forall s, starG JS.is_ws s cap k = k (JS.trimStartL s) cap.
Proof.
  intros H s. induction s as [| c s IH]; cbn [starG JS.trimStartL]; [reflexivity |].
  destruct (JS.is_ws c) eqn:Hc; [| reflexivity].
  rewrite IH. destruct (k (JS.trimStartL s) cap) eqn:Hk; [reflexivity |].
  apply H; assumption.
Qed.

(** The characters of the fences are the same in both cases. *)
Lemma chr_eq_backtick (ic : bool) (x : ascii) :
  chr_eq ic "`"%char x = Ascii.eqb "`"%char x.
Proof.
  destruct ic; [| reflexivity].
  destruct x as [[] [] [] [] [] [] [] []]; reflexivity.
Qed.

Lemma prefix_ic_fence (ic : bool) (s : list ascii) :
  prefix_ic ic fenceL s = JS.prefixb fenceL s.
Proof.
  unfold fenceL. cbn [list_ascii_of_string fence prefix_ic JS.prefixb].
  repeat (destruct s as [| ? s]; [reflexivity |]; rewrite chr_eq_backtick;
          destruct (Ascii.eqb _ _); cbn [andb]; [| reflexivity]).
  reflexivity.
Qed.

Lemma backtick_not_ws (c : ascii) (ic : bool) :
  JS.is_ws c = true -> chr_eq ic "`"%char c = false.
Proof.
  rewrite chr_eq_backtick.
  destruct c as [[] [] [] [] [] [] [] []]; cbn; intros H; try reflexivity; discriminate H.
Qed.

(** A word that opens with a backtick does not start on white space. *)
Lemma prefix_ic_ws (ic : bool) (w s : list ascii) (c : ascii) :
  JS.is_ws c = true -> prefix_ic ic ("`"%char :: w) (c :: s) = false.
Proof. intros H. cbn [prefix_ic]. rewrite (backtick_not_ws c ic H). reflexivity. Qed.

Lemma trimStartL_ws (c : ascii) (s : list ascii) :
  JS.is_ws c = true -> JS.trimStartL (c :: s) = JS.trimStartL s.
Proof. intros H. cbn. rewrite H. reflexivity. Qed.

Lemma closes_ws (c : ascii) (s : list ascii) :
  JS.is_ws c = true -> closes (c :: s) = closes s.
Proof. intros H. unfold closes. rewrite trimStartL_ws by exact H. reflexivity. Qed.

Lemma first_close_None_closes (s : list ascii) :
  first_close s = None -> closes s = false.
Proof. destruct s; cbn [first_close]; destruct (closes _); congruence. Qed.

Lemma first_close_ws (c : ascii) (s : list ascii) :
  JS.is_ws c = true -> first_close s = None -> first_close (c :: s) = None.
Proof.
  intros Hc Hs. cbn [first_close]. rewrite closes_ws by exact Hc.
  rewrite (first_close_None_closes s Hs), Hs. reflexivity.
Qed.

Lemma first_close_trimStart (s : list ascii) :
  first_close (JS.trimStartL s) = None -> first_close s = None.
Proof.
  induction s as [| c s IH]; cbn [JS.trimStartL]; [auto |].
  destruct (JS.is_ws c) eqn:Hc; [| auto].
  intros H. apply first_close_ws; auto.
Qed.

(** The lazy group followed by [\s*```]: the first suffix that closes. *)
Lemma lazy_group (s0 : list ascii) (cap : option (list ascii)) :
  forall p s,
    s0 = (p ++ s)%list ->
    starL any s cap
      (fun s1 _ =>
         if closes s1 then Some (Some (take (length s0 - length s1) s0)) else None) =
    option_map (fun j => Some (take (length p + j) s0)) (first_close s).
Proof.
  intros p s. revert p. induction s as [| c s IH]; intros p Hs0.
  - cbn [starL first_close]. destruct (closes []); [| reflexivity].
    cbn. subst s0. rewrite length_app. cbn. do 2 f_equal. f_equal. lia.
  - cbn [starL first_close]. destruct (closes (c :: s)).
    + cbn. subst s0. rewrite length_app. cbn. do 2 f_equal. f_equal. lia.
    + cbn [any]. rewrite (IH (p ++ [c])%list) by (rewrite <- app_assoc; exact Hs0).
      destruct (first_close s) as [j |]; cbn; [| reflexivity].
      rewrite length_app. cbn. do 2 f_equal. f_equal. lia.
Qed.

(** What [block_tail] does behind an opening fence. *)
Lemma rmatch_block_tail (ic : bool) (n : nat) (s : list ascii)
    (cap : option (list ascii)) :
  rmatch ic n block_tail s cap (fun _ c => Some c) = captured s.
Proof.
  unfold block_tail, captured. cbn [rmatch].
  assert (Hk : forall s1 cap1,
             starG JS.is_ws s1 cap1
               (fun s2 cap2 => rmatch ic n (word fence) s2 cap2 (fun _ c => Some c)) =
             if closes s1 then Some cap1 else None).
  { intros s1 cap1. rewrite starG_max.
    - unfold word. rewrite rmatch_lit. fold fenceL. rewrite prefix_ic_fence. reflexivity.
    - intros c s' Hc _. unfold word. rewrite rmatch_lit.
      cbn [fence list_ascii_of_string]. rewrite prefix_ic_ws by exact Hc. reflexivity. }
  assert (Hg : forall s0 cap0,
             starL any s0 cap0
               (fun s1 _ =>
                  starG JS.is_ws s1 (Some (take (length s0 - length s1) s0))
                    (fun s2 cap2 => rmatch ic n (word fence) s2 cap2 (fun _ c => Some c))) =
             option_map (fun j => Some (take j s0)) (first_close s0)).
  { intros s0 cap0.
    rewrite (starL_ext any _
               (fun s1 _ => if closes s1
                            then Some (Some (take (length s0 - length s1) s0))
                            else None))
      by (intros s1 c1; apply Hk).
    rewrite (lazy_group s0 cap0 [] s0 eq_refl). reflexivity. }
  rewrite starG_max.
  - apply Hg.
  - intros c s' Hc. rewrite !Hg.
    destruct (first_close (JS.trimStartL s')) eqn:H1; [discriminate |].
    intros _. rewrite first_close_ws; [reflexivity | exact Hc |].
    apply first_close_trimStart, H1.
Qed.

(** *** Trimming *)

Lemma trimStartL_app_fence (b rest : list ascii) :
  JS.trimStartL (b ++ fenceL ++ rest) = (JS.trimStartL b ++ fenceL ++ rest)%list.
Proof.
  induction b as [| c b IH]; [reflexivity |].
  cbn [app JS.trimStartL]. destruct (JS.is_ws c); [exact IH | reflexivity].
Qed.

Lemma trimEndL_prefix (b : list ascii) :
  exists t, b = (JS.trimEndL b ++ t)%list.
Proof.
  induction b as [| c b [t IH]]; [exists []; reflexivity |].
  cbn [JS.trimEndL]. destruct (JS.trimEndL b) as [| x l] eqn:Hb.
  - destruct (JS.is_ws c); [exists (c :: b); reflexivity |].
    exists t. cbn in *. congruence.
  - exists t. cbn in *. congruence.
Qed.

Lemma trimEndL_idem (b : list ascii) : JS.trimEndL (JS.trimEndL b) = JS.trimEndL b.
Proof.
  induction b as [| c b IH]; [reflexivity |].
  cbn [JS.trimEndL]. destruct (JS.trimEndL b) as [| x l] eqn:Hb.
  - destruct (JS.is_ws c) eqn:Hc; [reflexivity |]. cbn. rewrite Hc. reflexivity.
  - cbn [JS.trimEndL]. cbn [JS.trimEndL] in IH. rewrite IH. reflexivity.
Qed.

(** Trimming the end keeps the first character of what it leaves. *)
Lemma trimEndL_head (b : list ascii) :
  match JS.trimEndL b, b with
  | x :: _, y :: _ => x = y
  | _, _ => True
  end.
Proof.
  destruct b as [| c b]; [exact I |].
  cbn [JS.trimEndL]. destruct (JS.trimEndL b); [destruct (JS.is_ws c) |]; auto.
Qed.

Lemma trimStartL_head (b : list ascii) :
  match JS.trimStartL b with
  | x :: _ => JS.is_ws x = false
  | [] => True
  end.
Proof.
  induction b as [| c b IH]; [exact I |].
  cbn [JS.trimStartL]. destruct (JS.is_ws c) eqn:Hc; [exact IH | exact Hc].
Qed.

Lemma trimL_idem (b : list ascii) : JS.trimL (JS.trimL b) = JS.trimL b.
Proof.
  unfold JS.trimL.
  assert (H : JS.trimStartL (JS.trimEndL (JS.trimStartL b)) = JS.trimEndL (JS.trimStartL b)).
  { pose proof (trimStartL_head b) as H1.
    pose proof (trimEndL_head (JS.trimStartL b)) as H2.
    destruct (JS.trimStartL b) as [| y l']; [reflexivity |].
    destruct (JS.trimEndL (y :: l')) as [| x l]; [reflexivity |].
    rewrite H2. cbn. rewrite H1. reflexivity. }
  rewrite H. apply trimEndL_idem.
Qed.

Lemma trim_idem (s : string) : JS.trim (JS.trim s) = JS.trim s.
Proof.
  unfold JS.trim. rewrite list_ascii_of_string_of_list_ascii, trimL_idem. reflexivity.
Qed.

(** *** The closing fence behind a body *)

Lemma first_close_zero (s : list ascii) :
  first_close s = Some O -> closes s = true.
Proof.
  destruct s as [| c s]; cbn [first_close]; destruct (closes _); try congruence.
  destruct (first_close s); discriminate.
Qed.

Lemma first_close_here (s : list ascii) :
  closes s = true -> first_close s = Some O.
Proof. intros H. destruct s; cbn [first_close]; rewrite H; reflexivity. Qed.

Lemma first_close_body (rest : list ascii) (b : list ascii) :
  occursWithin false fenceL (length b) (b ++ fenceL ++ rest) = false ->
  first_close (b ++ fenceL ++ rest) = Some (length (JS.trimEndL b)).
Proof.
  induction b as [| c b IH]; intros H.
  - reflexivity.
  - cbn [length app occursWithin] in H. apply orb_false_iff in H. destruct H as [Hhere Hin].
    specialize (IH Hin).
    cbn [app first_close JS.trimEndL].
    destruct (JS.is_ws c) eqn:Hc.
    + rewrite closes_ws by exact Hc.
      destruct (closes (b ++ fenceL ++ rest)) eqn:Hcl.
      * rewrite (first_close_here _ Hcl) in IH. injection IH as IH.
        destruct (JS.trimEndL b); [reflexivity | discriminate].
      * rewrite IH. cbn [option_map].
        destruct (JS.trimEndL b) as [| x l] eqn:Hb; [| reflexivity].
        cbn [length] in IH. apply first_close_zero in IH. congruence.
    + assert (Hcl : closes (c :: b ++ fenceL ++ rest) = false).
      { unfold closes. cbn [JS.trimStartL]. rewrite Hc.
        rewrite <- prefix_ic_fence with (ic := false). exact Hhere. }
      rewrite Hcl, IH. cbn [option_map].
      destruct (JS.trimEndL b); reflexivity.
Qed.

Lemma occursWithin_skip (ic : bool) (w : list ascii) (p : list ascii) :
  forall n s,
    occursWithin ic w (length p + n) (p ++ s) = false ->
    occursWithin ic w n s = false.
Proof.
  induction p as [| c p IH]; intros n s H; [exact H |].
  cbn [length app Nat.add occursWithin] in H.
  apply orb_false_iff in H. destruct H as [_ H]. apply IH, H.
Qed.

Lemma trimStartL_suffix (b : list ascii) :
  exists p, b = (p ++ JS.trimStartL b)%list.
Proof.
  induction b as [| c b [p IH]]; [exists []; reflexivity |].
  cbn [JS.trimStartL]. destruct (JS.is_ws c); [| exists []; reflexivity].
  exists (c :: p). cbn. congruence.
Qed.

(** Behind an opening fence, a body and the first closing fence: the group
    captures the body without the white space around it. *)
Lemma captured_body (body rest : list ascii) :
  occursWithin false fenceL (length body) (body ++ fenceL ++ rest) = false ->
  captured (body ++ fenceL ++ rest) = Some (Some (JS.trimL body)).
Proof.
  intros H. unfold captured. rewrite trimStartL_app_fence.
  destruct (trimStartL_suffix body) as [p Hp].
  assert (H1 : occursWithin false fenceL (length (JS.trimStartL body))
                 (JS.trimStartL body ++ fenceL ++ rest) = false).
  { apply (occursWithin_skip false fenceL p).
    rewrite app_assoc, <- Hp, <- length_app, <- Hp. exact H. }
  rewrite (first_close_body rest _ H1). cbn [option_map].
  destruct (trimEndL_prefix (JS.trimStartL body)) as [t Ht].
  unfold JS.trimL. rewrite Ht at 2. rewrite <- app_assoc.
  rewrite take_app_length. reflexivity.
Qed.

(** *** The leftmost match *)

Definition final : @cont (option (list ascii)) := fun _ cap => Some cap.

Lemma search_skip (ic : bool) (n : nat) (w : list ascii) (r : regex) :
  forall m s,
    occursWithin ic w m s = false ->
    search ic n (Cat (lit w) r) s = search ic n (Cat (lit w) r) (drop m s).
Proof.
  induction m as [| m IH]; intros s H; [destruct s; reflexivity |].
  cbn [occursWithin] in H. apply orb_false_iff in H. destruct H as [Hhere Hin].
  destruct s as [| c s].
  - reflexivity.
  - cbn [drop]. rewrite <- (IH s Hin).
    cbn [search rmatch]. rewrite rmatch_lit, Hhere. reflexivity.
Qed.

Lemma search_none (ic : bool) (n : nat) (w : list ascii) (r : regex) (s : list ascii) :
  occurs ic w s = false -> search ic n (Cat (lit w) r) s = None.
Proof.
  unfold occurs. induction s as [| c s IH]; intros H.
  - cbn [length occursWithin] in H. apply orb_false_iff in H. destruct H as [Hhere _].
    cbn [search rmatch]. rewrite rmatch_lit, Hhere. reflexivity.
  - cbn [length occursWithin] in H. apply orb_false_iff in H. destruct H as [Hhere Hin].
    cbn [search rmatch]. rewrite rmatch_lit, Hhere. apply IH, Hin.
Qed.

Lemma search_here (ic : bool) (n : nat) (w : list ascii) (r : regex)
    (s : list ascii) (cap : option (list ascii)) :
  prefix_ic ic w s = true ->
  rmatch ic n r (drop (length w) s) None final = Some cap ->
  search ic n (Cat (lit w) r) s = Some cap.
Proof.
  intros Hw Hr. destruct s; cbn [search rmatch]; rewrite rmatch_lit, Hw;
    fold final; rewrite Hr; reflexivity.
Qed.

Lemma prefix_ic_app (ic : bool) (w l rest : list ascii) :
  prefix_ic ic w l = true -> prefix_ic ic w (l ++ rest) = true.
Proof.
  revert l. induction w as [| c w IH]; intros l H; [reflexivity |].
  destruct l as [| x l]; [discriminate H |].
  cbn [app prefix_ic] in *. apply andb_true_iff in H. destruct H as [-> H].
  cbn [andb]. apply IH, H.
Qed.

Lemma prefix_ic_refl (w : list ascii) : prefix_ic false w w = true.
Proof.
  induction w as [| c w IH]; [reflexivity |].
  cbn [prefix_ic chr_eq]. rewrite Ascii.eqb_refl. exact IH.
Qed.

Lemma drop_length_app (l1 l2 rest : list ascii) :
  length l1 = length l2 -> drop (length l2) (l1 ++ rest) = rest.
Proof. intros <-. apply drop_app_length. Qed.

(** The second tier on a text with a first opening fence, a body and the
    first closing fence behind it. *)
Lemma code_block_found (n : nat) (pre body rest : list ascii) :
  occursWithin false pythonL (length pre) (pre ++ pythonL ++ body ++ fenceL ++ rest) = false ->
  occursWithin false fenceL (length body) (body ++ fenceL ++ rest) = false ->
  search false n re_code_block (pre ++ pythonL ++ body ++ fenceL ++ rest) =
  Some (Some (JS.trimL body)).
Proof.
  intros Hpre Hbody. unfold re_code_block, word. fold pythonL.
  rewrite (search_skip false n pythonL block_tail _ _ Hpre), drop_app_length.
  apply search_here.
  - apply prefix_ic_app, prefix_ic_refl.
  - rewrite drop_app_length. unfold final. rewrite rmatch_block_tail.
    apply captured_body, Hbody.
Qed.

Lemma trimStartL_blank (ws rest : list ascii) :
  forallb JS.is_ws ws = true -> JS.trimStartL (ws ++ rest) = JS.trimStartL rest.
Proof.
  induction ws as [| c ws IH]; intros H; [reflexivity |].
  cbn [forallb] in H. apply andb_true_iff in H. destruct H as [Hc H].
  cbn [app JS.trimStartL]. rewrite Hc. apply IH, H.
Qed.

(** A word that matches the opening fence up to case opens with a backtick. *)
Lemma trimStartL_opening (opening rest : list ascii) :
  prefix_ic true pythonL opening = true ->
  JS.trimStartL (opening ++ rest) = (opening ++ rest)%list.
Proof.
  intros H. destruct opening as [| x opening]; [discriminate H |].
  cbn [pythonL fence_python list_ascii_of_string prefix_ic] in H.
  apply andb_true_iff in H. destruct H as [Hx _].
  cbn [app JS.trimStartL]. destruct (JS.is_ws x) eqn:Hws; [| reflexivity].
  rewrite (backtick_not_ws x true Hws) in Hx. discriminate Hx.
Qed.

(** The first tier on a text with a first label, white space, an opening
    fence, a body and the first closing fence behind it. *)
Lemma fixed_code_found (n : nat) (pre lab ws opening body rest : list ascii) :
  length lab = length labelL ->
  prefix_ic true labelL lab = true ->
  forallb JS.is_ws ws = true ->
  length opening = length pythonL ->
  prefix_ic true pythonL opening = true ->
  occursWithin true labelL (length pre)
    (pre ++ lab ++ ws ++ opening ++ body ++ fenceL ++ rest) = false ->
  occursWithin false fenceL (length body) (body ++ fenceL ++ rest) = false ->
  search true n re_fixed_code
    (pre ++ lab ++ ws ++ opening ++ body ++ fenceL ++ rest) =
  Some (Some (JS.trimL body)).
Proof.
  intros Hlab Hlabel Hws Hopen Hopening Hpre Hbody.
  unfold re_fixed_code, word. fold labelL. fold pythonL.
  rewrite (search_skip true n labelL _ _ _ Hpre), drop_app_length.
  apply search_here; [apply prefix_ic_app, Hlabel |].
  rewrite (drop_length_app lab labelL _ Hlab).
  cbn [rmatch].
  rewrite starG_max.
  - rewrite rmatch_lit, trimStartL_blank by exact Hws.
    rewrite trimStartL_opening by exact Hopening.
    rewrite (prefix_ic_app true pythonL opening _ Hopening).
    rewrite (drop_length_app opening pythonL _ Hopen).
    unfold final. rewrite rmatch_block_tail. apply captured_body, Hbody.
  - intros c s Hc _. rewrite rmatch_lit.
    cbn [pythonL fence_python list_ascii_of_string]. rewrite prefix_ic_ws by exact Hc.
    reflexivity.
Qed.

(** *** The three tiers, on strings *)

Abbreviation chars := list_ascii_of_string.

Lemma chars_app (s1 s2 : string) : chars (s1 +:+ s2) = (chars s1 ++ chars s2)%list.
Proof.
  induction s1 as [| c s1 IH]; [reflexivity |].
  change (c :: chars (s1 +:+ s2) = c :: (chars s1 ++ chars s2)%list).
  f_equal. exact IH.
Qed.

Lemma chars_length (s : string) : length (chars s) = String.length s.
Proof.
  induction s as [| c s IH]; [reflexivity |].
  change (S (length (chars s)) = S (String.length s)).
  f_equal. exact IH.
Qed.

(** [x] is [y] up to the case of its letters. *)
Definition sameFold (x y : string) : bool :=
  (String.length x =? String.length y)%nat && prefix_ic true (chars y) (chars x).

(** [s] is made of white space. *)
Definition blank (s : string) : bool := forallb JS.is_ws (chars s).

(** An occurrence of [w] in [pre +:+ rest] starts inside [pre]. *)
Definition startsInside (ic : bool) (w pre rest : string) : bool :=
  occursWithin ic (chars w) (String.length pre) (chars (pre +:+ rest)).

(** [w] occurs in [s]. *)
Definition mentions (ic : bool) (s w : string) : bool :=
  occurs ic (chars w) (chars s).

Lemma match1_None (ic : bool) (w : string) (r : regex) (s : string) :
  mentions ic s w = false -> match1 ic (Cat (word w) r) s = None.
Proof.
  intros H. unfold match1, word. rewrite search_none by exact H. reflexivity.
Qed.

(** The tiers on answers of the expected shapes:
    (i) a text whose first [FIXED_CODE:] label (in any case) is followed by
        white space, an opening fence [```python] (in any case), a body and
        the first closing fence yields the trimmed body, whatever else the text
        holds;
    (ii) a text without the label in which the first [```python] (in lower
         case) is followed by a body and the first closing fence yields the
         trimmed body;
    (iii) a text with neither the label nor [```python] yields what the scan
          of the lines yields. *)
Lemma extractFixedCode_on_blocks :
  (forall pre lab ws opening body post,
      sameFold lab label = true ->
      blank ws = true ->
      sameFold opening fence_python = true ->
      startsInside true label pre
        (lab +:+ ws +:+ opening +:+ body +:+ fence +:+ post) = false ->
      startsInside false fence body (fence +:+ post) = false ->
      extractFixedCode
        (pre +:+ lab +:+ ws +:+ opening +:+ body +:+ fence +:+ post) =
      Some (JS.trim body)) /\
  (forall pre body post,
      mentions true (pre +:+ fence_python +:+ body +:+ fence +:+ post) label = false ->
      startsInside false fence_python pre
        (fence_python +:+ body +:+ fence +:+ post) = false ->
      startsInside false fence body (fence +:+ post) = false ->
      extractFixedCode (pre +:+ fence_python +:+ body +:+ fence +:+ post) =
      Some (JS.trim body)) /\
  (forall analysis,
      mentions true analysis label = false ->
      mentions false analysis fence_python = false ->
      extractFixedCode analysis = lineScan analysis).
Proof.
  split; [| split].
  - intros pre lab ws opening body post Hlab Hws Hopen Hpre Hbody.
    unfold sameFold in Hlab, Hopen.
    apply andb_true_iff in Hlab. destruct Hlab as [Hll Hlab].
    apply andb_true_iff in Hopen. destruct Hopen as [Hol Hopen].
    apply Nat.eqb_eq in Hll, Hol. rewrite <- !chars_length in Hll, Hol.
    unfold startsInside in Hpre, Hbody. rewrite <- chars_length in Hpre, Hbody.
    repeat rewrite chars_app in Hpre. repeat rewrite chars_app in Hbody.
    unfold extractFixedCode, match1. rewrite !chars_app.
    rewrite (fixed_code_found _ _ _ _ _ _ _ Hll Hlab Hws Hol Hopen Hpre Hbody).
    cbn [default from_option Datatypes.id]. f_equal.
    unfold JS.trim. rewrite list_ascii_of_string_of_list_ascii, trimL_idem. reflexivity.
  - intros pre body post Hlabel Hpre Hbody.
    unfold extractFixedCode. unfold re_fixed_code. rewrite match1_None by exact Hlabel.
    unfold startsInside in Hpre, Hbody. rewrite <- chars_length in Hpre, Hbody.
    repeat rewrite chars_app in Hpre. repeat rewrite chars_app in Hbody.
    unfold match1. rewrite !chars_app.
    rewrite (code_block_found _ _ _ _ Hpre Hbody).
    cbn [default from_option Datatypes.id]. f_equal.
    unfold JS.trim. rewrite list_ascii_of_string_of_list_ascii, trimL_idem. reflexivity.
  - intros analysis Hlabel Hfence.
    unfold extractFixedCode, re_fixed_code, re_code_block.
    rewrite match1_None by exact Hlabel. rewrite match1_None by exact Hfence.
    reflexivity.
Qed.

Definition lf : string := String (ascii_of_nat 10) "".

(** The first tier wins over a fenced block that stands before the label. *)
Example extractFixedCode_label_wins :
  extractFixedCode
    ("```python" +:+ lf +:+ "old()" +:+ lf +:+ "```" +:+ lf
     +:+ "Fixed_Code:" +:+ lf +:+ "```Python" +:+ lf
     +:+ "def calc(a, b):" +:+ lf +:+ "    return a / b if b else None" +:+ lf
     +:+ "```" +:+ lf +:+ "EXPLANATION: guard") =
  Some ("def calc(a, b):" +:+ lf +:+ "    return a / b if b else None").
Proof.
  exact (proj1 extractFixedCode_on_blocks
           ("```python" +:+ lf +:+ "old()" +:+ lf +:+ "```" +:+ lf)
           "Fixed_Code:" lf "```Python"
           (lf +:+ "def calc(a, b):" +:+ lf +:+ "    return a / b if b else None" +:+ lf)
           (lf +:+ "EXPLANATION: guard")
           eq_refl eq_refl eq_refl eq_refl eq_refl).
Qed.

(** *** Every analysis text *)

(** The text of [s] in front of the first [```] in it, when there is one. *)
Fixpoint upToFence (s : list ascii) : option (list ascii) :=
  if JS.prefixb fenceL s then Some []
  else match s with
       | [] => None
       | c :: s' => option_map (cons c) (upToFence s')
       end.

(** A block opens at the front of [s]: the text [```python] stands there, up
    to case when [ic] is set, and a [```] follows somewhere behind it. The
    content of the block is the text between the two. *)
Definition blockAt (ic : bool) (s : list ascii) : option (list ascii) :=
  if prefix_ic ic pythonL s then upToFence (drop (length pythonL) s) else None.

(** A labelled block opens at the front of [s]: the label stands there, in
    any case, and after the white space behind it a block opens, its tag in
    any case. *)
Definition labelledBlockAt (s : list ascii) : option (list ascii) :=
  if prefix_ic true labelL s
  then blockAt true (JS.trimStartL (drop (length labelL) s))
  else None.

(** What [f] finds at the leftmost place of [s] where it finds something. *)
Fixpoint leftmost {B} (f : list ascii -> option B) (s : list ascii) : option B :=
  match f s with
  | Some b => Some b
  | None =>
      match s with
      | [] => None
      | _ :: s' => leftmost f s'
      end
  end.

(** The three tiers, by search in the text. *)
Definition tiers (analysis : string) : option string :=
  match leftmost labelledBlockAt (chars analysis) with
  | Some content => Some (JS.trim (string_of_list_ascii content))
  | None =>
      match leftmost (blockAt false) (chars analysis) with
      | Some content => Some (JS.trim (string_of_list_ascii content))
      | None => lineScan analysis
      end
  end.

Lemma prefixb_fence_ws (c : ascii) (s : list ascii) :
  JS.is_ws c = true -> JS.prefixb fenceL (c :: s) = false.
Proof.
  intros H. rewrite <- prefix_ic_fence with (ic := false).
  apply prefix_ic_ws, H.
Qed.

Lemma upToFence_blank (s : list ascii) :
  closes s = true ->
  exists ws, upToFence s = Some ws /\ JS.trimEndL ws = [].
Proof.
  unfold closes. induction s as [| c s IH]; cbn [JS.trimStartL]; intros H.
  - discriminate H.
  - destruct (JS.is_ws c) eqn:Hc.
    + destruct (IH H) as (ws & Hws & Hblank).
      exists (c :: ws). cbn [upToFence]. rewrite (prefixb_fence_ws c s Hc), Hws.
      split; [reflexivity |]. cbn [JS.trimEndL]. rewrite Hblank, Hc. reflexivity.
    + exists []. cbn [upToFence]. rewrite H. split; reflexivity.
Qed.

Lemma trimEndL_cons (c : ascii) (x y : list ascii) :
  JS.trimEndL x = JS.trimEndL y -> JS.trimEndL (c :: x) = JS.trimEndL (c :: y).
Proof. intros H. cbn [JS.trimEndL]. rewrite H. reflexivity. Qed.

(** The lazy group stops where the text in front of the first closing fence
    stops, up to the white space at its end. *)
Lemma first_close_upToFence (t : list ascii) :
  match first_close t, upToFence t with
  | Some j, Some b => JS.trimEndL (take j t) = JS.trimEndL b
  | None, None => True
  | _, _ => False
  end.
Proof.
  induction t as [| c t IH].
  - reflexivity.
  - cbn [first_close]. destruct (closes (c :: t)) eqn:Hcl.
    + destruct (upToFence_blank _ Hcl) as (ws & -> & Hblank).
      cbn [take]. rewrite Hblank. reflexivity.
    + assert (Hpre : JS.prefixb fenceL (c :: t) = false).
      { unfold closes in Hcl. cbn [JS.trimStartL] in Hcl.
        destruct (JS.is_ws c) eqn:Hc; [apply prefixb_fence_ws, Hc | exact Hcl]. }
      cbn [upToFence]. rewrite Hpre.
      destruct (first_close t) as [j |], (upToFence t) as [b |];
        cbn [option_map take]; try exact IH.
      apply trimEndL_cons, IH.
Qed.

Lemma trimL_commute (x : list ascii) :
  JS.trimL x = JS.trimStartL (JS.trimEndL x).
Proof.
  unfold JS.trimL. induction x as [| c x IH]; [reflexivity |].
  cbn [JS.trimStartL JS.trimEndL]. destruct (JS.is_ws c) eqn:Hc.
  - rewrite IH. destruct (JS.trimEndL x) as [| y l]; [reflexivity |].
    cbn [JS.trimStartL]. rewrite Hc. reflexivity.
  - cbn [JS.trimEndL]. destruct (JS.trimEndL x) as [| y l];
      cbn [JS.trimStartL]; rewrite Hc; reflexivity.
Qed.

Lemma upToFence_trimStart (s : list ascii) :
  option_map JS.trimL (upToFence (JS.trimStartL s)) =
  option_map JS.trimL (upToFence s).
Proof.
  induction s as [| c s IH]; [reflexivity |].
  cbn [JS.trimStartL]. destruct (JS.is_ws c) eqn:Hc; [| reflexivity].
  rewrite IH. cbn [upToFence]. rewrite (prefixb_fence_ws c s Hc).
  destruct (upToFence s) as [b |]; [| reflexivity].
  cbn [option_map]. f_equal. unfold JS.trimL. cbn [JS.trimStartL].
  rewrite Hc. reflexivity.
Qed.

(** What the group captures and the text in front of the first closing
    fence are the same once trimmed. *)
Lemma captured_upToFence (s : list ascii) :
  option_map (fun cap => JS.trimL (default [] cap)) (captured s) =
  option_map JS.trimL (upToFence s).
Proof.
  rewrite <- upToFence_trimStart. unfold captured.
  pose proof (first_close_upToFence (JS.trimStartL s)) as H.
  destruct (first_close (JS.trimStartL s)) as [j |],
    (upToFence (JS.trimStartL s)) as [b |]; try contradiction; [| reflexivity].
  cbn [option_map default from_option Datatypes.id]. f_equal.
  rewrite !trimL_commute, H. reflexivity.
Qed.

(** The leftmost match of a pattern that opens with a word. *)
Lemma search_leftmost (ic : bool) (n : nat) (w : list ascii) (r : regex)
    (s : list ascii) :
  search ic n (Cat (lit w) r) s =
  leftmost (fun s' => if prefix_ic ic w s'
                      then rmatch ic n r (drop (length w) s') None final
                      else None) s.
Proof.
  induction s as [| c s IH]; cbn [search leftmost rmatch];
    rewrite rmatch_lit; fold final; [reflexivity |].
  rewrite IH. reflexivity.
Qed.

Lemma leftmost_ext {B C D} (h : B -> D) (h' : C -> D)
    (f : list ascii -> option B) (g : list ascii -> option C) :
  (forall s, option_map h (f s) = option_map h' (g s)) ->
  forall s, option_map h (leftmost f s) = option_map h' (leftmost g s).
Proof.
  intros H s. induction s as [| c s IH]; cbn [leftmost].
  - specialize (H []). destruct (f []), (g []); try discriminate H; exact H.
  - specialize (H (c :: s)).
    destruct (f (c :: s)), (g (c :: s)); try discriminate H; [exact H | exact IH].
Qed.

(** The second pattern at the front of a text. *)
Lemma code_block_at (n : nat) (s : list ascii) :
  option_map (fun cap => JS.trimL (default [] cap))
    (if prefix_ic false pythonL s
     then rmatch false n block_tail (drop (length pythonL) s) None final
     else None) =
  option_map JS.trimL (blockAt false s).
Proof.
  unfold blockAt. destruct (prefix_ic false pythonL s); [| reflexivity].
  unfold final. rewrite rmatch_block_tail. apply captured_upToFence.
Qed.

(** The first pattern at the front of a text. *)
Lemma fixed_code_at (n : nat) (s : list ascii) :
  option_map (fun cap => JS.trimL (default [] cap))
    (if prefix_ic true labelL s
     then rmatch true n
            (Cat (StarG JS.is_ws) (Cat (word fence_python) block_tail))
            (drop (length labelL) s) None final
     else None) =
  option_map JS.trimL (labelledBlockAt s).
Proof.
  unfold labelledBlockAt, blockAt. destruct (prefix_ic true labelL s); [| reflexivity].
  cbn [rmatch]. unfold word. fold pythonL. rewrite starG_max.
  - rewrite rmatch_lit.
    destruct (prefix_ic true pythonL _); [| reflexivity].
    unfold final. rewrite rmatch_block_tail. apply captured_upToFence.
  - intros c s' Hc _. rewrite rmatch_lit.
    cbn [pythonL fence_python list_ascii_of_string]. rewrite prefix_ic_ws by exact Hc.
    reflexivity.
Qed.

Lemma trim_string (l : list ascii) :
  JS.trim (string_of_list_ascii l) = string_of_list_ascii (JS.trimL l).
Proof. unfold JS.trim. rewrite list_ascii_of_string_of_list_ascii. reflexivity. Qed.

(** What [match] and [trim] give for a pattern, by what stands at each
    place of the text. *)
Lemma match1_trim (ic : bool) (w : string) (r : regex) (s : string)
    (g : list ascii -> option (list ascii)) :
  (forall n s',
      option_map (fun cap => JS.trimL (default [] cap))
        (if prefix_ic ic (chars w) s'
         then rmatch ic n r (drop (length (chars w)) s') None final
         else None) =
      option_map JS.trimL (g s')) ->
  option_map JS.trim (match1 ic (Cat (word w) r) s) =
  option_map (fun content => JS.trim (string_of_list_ascii content))
    (leftmost g (chars s)).
Proof.
  intros H. unfold match1, word. rewrite search_leftmost.
  pose proof (leftmost_ext _ _ _ _ (H (length (chars s))) (chars s)) as Heq.
  destruct (leftmost _ (chars s)) as [cap |], (leftmost g (chars s)) as [content |];
    try discriminate Heq; [| reflexivity].
  cbn [option_map] in *. injection Heq as Heq.
  rewrite !trim_string, Heq. reflexivity.
Qed.

(** No occurrence of a word: it stands at no place of the text. *)
Lemma occursWithin_none (ic : bool) (w : list ascii) :
  forall n s i,
    occursWithin ic w n s = false -> (i < n)%nat ->
    prefix_ic ic w (drop i s) = false.
Proof.
  induction n as [| n IH]; intros s i H Hi; [lia |].
  cbn [occursWithin] in H. apply orb_false_iff in H. destruct H as [Hhere Hin].
  destruct i as [| i]; [exact Hhere |].
  destruct s as [| c s].
  - cbn [drop]. exact Hhere.
  - cbn [drop]. apply IH; [exact Hin | lia].
Qed.

Lemma occurs_none (ic : bool) (w s : list ascii) (i : nat) :
  occurs ic w s = false -> prefix_ic ic w (drop i s) = false.
Proof.
  intros H. destruct (Nat.lt_ge_cases i (S (length s))) as [Hi | Hi].
  - exact (occursWithin_none ic w _ s i H Hi).
  - rewrite drop_ge by lia.
    replace [] with (drop (length s) s) by (apply drop_all).
    apply (occursWithin_none ic w _ s (length s) H). lia.
Qed.

Lemma trimStartL_drop (s : list ascii) : exists i, JS.trimStartL s = drop i s.
Proof.
  induction s as [| c s [i IH]]; [exists O; reflexivity |].
  cbn [JS.trimStartL]. destruct (JS.is_ws c); [| exists O; reflexivity].
  exists (S i). exact IH.
Qed.

Lemma chr_eq_fold (c x : ascii) : chr_eq false c x = true -> chr_eq true c x = true.
Proof.
  cbn [chr_eq]. intros H. apply Ascii.eqb_eq in H. subst. apply Ascii.eqb_refl.
Qed.

Lemma prefix_ic_fold (w s : list ascii) :
  prefix_ic true w s = false -> prefix_ic false w s = false.
Proof.
  revert s. induction w as [| c w IH]; intros s H; [discriminate H |].
  destruct s as [| x s]; [reflexivity |]. cbn [prefix_ic] in *.
  destruct (chr_eq false c x) eqn:Hc; [| reflexivity].
  rewrite (chr_eq_fold c x Hc) in H. cbn [andb] in *. apply IH, H.
Qed.

Lemma leftmost_none {B} (f : list ascii -> option B) (s : list ascii) :
  (forall i, f (drop i s) = None) -> leftmost f s = None.
Proof.
  induction s as [| c s IH]; intros H; cbn [leftmost].
  - pose proof (H O) as H0. simpl in H0. rewrite H0. reflexivity.
  - pose proof (H O) as H0. simpl in H0. rewrite H0.
    apply IH. intros i. exact (H (S i)).
Qed.

(** C2, as the code has it. For every analysis text the three tiers are
    tried in this order and the first that matches gives the result, trimmed:
    (i) at the leftmost place where a [FIXED_CODE:] label (in any case) is
        followed, after white space or none, by the text [```python] (in any
        case) with a [```] somewhere behind it: the text between that
        [```python] and the first [```] behind it;
    (ii) else at the leftmost [```python] (in lower case) with a [```]
         somewhere behind it: the text between the two;
    (iii) else what the scan of the lines yields.
    A label that no such block follows, and an opening fence that is never
    closed, are passed over. The opening is the text [```python] itself: a
    longer tag opens a block too, and the rest of the tag is part of the
    content. A text in which [```python] occurs in no case is left to the
    scan of the lines: a fenced block with another tag, or none, is not
    looked at by the first two tiers. *)
Theorem extractFixedCode_first_matching_tier :
  (forall analysis, extractFixedCode analysis = tiers analysis) /\
  (forall analysis,
      mentions true analysis fence_python = false ->
      extractFixedCode analysis = lineScan analysis).
Proof.
  assert (Hall : forall analysis, extractFixedCode analysis = tiers analysis).
  { intros analysis. unfold extractFixedCode, tiers.
    pose proof (match1_trim true label
                  (Cat (StarG JS.is_ws) (Cat (word fence_python) block_tail))
                  analysis labelledBlockAt
                  (fun n s' => fixed_code_at n s')) as H1.
    pose proof (match1_trim false fence_python block_tail analysis (blockAt false)
                  (fun n s' => code_block_at n s')) as H2.
    fold re_fixed_code in H1. fold re_code_block in H2.
    destruct (match1 true re_fixed_code analysis) as [m1 |],
      (leftmost labelledBlockAt (chars analysis)) as [content1 |];
      try discriminate H1.
    - injection H1 as ->. reflexivity.
    - destruct (match1 false re_code_block analysis) as [m2 |],
        (leftmost (blockAt false) (chars analysis)) as [content2 |];
        try discriminate H2; [| reflexivity].
      injection H2 as ->. reflexivity. }
  split; [exact Hall |].
  intros analysis Habsent. rewrite Hall. unfold tiers, mentions in *.
  fold pythonL in Habsent.
  rewrite leftmost_none, leftmost_none; [reflexivity | |].
  - intros i. unfold blockAt.
    rewrite (prefix_ic_fold _ _ (occurs_none true pythonL _ i Habsent)). reflexivity.
  - intros i. unfold labelledBlockAt, blockAt.
    destruct (prefix_ic true labelL (drop i (chars analysis))); [| reflexivity].
    destruct (trimStartL_drop (drop (length labelL) (drop i (chars analysis))))
      as [j ->].
    rewrite !drop_drop, (occurs_none true pythonL _ _ Habsent). reflexivity.
Qed.


(** A longer tag opens a block, the rest of the tag being content; a label
    that no block follows is passed over for a later one; an opening fence
    that is never closed is passed over too. *)
Example extractFixedCode_passes_over :
  extractFixedCode ("```python3" +:+ lf +:+ "x = 1" +:+ lf +:+ "```") =
    Some ("3" +:+ lf +:+ "x = 1") /\
  extractFixedCode
    ("FIXED_CODE: see below" +:+ lf +:+ "FIXED_CODE:" +:+ lf
     +:+ "```python" +:+ lf +:+ "b = 2" +:+ lf +:+ "```") = Some "b = 2" /\
  extractFixedCode
    ("FIXED_CODE:" +:+ lf +:+ "```python" +:+ lf +:+ "import os") =
    Some "import os".
Proof. repeat split; vm_compute; reflexivity. Qed.

(** C2, refuted as stated: a fenced block without the [python] tag is not
    extracted. The text holds a fenced block and no label; the result is not
    the content of the block, the lines hold no statement and nothing is
    extracted. With the tag [js] the same happens. *)
Lemma extractFixedCode_untagged_block :
  extractFixedCode ("```" +:+ lf +:+ "x = 1" +:+ lf +:+ "```") = None /\
  extractFixedCode ("```js" +:+ lf +:+ "x = 1" +:+ lf +:+ "```") = None /\
  extractFixedCode ("```python" +:+ lf +:+ "x = 1" +:+ lf +:+ "```") = Some "x = 1".
Proof. repeat split; vm_compute; reflexivity. Qed.

End ExtractFacts.

(** ** Numbers and their numerals *)

Module NumFacts.
Import Num.

(** One more digit read. *)
Definition step (acc : N) (c : ascii) : N := (10 * acc + (N_of_ascii c - 48))%N.

Definition valueL (l : list ascii) : N := fold_left step l 0%N.

Lemma is_digit_digit (d : N) : (d < 10)%N -> is_digit (digit d) = true.
Proof.
  intros H. unfold is_digit, digit. rewrite N_ascii_embedding by lia.
  apply andb_true_iff. split; apply N.leb_le; lia.
Qed.

Lemma step_digit (acc d : N) : (d < 10)%N -> step acc (digit d) = (10 * acc + d)%N.
Proof.
  intros H. unfold step, digit. rewrite N_ascii_embedding by lia. lia.
Qed.

Lemma log2_div10 (n : N) : (10 <= n)%N -> (N.log2 (n / 10) < N.log2 n)%N.
Proof.
  intros H.
  assert (Hq : (0 < n / 10)%N) by (apply N.div_str_pos; lia).
  assert (H2 : (2 * (n / 10) <= n)%N).
  { pose proof (N.Div0.mul_div_le n 10). lia. }
  apply N.log2_le_mono in H2. rewrite N.log2_double in H2 by exact Hq. lia.
Qed.

(** The digits of [n]: none but digits, at least one, and they read as [n]. *)
Lemma digits_go_spec (fuel : nat) :
  forall n acc,
    (N.to_nat (N.log2 n) < fuel)%nat ->
    exists ds,
      digits_go fuel n acc = (ds ++ acc)%list /\
      forallb is_digit ds = true /\
      ds <> [] /\
      forall a, fold_left step ds a = (a * 10 ^ N.of_nat (length ds) + n)%N.
Proof.
  induction fuel as [| fuel IH]; intros n acc Hfuel; [lia |].
  cbn [digits_go]. destruct (n <? 10)%N eqn:Hn.
  - apply N.ltb_lt in Hn. exists [digit (n mod 10)].
    rewrite N.mod_small by exact Hn.
    split; [reflexivity |]. split; [cbn; now rewrite is_digit_digit |].
    split; [discriminate |]. intros a. cbn. rewrite step_digit by exact Hn. lia.
  - apply N.ltb_ge in Hn.
    destruct (IH (n / 10)%N (digit (n mod 10) :: acc)) as (ds & Hgo & Hall & _ & Hval).
    { pose proof (log2_div10 n Hn). lia. }
    exists (ds ++ [digit (n mod 10)])%list.
    assert (Hm : (n mod 10 < 10)%N) by (apply N.mod_lt; lia).
    split; [rewrite Hgo, <- app_assoc; reflexivity |].
    split; [rewrite forallb_app, Hall; cbn; now rewrite is_digit_digit |].
    split; [destruct ds; discriminate |].
    intros a. rewrite fold_left_app, Hval. cbn [fold_left].
    rewrite step_digit by exact Hm. rewrite length_app. cbn [length].
    replace (N.of_nat (length ds + 1)) with (N.succ (N.of_nat (length ds))) by lia.
    rewrite N.pow_succ_r'. pose proof (N.div_mod n 10). lia.
Qed.

Lemma digitsL_spec (n : N) :
  forallb is_digit (digitsL n) = true /\
  digitsL n <> [] /\
  forall a, fold_left step (digitsL n) a = (a * 10 ^ N.of_nat (length (digitsL n)) + n)%N.
Proof.
  unfold digitsL.
  destruct (digits_go_spec (S (N.to_nat (N.log2 n))) n []) as (ds & Hgo & H); [lia |].
  rewrite Hgo, app_nil_r. exact H.
Qed.

(** *** Reading a numeral back *)

Lemma read_digits_all (l rest : list ascii) :
  forallb is_digit l = true ->
  match rest with
  | c :: _ => is_digit c = false
  | [] => True
  end ->
  forall acc count,
    read_digits (l ++ rest) acc count = (fold_left step l acc, (count + length l)%nat, rest).
Proof.
  intros Hl Hrest. induction l as [| c l IH]; intros acc count.
  - cbn [app fold_left length]. rewrite Nat.add_0_r.
    destruct rest as [| c rest]; [reflexivity |]. cbn [read_digits]. rewrite Hrest.
    reflexivity.
  - cbn [forallb] in Hl. apply andb_true_iff in Hl. destruct Hl as [Hc Hl].
    cbn [app read_digits fold_left length]. rewrite Hc, (IH Hl).
    rewrite Nat.add_succ_comm. reflexivity.
Qed.

Lemma fold_left_zeros (k : nat) (a : N) :
  fold_left step (repeat (digit 0) k) a = (a * 10 ^ N.of_nat k)%N.
Proof.
  revert a. induction k as [| k IH]; intros a; [cbn; lia |].
  cbn [repeat fold_left]. rewrite step_digit by lia. rewrite IH.
  replace (N.of_nat (S k)) with (N.succ (N.of_nat k)) by lia.
  rewrite N.pow_succ_r'. lia.
Qed.

(** The digits [toFixed(2)] lays out: three at least, none but digits, and
    they read as [n]. *)
Lemma padded_spec (n : N) :
  let ds := (repeat (digit 0) (3 - length (digitsL n)) ++ digitsL n)%list in
  forallb is_digit ds = true /\ (3 <= length ds)%nat /\ valueL ds = n.
Proof.
  destruct (digitsL_spec n) as (Hall & Hne & Hval).
  cbn zeta. split; [| split].
  - rewrite forallb_app, Hall, andb_true_r.
    induction (3 - length (digitsL n))%nat; [reflexivity |].
    cbn [repeat forallb]. rewrite is_digit_digit by lia. assumption.
  - rewrite length_app, repeat_length. lia.
  - unfold valueL. rewrite fold_left_app, fold_left_zeros, Hval. lia.
Qed.

Lemma digit_first (d : ascii) (r : list ascii) {A} (a b c : list ascii -> A) :
  is_digit d = true ->
  match d :: r with
  | "-"%char :: s' => a s'
  | "+"%char :: s' => b s'
  | s' => c s'
  end = c (d :: r).
Proof.
  destruct d as [[] [] [] [] [] [] [] []]; intros H; try discriminate H; reflexivity.
Qed.

Lemma digit_not_ws (d : ascii) : is_digit d = true -> JS.is_ws d = false.
Proof.
  destruct d as [[] [] [] [] [] [] [] []]; intros H; try discriminate H; reflexivity.
Qed.

Lemma digit_not_Infinity (d : ascii) (r : list ascii) :
  is_digit d = true -> JS.prefixb (list_ascii_of_string "Infinity") (d :: r) = false.
Proof.
  destruct d as [[] [] [] [] [] [] [] []]; intros H; try discriminate H; reflexivity.
Qed.

Lemma point_not_digit : is_digit "."%char = false.
Proof. reflexivity. Qed.

(** [parseFloat] reads the numeral of [toFixed(2)] back as it was written. *)
Lemma parseFloat_fixed2 (n : N) : parseFloat (fixed 2 n) = Dec false n 2.
Proof.
  unfold parseFloat, fixed. rewrite list_ascii_of_string_of_list_ascii.
  unfold fixedL.
  destruct (padded_spec n) as (Hall & Hlen & Hval). cbn zeta in *.
  remember (repeat (digit 0) (3 - length (digitsL n)) ++ digitsL n)%list as ds eqn:Hds.
  clear Hds. remember (length ds - 2)%nat as k eqn:Hkdef.
  assert (Hsplit : ds = (take k ds ++ drop k ds)%list) by (symmetry; apply take_drop).
  assert (Htake : forallb is_digit (take k ds) = true).
  { rewrite Hsplit, forallb_app in Hall. apply andb_true_iff in Hall. tauto. }
  assert (Hdrop : forallb is_digit (drop k ds) = true).
  { rewrite Hsplit, forallb_app in Hall. apply andb_true_iff in Hall. tauto. }
  assert (Hk : length (take k ds) = k) by (rewrite length_take; lia).
  assert (Hd : length (drop k ds) = 2%nat) by (rewrite length_drop; lia).
  destruct (take k ds) as [| d r] eqn:Ht; [cbn [length] in Hk; lia |].
  cbn [forallb] in Htake. apply andb_true_iff in Htake. destruct Htake as [Hd0 Hr].
  cbn [app JS.trimStartL]. rewrite (digit_not_ws d Hd0).
  rewrite digit_first by exact Hd0.
  unfold read_unsigned. rewrite digit_not_Infinity by exact Hd0.
  change (d :: (r ++ "."%char :: drop k ds))%list
    with ((d :: r) ++ "."%char :: drop k ds)%list.
  rewrite (read_digits_all (d :: r) ("."%char :: drop k ds));
    [| cbn [forallb]; rewrite Hd0; exact Hr | exact point_not_digit].
  pose proof (read_digits_all (drop k ds) [] Hdrop I) as Hrd.
  rewrite app_nil_r in Hrd. rewrite Hrd.
  rewrite <- fold_left_app, <- Hsplit.
  fold (valueL ds). rewrite Hval, Hd.
  cbn [Nat.add]. destruct (length (d :: r) + 2 =? 0)%nat eqn:H0; [| reflexivity].
  apply Nat.eqb_eq in H0. cbn in H0. lia.
Qed.

End NumFacts.

(** ** Binary64 values of quotients of counts *)

Module FloatFacts.

(** A value that is a number and not below zero. *)
Definition positiveClass (x : spec_float) : Prop :=
  x = S754_zero false \/
  (exists m e, x = S754_finite false m e) \/
  x = S754_infinity false.

Lemma iter_pos_invariant {A} (f : A -> A) (P : A -> Prop) :
  (forall x, P x -> P (f x)) ->
  forall p x, P x -> P (SpecFloat.iter_pos f p x).
Proof.
  intros Hf. induction p as [p IH | p IH |]; intros x Hx; cbn [SpecFloat.iter_pos]; auto.
Qed.

Lemma shr_1_nonneg (mrs : shr_record) :
  (0 <= shr_m mrs)%Z -> (0 <= shr_m (shr_1 mrs))%Z.
Proof.
  destruct mrs as [m r s]. cbn [shr_m]. intros H.
  destruct m as [| [p | p |] | p]; cbn; lia.
Qed.

Lemma shr_fexp_nonneg (m e : Z) (l : location) :
  (0 <= m)%Z -> (0 <= shr_m (fst (shr_fexp prec emax m e l)))%Z.
Proof.
  intros H. unfold shr_fexp, shr.
  assert (H0 : (0 <= shr_m (shr_record_of_loc m l))%Z).
  { destruct l as [| []]; exact H. }
  destruct (fexp prec emax (Zdigits2 m + e) - e)%Z; cbn [fst]; try exact H0.
  apply (iter_pos_invariant shr_1 (fun mrs => (0 <= shr_m mrs)%Z)); auto using shr_1_nonneg.
Qed.

Lemma round_nearest_even_nonneg (m : Z) (l : location) :
  (0 <= m)%Z -> (0 <= round_nearest_even m l)%Z.
Proof.
  intros H. unfold round_nearest_even. destruct l as [| []]; try lia.
  destruct (Z.even m); lia.
Qed.

(** Rounding a mantissa that is not negative never yields [NaN]. *)
Lemma binary_round_aux_class (mx ex : Z) (lx : location) :
  (0 <= mx)%Z -> positiveClass (binary_round_aux prec emax false mx ex lx).
Proof.
  intros H. unfold binary_round_aux.
  pose proof (shr_fexp_nonneg mx ex lx H) as H1.
  destruct (shr_fexp prec emax mx ex lx) as [mrs' e']. cbn [fst] in H1.
  pose proof (shr_fexp_nonneg _ e' loc_Exact
                (round_nearest_even_nonneg _ (loc_of_shr_record mrs') H1)) as H2.
  destruct (shr_fexp prec emax _ e' loc_Exact) as [mrs'' e'']. cbn [fst] in H2.
  unfold positiveClass.
  destruct (shr_m mrs'') as [| m | m]; [auto | | lia].
  destruct (e'' <=? emax - prec)%Z; eauto.
Qed.

Lemma digits2_pos_size (p : positive) : digits2_pos p = Pos.size p.
Proof. induction p as [p IH | p IH |]; cbn; congruence. Qed.

Lemma digits2_pos_iter (p k : positive) :
  digits2_pos (Pos.iter xO p k) = (digits2_pos p + k)%positive.
Proof.
  induction k as [| k IH] using Pos.peano_ind.
  - cbn. lia.
  - rewrite Pos.iter_succ. cbn [digits2_pos]. rewrite IH. lia.
Qed.

Lemma digits2_pos_bound (p : positive) :
  (Zpos p < 2 ^ 53)%Z -> (Zpos (digits2_pos p) <= 53)%Z.
Proof.
  intros H. rewrite digits2_pos_size.
  pose proof (Pos.size_le p) as Hle.
  assert (H2 : (2 ^ Zpos (Pos.size p) <= 2 * Zpos p)%Z).
  { rewrite <- Pos2Z.inj_pow. change (2 * Zpos p)%Z with (Zpos p~0). lia. }
  destruct (Z_le_gt_dec (Zpos (Pos.size p)) 53) as [| Hgt]; [assumption |].
  assert (H3 : (2 ^ 54 <= 2 ^ Zpos (Pos.size p))%Z) by (apply Z.pow_le_mono_r; lia).
  change (2 ^ 54)%Z with (2 * 2 ^ 53)%Z in H3. lia.
Qed.

Lemma fexp_small (d : Z) : (-52 <= d - 53)%Z -> fexp prec emax d = (d - 53)%Z.
Proof. intros H. unfold fexp, emin, prec, emax. lia. Qed.

(** A positive integer below [2^53] is a binary64 value as it stands. *)
Lemma binary_round_small (p : positive) :
  (Zpos p < 2 ^ 53)%Z ->
  exists m e, binary_round prec emax false p 0 = S754_finite false m e.
Proof.
  intros Hp. pose proof (digits2_pos_bound p Hp) as Hd.
  unfold binary_round.
  assert (Halign : exists mz ez,
            shl_align p 0 (fexp prec emax (Zpos (digits2_pos p) + 0)) = (mz, ez) /\
            fexp prec emax (Zpos (digits2_pos mz) + ez) = ez /\ (ez <= 0)%Z).
  { rewrite Z.add_0_r, fexp_small by lia. unfold shl_align.
    destruct (Zpos (digits2_pos p) - 53 - 0)%Z as [| k | k] eqn:Hk; [| lia |].
    - exists p, 0%Z. split; [reflexivity |]. rewrite Z.add_0_r, fexp_small by lia. lia.
    - exists (Pos.iter xO p k), (Zpos (digits2_pos p) - 53)%Z. split; [reflexivity |].
      rewrite digits2_pos_iter. rewrite fexp_small by lia. lia. }
  destruct Halign as (mz & ez & -> & Hcanon & Hez).
  unfold binary_round_aux.
  assert (Hshr : shr_fexp prec emax (Zpos mz) ez loc_Exact =
                 (Build_shr_record (Zpos mz) false false, ez)).
  { unfold shr_fexp, shr. cbn [Zdigits2]. rewrite Hcanon, Z.sub_diag. reflexivity. }
  rewrite Hshr. cbn [shr_m loc_of_shr_record round_nearest_even]. rewrite Hshr.
  cbn [shr_m]. replace (ez <=? emax - prec)%Z with true; [eauto |].
  symmetry. apply Z.leb_le. unfold emax, prec. lia.
Qed.

(** The number of a count below [2^53]. *)
Lemma of_nat_class (n : nat) :
  (Z.of_nat n < 2 ^ 53)%Z ->
  Prim2SF (Num.of_nat n) = S754_zero false \/
  exists m e, Prim2SF (Num.of_nat n) = S754_finite false m e.
Proof.
  intros H. unfold Num.of_nat. rewrite of_uint63_spec, Uint63.of_Z_spec.
  rewrite Z.mod_small by (change wB with (2 ^ 63)%Z; lia).
  unfold binary_normalize. destruct (Z.of_nat n) as [| p | p] eqn:Hn; [auto | | lia].
  right. apply binary_round_small. lia.
Qed.

Lemma of_nat_positive (n : nat) :
  (0 < Z.of_nat n < 2 ^ 53)%Z ->
  exists m e, Prim2SF (Num.of_nat n) = S754_finite false m e.
Proof.
  intros H. unfold Num.of_nat. rewrite of_uint63_spec, Uint63.of_Z_spec.
  rewrite Z.mod_small by (change wB with (2 ^ 63)%Z; lia).
  unfold binary_normalize. destruct (Z.of_nat n) as [| p | p] eqn:Hn; [lia | | lia].
  apply binary_round_small. lia.
Qed.

Lemma SFdiv_class (x : spec_float) (my : positive) (ey : Z) :
  x = S754_zero false \/ (exists m e, x = S754_finite false m e) ->
  positiveClass (SF64div x (S754_finite false my ey)).
Proof.
  intros [-> | (mx & ex & ->)]; unfold SF64div, SFdiv.
  - left. reflexivity.
  - destruct (SFdiv_core_binary prec emax (Zpos mx) ex (Zpos my) ey) as [[mz ez] lz] eqn:Hdiv.
    cbn [xorb]. apply binary_round_aux_class.
    unfold SFdiv_core_binary in Hdiv.
    match type of Hdiv with
    | (let '(q, r) := Z.div_eucl ?a ?b in _) = _ =>
        assert (Ha : (0 <= a)%Z);
        [| pose proof (Z_div_mod a b ltac:(lia)) as Hq;
           destruct (Z.div_eucl a b) as [q r]; injection Hdiv as <- _ _; nia ]
    end.
    match goal with
    | |- (0 <= match ?s with _ => _ end)%Z =>
        destruct s; [lia | apply Z.shiftl_nonneg; lia | lia]
    end.
Qed.

Lemma SFmul_class (x : spec_float) (my : positive) (ey : Z) :
  positiveClass x -> positiveClass (SF64mul x (S754_finite false my ey)).
Proof.
  intros [-> | [(mx & ex & ->) | ->]]; unfold SF64mul, SFmul; cbn [xorb].
  - left. reflexivity.
  - apply binary_round_aux_class. lia.
  - right. right. reflexivity.
Qed.

(** The quotient of two counts times one hundred is a number, and it is not
    below zero. *)
Lemma percentage_class (successful total : nat) :
  (0 < Z.of_nat total < 2 ^ 53)%Z ->
  (successful <= total)%nat ->
  positiveClass (Prim2SF (Num.of_nat successful / Num.of_nat total * 100)%float).
Proof.
  intros Ht Hs.
  rewrite FloatAxioms.mul_spec, FloatAxioms.div_spec.
  destruct (of_nat_positive total Ht) as (my & ey & ->).
  change (Prim2SF 100%float) with (S754_finite false 7036874417766400 (-46)).
  apply SFmul_class, SFdiv_class, of_nat_class. lia.
Qed.

End FloatFacts.

(** ** Success rates as numbers *)

Module RateFacts.
Import Num.

Lemma removeFirst_absent (c : ascii) (l : list ascii) :
  forallb (fun x => negb (Ascii.eqb x c)) l = true ->
  removeFirst c (string_of_list_ascii l +:+ String c "") = string_of_list_ascii l.
Proof.
  induction l as [| x l IH]; intros H.
  - change (removeFirst c (String c "") = ""). cbn [removeFirst].
    rewrite Ascii.eqb_refl. reflexivity.
  - cbn [forallb] in H. apply andb_true_iff in H. destruct H as [Hx H].
    cbn [string_of_list_ascii]. change (String x ?s +:+ ?t) with (String x (s +:+ t)).
    cbn [removeFirst]. apply negb_true_iff in Hx. rewrite Hx, (IH H). reflexivity.
Qed.

Lemma digit_not_percent (l : list ascii) :
  forallb is_digit l = true ->
  forallb (fun x => negb (Ascii.eqb x "%"%char)) l = true.
Proof.
  induction l as [| c l IH]; [reflexivity |]. cbn [forallb].
  intros H. apply andb_true_iff in H. destruct H as [Hc H]. rewrite (IH H), andb_true_r.
  destruct c as [[] [] [] [] [] [] [] []]; try discriminate Hc; reflexivity.
Qed.

Lemma fixed2_no_percent (n : N) :
  forallb (fun x => negb (Ascii.eqb x "%"%char)) (fixedL 2 n) = true.
Proof.
  unfold fixedL. destruct (NumFacts.padded_spec n) as (Hall & _ & _). cbn zeta in Hall.
  apply digit_not_percent in Hall.
  remember (repeat (digit 0) (3 - length (digitsL n)) ++ digitsL n)%list as ds.
  rewrite <- (take_drop (length ds - 2) ds) in Hall.
  rewrite forallb_app in Hall. apply andb_true_iff in Hall. destruct Hall as [H1 H2].
  rewrite forallb_app. cbn [forallb]. rewrite H1, H2. reflexivity.
Qed.

(** A number that [parseFloat] read and that is not [NaN]. *)
Definition numeric (x : number) : Prop := x <> NaN.

(** The rate of a summary is read back as a number. *)
Lemma successRate_numeric (successful total : nat) :
  (Z.of_nat total < 2 ^ 53)%Z ->
  (successful <= total)%nat ->
  numeric (parseFloat (removeFirst "%"%char (successRate successful total))).
Proof.
  intros Ht Hs. unfold successRate, numeric.
  destruct (0 <? total)%nat eqn:Hpos; [| vm_compute; discriminate].
  apply Nat.ltb_lt in Hpos.
  pose proof (FloatFacts.percentage_class successful total ltac:(lia) Hs) as Hc.
  unfold toFixed.
  destruct Hc as [-> | [(m & e & ->) | ->]].
  - vm_compute. discriminate.
  - unfold fixed at 1. rewrite removeFirst_absent by apply fixed2_no_percent.
    fold (fixed 2 (Z.to_N (scaled 2 (Z.pos m) e))).
    rewrite NumFacts.parseFloat_fixed2. discriminate.
  - vm_compute. discriminate.
Qed.

(** *** The order of the comparator *)

Lemma pow10_pos (k : nat) : (0 < 10 ^ Z.of_nat k)%Z.
Proof. apply Z.pow_pos_nonneg; lia. Qed.

Lemma sub_sign_opp (x y : number) :
  numeric x -> numeric y -> sub_sign y x = (- sub_sign x y)%Z.
Proof.
  unfold numeric. intros Hx Hy.
  destruct x as [| a | n1 m1 s1], y as [| b | n2 m2 s2]; try contradiction;
    cbn [sub_sign].
  - destruct a, b; reflexivity.
  - destruct a; reflexivity.
  - destruct b; reflexivity.
  - rewrite <- Z.sgn_opp. f_equal. lia.
Qed.

Lemma sub_sign_trans (x y z : number) :
  numeric x -> numeric y -> numeric z ->
  (sub_sign x y <= 0)%Z -> (sub_sign y z <= 0)%Z -> (sub_sign x z <= 0)%Z.
Proof.
  unfold numeric. intros Hx Hy Hz.
  destruct x as [| a | n1 m1 s1], y as [| b | n2 m2 s2], z as [| c | n3 m3 s3];
    try contradiction; cbn [sub_sign];
    try (destruct a); try (destruct b); try (destruct c); cbn; try lia.
  rewrite !Z.sgn_nonpos.
  pose proof (pow10_pos s1). pose proof (pow10_pos s2). pose proof (pow10_pos s3).
  intros H12 H23.
  generalize dependent (signed n1 m1). generalize dependent (signed n2 m2).
  generalize dependent (signed n3 m3).
  generalize dependent (10 ^ Z.of_nat s1)%Z.
  generalize dependent (10 ^ Z.of_nat s2)%Z.
  generalize dependent (10 ^ Z.of_nat s3)%Z.
  intros p3 H3 p2 H2 p1 H1 c b H23 a H12.
  assert (Ha : (a * p2 * p3 <= b * p1 * p3)%Z)
    by (apply Z.mul_le_mono_nonneg_r; lia).
  assert (Hb : (b * p3 * p1 <= c * p2 * p1)%Z)
    by (apply Z.mul_le_mono_nonneg_r; lia).
  assert (H : ((a * p3) * p2 <= (c * p1) * p2)%Z) by lia.
  apply Z.mul_le_mono_pos_r in H; lia.
Qed.

End RateFacts.

(** ** Sorting *)

Section SortFacts.
Context {A : Type}.
Variable comparefn : A -> A -> Z.
Variable carrier : A -> Prop.
Hypothesis comparefn_opp :
  forall x y, carrier x -> carrier y -> comparefn y x = (- comparefn x y)%Z.
Hypothesis comparefn_trans :
  forall x y z, carrier x -> carrier y -> carrier z ->
    (comparefn x y <= 0)%Z -> (comparefn y z <= 0)%Z -> (comparefn x z <= 0)%Z.

(** [x] may stand before [y]. *)
Definition before (x y : A) : Prop := (comparefn x y <= 0)%Z.

(** [x] and [y] compare as equal. *)
Definition tie (x y : A) : bool := (comparefn x y =? 0)%Z.

Lemma insert_In (x y : A) (l : list A) :
  In y (insert comparefn x l) <-> y = x \/ In y l.
Proof.
  induction l as [| z l IH]; cbn [insert]; [cbn; intuition |].
  destruct (0 <? comparefn x z)%Z; cbn [In]; [rewrite IH |]; intuition.
Qed.

Lemma sort_In (y : A) (l : list A) : In y (sort comparefn l) <-> In y l.
Proof.
  induction l as [| x l IH]; [reflexivity |].
  unfold sort in *. cbn [fold_right In]. rewrite insert_In, IH. intuition.
Qed.

Lemma insert_sorted (x : A) (l : list A) :
  carrier x -> Forall carrier l ->
  StronglySorted before l -> StronglySorted before (insert comparefn x l).
Proof.
  intros Hx Hl Hs. induction Hs as [| y l Hs IH Hy]; cbn [insert].
  - constructor; [constructor | constructor].
  - inversion Hl as [| ? ? Hcy Hcl]; subst.
    destruct (0 <? comparefn x y)%Z eqn:Hc.
    + apply Z.ltb_lt in Hc. constructor; [apply IH, Hcl |].
      apply List.Forall_forall. intros z Hz. apply insert_In in Hz. destruct Hz as [-> | Hz].
      * unfold before. rewrite (comparefn_opp x y) by assumption. lia.
      * rewrite List.Forall_forall in Hy. apply Hy, Hz.
    + apply Z.ltb_ge in Hc. constructor; [constructor; assumption |].
      constructor; [exact Hc |].
      apply List.Forall_forall. intros z Hz.
      rewrite List.Forall_forall in Hy, Hcl.
      apply (comparefn_trans x y z); auto. apply Hy, Hz.
Qed.

Lemma sort_sorted (l : list A) :
  Forall carrier l -> StronglySorted before (sort comparefn l).
Proof.
  induction l as [| x l IH]; intros Hl; [constructor |].
  inversion Hl as [| ? ? Hx Hl']; subst.
  unfold sort in *. cbn [fold_right]. apply insert_sorted; auto.
  apply List.Forall_forall. intros y Hy. apply (sort_In y l) in Hy.
  rewrite List.Forall_forall in Hl'. apply Hl', Hy.
Qed.

(** The elements that tie with [v] keep the order they had: the sort is
    stable. *)
Lemma insert_stable (v x : A) (l : list A) :
  carrier v -> carrier x -> Forall carrier l ->
  List.filter (tie v) (insert comparefn x l) =
  List.filter (tie v) (x :: l).
Proof.
  intros Hv Hx Hl. induction l as [| y l IH]; [reflexivity |].
  inversion Hl as [| ? ? Hy Hl']; subst.
  cbn [insert]. destruct (0 <? comparefn x y)%Z eqn:Hc; [| reflexivity].
  apply Z.ltb_lt in Hc.
  cbn [List.filter] in *. rewrite (IH Hl').
  destruct (tie v x) eqn:Hvx; [| reflexivity].
  destruct (tie v y) eqn:Hvy; [| reflexivity].
  exfalso. unfold tie in *. apply Z.eqb_eq in Hvx, Hvy.
  assert (H1 : (comparefn x v <= 0)%Z) by (rewrite (comparefn_opp v x) by assumption; lia).
  assert (H2 : (comparefn v y <= 0)%Z) by lia.
  pose proof (comparefn_trans x v y Hx Hv Hy H1 H2). lia.
Qed.

Lemma sort_stable (v : A) (l : list A) :
  carrier v -> Forall carrier l ->
  List.filter (tie v) (sort comparefn l) = List.filter (tie v) l.
Proof.
  intros Hv. induction l as [| x l IH]; intros Hl; [reflexivity |].
  inversion Hl as [| ? ? Hx Hl']; subst.
  unfold sort in *. cbn [fold_right]. rewrite insert_stable; auto.
  - cbn [List.filter]. rewrite (IH Hl'). reflexivity.
  - apply List.Forall_forall. intros y Hy. apply (sort_In y l) in Hy.
    rewrite List.Forall_forall in Hl'. apply Hl', Hy.
Qed.

Lemma insert_length (x : A) (l : list A) :
  length (insert comparefn x l) = S (length l).
Proof.
  induction l as [| y l IH]; [reflexivity |].
  cbn [insert]. destruct (0 <? comparefn x y)%Z; cbn [length]; congruence.
Qed.

End SortFacts.

(** ** The program in its world *)

Section Properties.
Context {Ext : Type}.
Variable exchange : Request -> Ext -> Response * Ext.
Variable child_process : string -> gmap string string -> Ext -> ExecResult * gmap string string * Ext.
Variable clock : Ext -> Z * Ext.

Abbreviation World := (@World Ext).

  (** ** The connection probe *)

  (** C9. For every agent, of any of the four kinds, [testConnection] returns
      a boolean and never throws; when the [generate] call behind it fails,
      the boolean is [false] and the cause has been printed by
      [console.error]. *)
Theorem testConnection_never_throws (a : Agent) (w : World) :
    exists (b : bool) (w' : World),
      testConnection exchange a w = (Ret b, w') /\
      forall message w1,
        generate exchange a "Hello" (probeOptions (ag_kind a)) w = (Throw message, w1) ->
        b = false /\
        stderr_lines w' =
          (stderr_lines w
             ++ [(providerName (ag_kind a) +:+ " connection test failed:")
                 +:+ " " +:+ message])%list /\
        ext w' = ext w1.
  Proof.
    unfold testConnection, Eff.try_catch, Eff.bind.
    destruct (generate exchange a "Hello" (probeOptions (ag_kind a)) w)
      as [[response | message] w1] eqn:Hgen.
    - exists (0 <? String.length response)%nat, w1. split; [reflexivity |].
      intros m w2 H. discriminate H.
    - eexists _, _. split; [reflexivity |].
      intros m w2 H. injection H as <- <-.
      unfold generate in Hgen.
      destruct (exchange _ (ext w)) as [r e]. injection Hgen as _ <-.
      cbn. auto.
  Qed.

  (** ** The agent factory *)

  (** The options a call of the factory works on: the caller's object, or the
      empty object of the default parameter. *)
Definition optionsOf (options : option nat) (w : World) : Options :=
    match options with
    | Some l => default emptyOptions (heap w !! l)
    | None => emptyOptions
    end.

  (** The model the factory resolves: the one given, or the default of the
      provider. *)
Definition resolvedModel (provider : string) (o : Options) : option string :=
    if JS.truthy (opt_model o) then opt_model o
    else lookup_obj getDefaultModels (JS.toLowerCase provider).

  (** The kind of agent a provider tag stands for. *)
Definition kindOf (provider : string) : option Provider :=
    lookup_obj
      [("ollama", Ollama); ("openai", OpenAI); ("gemini", Gemini); ("claude", Claude)]
      (JS.toLowerCase provider).

Lemma known_provider (provider : string) (vars : list string) :
    lookup_obj getRequiredEnvVars (JS.toLowerCase provider) = Some vars ->
    (JS.toLowerCase provider = "ollama" /\ vars = []) \/
    (JS.toLowerCase provider = "openai" /\ vars = ["OPENAI_API_KEY"]) \/
    (JS.toLowerCase provider = "gemini" /\ vars = ["GEMINI_API_KEY"]) \/
    (JS.toLowerCase provider = "claude" /\ vars = ["ANTHROPIC_API_KEY"]).
  Proof.
    unfold getRequiredEnvVars, lookup_obj.
    repeat match goal with
           | |- context [String.eqb ?a ?b] =>
               destruct (String.eqb_spec a b) as [<- | ?]
           end; intros H; inversion H; subst; auto 10.
  Qed.

(** The environment holds what the provider requires: [validateEnvironment]
      returns a check whose [valid] is [true]. *)
Definition validEnvironment (e : gmap string string) (provider : string) : bool :=
    match validateEnvironment e provider with
    | Ret check => valid check
    | Throw _ => false
    end.

  (** The allow-list of a provider: the models [getAvailableModels] lists
      under its tag. *)
Definition allowedModels (provider : string) : list string :=
    default [] (lookup_obj getAvailableModels (JS.toLowerCase provider)).

Lemma readProperty_own {A} (o : list (string * A)) (k : string) (v : A) :
    lookup_obj o k = Some v -> readProperty o k = Own v.
  Proof. unfold readProperty. now intros ->. Qed.

Lemma valid_environment_known (e : gmap string string) (provider : string) :
    validEnvironment e provider = true ->
    exists vars,
      lookup_obj getRequiredEnvVars (JS.toLowerCase provider) = Some vars /\
      forall var, In var vars -> JS.truthy (e !! var) = true.
  Proof.
    unfold validEnvironment, validateEnvironment, readProperty.
    destruct (lookup_obj getRequiredEnvVars (JS.toLowerCase provider)) as [vars |].
    2:{ destruct (existsb _ _); discriminate. }
    cbn. intros H. exists vars. split; [reflexivity |].
    apply Nat.eqb_eq, length_zero_iff_nil in H.
    intros var Hin. destruct (JS.truthy (e !! var)) eqn:Ht; [reflexivity |].
    assert (Hf : In var (List.filter (fun v => negb (JS.truthy (e !! v))) vars)).
    { apply filter_In. split; [exact Hin | now rewrite Ht]. }
    rewrite H in Hf. destruct Hf.
  Qed.

Lemma valid_environment_check (e : gmap string string) (provider : string) :
    validEnvironment e provider = true ->
    exists check, validateEnvironment e provider = Ret check /\ valid check = true.
  Proof.
    unfold validEnvironment.
    destruct (validateEnvironment e provider) as [check | m]; [eauto | discriminate].
  Qed.

Lemma includesModel_In (models : list string) (m : string) :
    includesModel models (Some m) = true <-> In m models.
  Proof.
    cbn [includesModel]. rewrite existsb_exists. split.
    - intros (x & Hin & Heq). apply String.eqb_eq in Heq. now subst.
    - intros Hin. exists m. split; [exact Hin | apply String.eqb_refl].
  Qed.

  (** For a provider of the table, [isValidProviderModel] answers whether the
      model is on the allow-list. *)
Lemma isValidProviderModel_known (provider : string) (vars : list string)
      (model : option string) :
    lookup_obj getRequiredEnvVars (JS.toLowerCase provider) = Some vars ->
    isValidProviderModel provider model =
    Ret (includesModel (allowedModels provider) model).
  Proof.
    intros Hvars. unfold isValidProviderModel, allowedModels.
    destruct (known_provider _ _ Hvars) as [[Hp _] | [[Hp _] | [[Hp _] | [Hp _]]]];
      rewrite Hp; reflexivity.
  Qed.
  (** Computations that leave the world outside the program alone. *)
Definition ext_frame {A} (c : M (Ext:=Ext) A) : Prop :=
    forall w, ext (snd (c w)) = ext w.

Lemma ext_frame_ret {A} (a : A) : ext_frame (Eff.ret a).
  Proof. intros w. reflexivity. Qed.

Lemma ext_frame_throw {A} (m : string) : ext_frame (Eff.throw (A:=A) m).
  Proof. intros w. reflexivity. Qed.

Lemma ext_frame_get : ext_frame Eff.get.
  Proof. intros w. reflexivity. Qed.

Lemma ext_frame_bind {A B} (c : M A) (f : A -> M B) :
    ext_frame c -> (forall a, ext_frame (f a)) -> ext_frame (Eff.bind c f).
  Proof.
    intros Hc Hf w. unfold Eff.bind. specialize (Hc w).
    destruct (c w) as [[a | m] w1]; cbn in *; [| exact Hc].
    rewrite Hf. exact Hc.
  Qed.

Lemma ext_frame_optionsArg (options : option nat) : ext_frame (optionsArg options).
  Proof. intros w. destruct options; reflexivity. Qed.

Lemma ext_frame_readOptions (l : nat) : ext_frame (readOptions l).
  Proof. intros w. reflexivity. Qed.

Lemma ext_frame_writeModel (l : nat) (m : option string) : ext_frame (writeModel l m).
  Proof. intros w. reflexivity. Qed.

Lemma ext_frame_cloudAgent k v d b r l : ext_frame (cloudAgent k v d b r l).
  Proof.
    unfold cloudAgent.
    apply ext_frame_bind; [apply ext_frame_readOptions | intros o].
    apply ext_frame_bind; [apply ext_frame_get | intros w0].
    destruct (JS.truthy _); [apply ext_frame_ret | apply ext_frame_throw].
  Qed.

Lemma ext_frame_createAgent provider options : ext_frame (createAgent provider options).
  Proof.
    unfold createAgent.
    apply ext_frame_bind; [apply ext_frame_optionsArg | intros l].
    repeat match goal with
           | |- ext_frame (if ?b then _ else _) => destruct b
           end;
      try apply ext_frame_cloudAgent; try apply ext_frame_throw.
    unfold OllamaAgent.
    apply ext_frame_bind; [apply ext_frame_readOptions | intros o].
    apply ext_frame_ret.
  Qed.

Lemma ext_frame_settled {A} (o : outcome A) : ext_frame (Eff.settled o).
  Proof. intros w. reflexivity. Qed.

Lemma ext_frame_createValidatedAgent provider options :
    ext_frame (createValidatedAgent provider options).
  Proof.
    unfold createValidatedAgent.
    apply ext_frame_bind; [apply ext_frame_optionsArg | intros l].
    apply ext_frame_bind; [apply ext_frame_get | intros w0].
    apply ext_frame_bind; [apply ext_frame_settled | intros envCheck].
    destruct (negb _); [apply ext_frame_throw |].
    apply ext_frame_bind; [apply ext_frame_readOptions | intros o].
    apply ext_frame_bind.
    { destruct (negb _); [apply ext_frame_writeModel | apply ext_frame_ret]. }
    intros _.
    apply ext_frame_bind; [apply ext_frame_readOptions | intros o'].
    apply ext_frame_bind; [apply ext_frame_settled | intros validModel].
    destruct (negb _); [apply ext_frame_throw | apply ext_frame_createAgent].
  Qed.

Ltac eff_step :=
    cbn [Eff.bind Eff.ret Eff.throw Eff.get Eff.modify Eff.try_catch Eff.settled
         optionsArg readOptions writeModel fst snd
         env heap files stderr_lines ext set_heap set_files set_stderr set_ext].

Lemma truthy_or_else_r (a b : option string) :
    JS.truthy b = true -> JS.truthy (JS.or_else a b) = true.
  Proof. unfold JS.or_else. destruct (JS.truthy a) eqn:Ha; auto. Qed.

Lemma str_or_truthy (m d : string) :
    JS.truthy (Some m) = true -> JS.str_or (Some m) d = m.
  Proof. cbn. destruct (String.eqb m ""); [discriminate | reflexivity]. Qed.

  (** With the credentials of the provider in the environment, [createAgent]
      builds the agent from the options object and leaves the state alone. *)
Lemma createAgent_valid (provider : string) (l : nat) (w : World) (m : string) :
    validEnvironment (env w) provider = true ->
    opt_model (default emptyOptions (heap w !! l)) = Some m ->
    JS.truthy (Some m) = true ->
    exists a,
      createAgent provider (Some l) w = (Ret a, w) /\
      ag_model a = m /\ Some (ag_kind a) = kindOf provider.
  Proof.
    intros Hvalid Hm Hmt.
    destruct (valid_environment_known _ _ Hvalid) as (vars & Hvars & Hall).
    unfold createAgent, kindOf.
    destruct (known_provider _ _ Hvars) as [[Hp ->] | [[Hp ->] | [[Hp ->] | [Hp ->]]]];
      rewrite Hp; cbn [String.eqb Ascii.eqb Bool.eqb lookup_obj];
      unfold OllamaAgent, OpenAIAgent, GeminiAgent, ClaudeAgent, cloudAgent;
      eff_step; rewrite Hm, (str_or_truthy _ _ Hmt);
      try (rewrite truthy_or_else_r by (apply Hall; cbn; auto));
      eexists; repeat split; reflexivity.
  Qed.

Lemma createValidatedAgent_fresh (provider : string) (w : World) :
    createValidatedAgent provider None w =
    createValidatedAgent provider (Some (fresh (dom (heap w))))
      (set_heap (<[fresh (dom (heap w)) := emptyOptions]> (heap w)) w).
  Proof. reflexivity. Qed.

Lemma resolvedModel_truthy (provider : string) (o : Options) (vars : list string) :
    lookup_obj getRequiredEnvVars (JS.toLowerCase provider) = Some vars ->
    exists m, resolvedModel provider o = Some m /\ JS.truthy (Some m) = true.
  Proof.
    intros Hvars. unfold resolvedModel.
    destruct (JS.truthy (opt_model o)) eqn:Ht.
    - destruct (opt_model o) as [m |]; [eauto | discriminate].
    - destruct (known_provider _ _ Hvars) as [[Hp _] | [[Hp _] | [[Hp _] | [Hp _]]]];
        rewrite Hp; cbn; eauto.
  Qed.

  (** The error for a model that is not on the list of the provider. *)
Definition invalidModel (provider m : string) : string :=
    "Invalid model " +:+ m +:+ " for provider " +:+ provider
    +:+ ". Available models: " +:+ JS.join ", " (allowedModels provider).

  (** The factory on an options object of the caller, once the environment is
      valid: the model is resolved and written into the object, checked
      against the list of the provider, and the agent is built from the
      object. *)
Lemma createValidatedAgent_valid (provider : string) (l : nat) (w : World) :
    let o := default emptyOptions (heap w !! l) in
    let w' := if JS.truthy (opt_model o) then w
              else set_heap (<[l := set_model (resolvedModel provider o) o]> (heap w)) w in
    validEnvironment (env w) provider = true ->
    exists m,
      resolvedModel provider o = Some m /\
      if includesModel (allowedModels provider) (Some m)
      then exists a, createValidatedAgent provider (Some l) w = (Ret a, w')
                     /\ ag_model a = m
                     /\ Some (ag_kind a) = kindOf provider
      else createValidatedAgent provider (Some l) w =
           (Throw (invalidModel provider m), w').
  Proof.
    intros o w' Hvalid.
    destruct (valid_environment_known _ _ Hvalid) as (vars & Hvars & _).
    destruct (valid_environment_check _ _ Hvalid) as (check & Hcheck & Hv).
    destruct (resolvedModel_truthy provider o vars Hvars) as (m & Hm & Hmt).
    exists m. split; [exact Hm |].
    assert (Hread : opt_model (default emptyOptions (heap w' !! l)) = Some m).
    { rewrite <- Hm. subst w'. unfold resolvedModel.
      destruct (JS.truthy (opt_model o)) eqn:Ht; [reflexivity |].
      cbn [heap set_heap]. rewrite lookup_insert_eq. reflexivity. }
    assert (Hstep :
      createValidatedAgent provider (Some l) w =
      (if negb (includesModel (allowedModels provider) (Some m))
       then Eff.throw (invalidModel provider m)
       else createAgent provider (Some l)) w').
    { unfold createValidatedAgent. eff_step. rewrite Hcheck. eff_step.
      rewrite Hv. cbn [negb]. eff_step.
      fold o. subst w'. rewrite Hm. unfold resolvedModel in Hm.
      destruct (JS.truthy (opt_model o)) eqn:Ht; cbn [negb]; eff_step; fold o.
      - rewrite Hm, (isValidProviderModel_known provider vars _ Hvars). eff_step.
        reflexivity.
      - rewrite lookup_insert_eq, Hm.
        cbn [default from_option Datatypes.id set_model opt_model].
        rewrite (isValidProviderModel_known provider vars _ Hvars). eff_step.
        reflexivity. }
    rewrite Hstep.
    destruct (includesModel (allowedModels provider) (Some m)) eqn:Hok; cbn [negb].
    - assert (Hvalid' : validEnvironment (env w') provider = true).
      { subst w'. destruct (JS.truthy (opt_model o)); exact Hvalid. }
      destruct (createAgent_valid provider l w' m Hvalid' Hread Hmt) as (a & Ha & Hma & Hk).
      exists a. auto.
    - reflexivity.
  Qed.

  (** C5. [createValidatedAgent] never touches the world outside the program
      (no request is sent, no process started). For a provider whose one
      required variable is unset or empty in the environment, whatever the
      options hold, it throws the error that names the variable. With a valid
      environment it resolves the model (the one given, else the default of
      the provider) to a string [m]: when [m] is on the allow-list of the
      provider, the list [getAvailableModels] gives under its tag, the agent
      of the provider's kind is returned, built with the model [m]; when [m]
      is not on that list, the error thrown names [m] and lists the allowed
      models. *)
Theorem createValidatedAgent_validates (provider : string) (options : option nat)
      (w : World) :
    let o := optionsOf options w in
    let run := createValidatedAgent provider options w in
    ext (snd run) = ext w /\
    (forall var,
        lookup_obj getRequiredEnvVars (JS.toLowerCase provider) = Some [var] ->
        JS.truthy (env w !! var) = false ->
        fst run = Throw ("Missing environment variables: " +:+ var)) /\
    (validEnvironment (env w) provider = true ->
     exists m,
       (if JS.truthy (opt_model o) then opt_model o
        else lookup_obj getDefaultModels (JS.toLowerCase provider)) = Some m /\
       (In m (allowedModels provider) ->
        exists a, fst run = Ret a /\ ag_model a = m
                  /\ Some (ag_kind a) = kindOf provider) /\
       (~ In m (allowedModels provider) ->
        fst run =
          Throw ("Invalid model " +:+ m +:+ " for provider " +:+ provider
                 +:+ ". Available models: "
                 +:+ JS.join ", " (allowedModels provider)))).
  Proof.
    intros o run.
    split; [apply ext_frame_createValidatedAgent | split].
    - intros var Hvar Hmiss. subst run.
      unfold createValidatedAgent, Eff.bind.
      assert (Hcheck : validateEnvironment (env w) provider =
                Ret (mkEnvCheck false [var]
                       (Some ("Missing environment variables: " +:+ var)))).
      { unfold validateEnvironment. rewrite (readProperty_own _ _ _ Hvar).
        cbn [List.filter]. rewrite Hmiss. reflexivity. }
      destruct options as [l |];
        cbn [optionsArg Eff.get Eff.settled env set_heap]; rewrite Hcheck; reflexivity.
    - intros Hvalid.
      assert (Hgoal : forall (l : nat) (w0 : World),
                validEnvironment (env w0) provider = true ->
                exists m,
                  resolvedModel provider (default emptyOptions (heap w0 !! l)) = Some m /\
                  (In m (allowedModels provider) ->
                   exists a, fst (createValidatedAgent provider (Some l) w0) = Ret a
                             /\ ag_model a = m
                             /\ Some (ag_kind a) = kindOf provider) /\
                  (~ In m (allowedModels provider) ->
                   fst (createValidatedAgent provider (Some l) w0) =
                     Throw (invalidModel provider m))).
      { intros l w0 Hv.
        destruct (createValidatedAgent_valid provider l w0 Hv) as (m & Hm & H).
        exists m. split; [exact Hm |].
        destruct (includesModel (allowedModels provider) (Some m)) eqn:Hok.
        - apply includesModel_In in Hok. split; [| contradiction].
          intros _. destruct H as (a & -> & H). exists a. auto.
        - assert (Hnot : ~ In m (allowedModels provider)).
          { intros Hin. apply includesModel_In in Hin. congruence. }
          split; [contradiction |]. intros _. rewrite H. reflexivity. }
      subst run o. destruct options as [l |].
      + exact (Hgoal l w Hvalid).
      + rewrite createValidatedAgent_fresh.
        set (l := fresh (dom (heap w))).
        set (w0 := set_heap (<[l := emptyOptions]> (heap w)) w).
        pose proof (Hgoal l w0 Hvalid) as H.
        replace (default emptyOptions (heap w0 !! l)) with emptyOptions in H
          by (subst w0; cbn [heap set_heap]; now rewrite lookup_insert_eq).
        exact H.
  Qed.

Lemma default_model_allowed (provider : string) (vars : list string) :
    lookup_obj getRequiredEnvVars (JS.toLowerCase provider) = Some vars ->
    exists d, lookup_obj getDefaultModels (JS.toLowerCase provider) = Some d /\
              includesModel (allowedModels provider) (Some d) = true.
  Proof.
    intros Hvars. unfold allowedModels.
    destruct (known_provider _ _ Hvars) as [[Hp _] | [[Hp _] | [[Hp _] | [Hp _]]]];
      rewrite Hp; eexists; split; reflexivity.
  Qed.

  (** C10. Called with an options object of the caller that holds no model,
      in a valid environment, [createValidatedAgent] writes the default model
      of the provider into that very object before it builds the agent: the
      object in the heap is changed. A later call with the same object, for
      any provider, finds that model there and keeps it: it is checked against
      the list of the new provider, and either rejected or used. *)
Theorem createValidatedAgent_mutates_options (provider : string) (l : nat)
      (o : Options) (w : World) :
    heap w !! l = Some o ->
    JS.truthy (opt_model o) = false ->
    validEnvironment (env w) provider = true ->
    exists (d : string) (a : Agent),
      let w' := set_heap (<[l := set_model (Some d) o]> (heap w)) w in
      lookup_obj getDefaultModels (JS.toLowerCase provider) = Some d /\
      createValidatedAgent provider (Some l) w = (Ret a, w') /\
      ag_model a = d /\
      forall provider2,
        validEnvironment (env w') provider2 = true ->
        match isValidProviderModel provider2 (Some d) with
        | Ret true =>
            exists a2, createValidatedAgent provider2 (Some l) w' = (Ret a2, w')
                       /\ ag_model a2 = d
        | Ret false =>
            createValidatedAgent provider2 (Some l) w' =
            (Throw ("Invalid model " +:+ d +:+ " for provider " +:+ provider2
                    +:+ ". Available models: "
                    +:+ JS.join ", "
                          (default [] (lookup_obj getAvailableModels
                                         (JS.toLowerCase provider2)))), w')
        | Throw _ => False
        end.
  Proof.
    intros Hl Hfalsy Hvalid.
    destruct (valid_environment_known _ _ Hvalid) as (vars & Hvars & _).
    destruct (default_model_allowed provider vars Hvars) as (d & Hd & Hok).
    pose proof (createValidatedAgent_valid provider l w Hvalid) as H.
    cbn zeta in H. rewrite Hl in H. cbn [default from_option Datatypes.id] in H.
    unfold resolvedModel in H. rewrite Hfalsy, Hd in H.
    destruct H as (d' & Hd' & H). injection Hd' as <-. rewrite Hok in H.
    destruct H as (a & Ha & Hma & _).
    exists d, a. cbn zeta. split; [exact Hd |]. split; [exact Ha |].
    split; [congruence |].
    intros provider2 Hvalid2.
    destruct (valid_environment_known _ _ Hvalid2) as (vars2 & Hvars2 & _).
    pose proof (createValidatedAgent_valid provider2 l _ Hvalid2) as H2.
    cbn zeta in H2. cbn [heap set_heap] in H2. rewrite lookup_insert_eq in H2.
    cbn [default from_option Datatypes.id set_model opt_model] in H2.
    unfold resolvedModel in H2. cbn [opt_model set_model] in H2.
    assert (Ht : JS.truthy (Some d) = true).
    { destruct (resolvedModel_truthy provider o vars Hvars) as (m & Hm & Hmt).
      unfold resolvedModel in Hm. rewrite Hfalsy, Hd in Hm. congruence. }
    rewrite Ht in H2. destruct H2 as (d2 & Hd2 & H2). injection Hd2 as <-.
    rewrite (isValidProviderModel_known provider2 vars2 _ Hvars2).
    destruct (includesModel (allowedModels provider2) (Some d)).
    - destruct H2 as (a2 & Ha2 & Hm2 & _). exists a2. split; [exact Ha2 | congruence].
    - exact H2.
  Qed.

(** ** The evaluator *)

(** The script file of test case [i] when the clock reads [now]. *)
Definition testFile (now : Z) (i : nat) : string :=
  "/tmp/test_" +:+ Num.ofZ now +:+ "_" +:+ Num.ofN (N.of_nat i) +:+ ".py".

Definition testCommand (now : Z) (i : nat) : string :=
  "python3 " +:+ JS.dquote +:+ testFile now i +:+ JS.dquote.

(** The message [fs.unlink] rejects with for a path that is not there. *)
Definition noEntry (path : string) : string :=
  "ENOENT: no such file or directory, unlink '" +:+ path +:+ "'".

(** The test result the loop body leaves for each outcome of the child, which
    left the files [kept]: when the child exited normally but the script is
    no longer there, [fs.unlink] rejects, and the [catch] records its message
    and resets [passed]. *)
Definition testResultOf (i : nat) (testCase path : string) (r : ExecResult)
    (kept : gmap string string) : TestResult :=
  match r with
  | Exited stdout stderr =>
      match kept !! path with
      | Some _ =>
          mkTestResult i testCase
            (JS.includes stdout sentinel && negb (JS.truthy (Some stderr)))
            (Some stdout)
            (if JS.truthy (Some stderr) then Some stderr else None)
      | None => mkTestResult i testCase false (Some stdout) (Some (noEntry path))
      end
  | ExecFailed message => mkTestResult i testCase false None (Some message)
  end.

(** The files the loop body leaves: those the child left, without the script
    when the child exited with status 0; the script is not removed when
    [execAsync] rejects. *)
Definition testFilesOf (path : string) (r : ExecResult)
    (kept : gmap string string) : gmap string string :=
  match r with
  | Exited _ _ => delete path kept
  | ExecFailed _ => kept
  end.

Lemma runTestCase_run (i : nat) (testCase fixedCode : string) (w : World) :
  let '(now, e1) := clock (ext w) in
  let f1 := <[testFile now i := testCode fixedCode testCase]> (files w) in
  let '(r, kept, e2) := child_process (testCommand now i) f1 e1 in
  runTestCase child_process clock i testCase fixedCode
    (mkTestResult i testCase false None None, w) =
  (Ret tt,
   (testResultOf i testCase (testFile now i) r kept,
    mkWorld (env w) (heap w) (testFilesOf (testFile now i) r kept)
      (stderr_lines w) e2)).
Proof.
  unfold runTestCase, Eff.try_catch, Eff.bind, lift, Date_now, writeFile, execAsync,
    unlink, update, Eff.modify, Eff.ret.
  cbn [fst snd ext].
  destruct (clock (ext w)) as [now e1]. cbn [fst snd files set_files set_ext ext].
  fold (testFile now i). fold (testCommand now i).
  destruct (child_process _ _ e1) as [[[stdout stderr | message] kept] e2];
    cbn [fst snd files set_files set_ext ext testResultOf testFilesOf].
  - fold (noEntry (testFile now i)).
    destruct (kept !! testFile now i) eqn:Hkept;
      destruct (JS.truthy (Some stderr));
      cbn [fst snd files set_files set_ext ext env heap stderr_lines
           set_test_error set_passed set_output test_id test_case passed output
           test_error];
      rewrite ?Hkept; cbn [fst snd]; try reflexivity;
      rewrite (delete_id kept (testFile now i) Hkept); reflexivity.
  - reflexivity.
Qed.

(** [r] and [kept] are what a child process answered and the files it left
    when it was started on the script of test case [i], written when the
    clock read [now], in some state of the world. *)
Definition childOutcome (fixedCode : string) (i : nat) (testCase : string)
    (now : Z) (r : ExecResult) (kept : gmap string string) : Prop :=
  exists (w : World) e1 e2,
    clock (ext w) = (now, e1) /\
    child_process (testCommand now i)
      (<[testFile now i := testCode fixedCode testCase]> (files w)) e1
    = (r, kept, e2).

Lemma runTestCasesFrom_spec (fixedCode : string) (testCases : list string) :
  forall (i0 : nat) (w : World),
  exists trs w',
    runTestCasesFrom child_process clock i0 testCases fixedCode w = (Ret trs, w') /\
    length trs = length testCases /\
    forall k testCase,
      testCases !! k = Some testCase ->
      exists now r kept,
        childOutcome fixedCode (i0 + k) testCase now r kept /\
        trs !! k =
          Some (testResultOf (i0 + k) testCase (testFile now (i0 + k)) r kept).
Proof.
  induction testCases as [| testCase rest IH]; intros i0 w.
  - exists [], w. repeat split. intros k tc Hk. destruct k; discriminate Hk.
  - cbn [runTestCasesFrom].
    pose proof (runTestCase_run i0 testCase fixedCode w) as Hrun.
    destruct (clock (ext w)) as [now e1] eqn:Hclock.
    cbn zeta in Hrun.
    destruct (child_process (testCommand now i0) _ e1) as [[r kept] e2] eqn:Hchild.
    rewrite Hrun.
    match goal with
    | |- context [Eff.bind _ _ ?w1] => destruct (IH (S i0) w1) as (trs & w' & Hrest & Hlen & Hall)
    end.
    unfold Eff.bind. rewrite Hrest. cbn [Eff.ret].
    eexists _, _. split; [reflexivity |]. split; [cbn; congruence |].
    intros [| k] tc Hk.
    + injection Hk as <-. exists now, r, kept. rewrite Nat.add_0_r.
      split; [| reflexivity].
      exists w, e1, e2. auto.
    + destruct (Hall k tc Hk) as (now' & r' & kept' & Hout & Hget).
      exists now', r', kept'.
      replace (i0 + S k)%nat with (S i0 + k)%nat by lia. auto.
Qed.


(** The file and the command of the syntax check when the clock reads [now]. *)
Definition validateFile (now : Z) : string :=
  "/tmp/validate_" +:+ Num.ofZ now +:+ ".py".

Definition validateCommand (now : Z) : string :=
  "python3 -m py_compile " +:+ JS.dquote +:+ validateFile now +:+ JS.dquote.

(** The answer of the syntax check: [true] when the child exited with status
    0 and the file is still there for [fs.unlink]. *)
Definition syntaxValid (path : string) (r : ExecResult)
    (kept : gmap string string) : bool :=
  match r, kept !! path with
  | Exited _ _, Some _ => true
  | _, _ => false
  end.

Lemma validateSyntax_run (code : string) (w : World) :
  let '(now, e1) := clock (ext w) in
  let f1 := <[validateFile now := code]> (files w) in
  let '(r, kept, e2) := child_process (validateCommand now) f1 e1 in
  validateSyntax child_process clock code w =
  (Ret (syntaxValid (validateFile now) r kept),
   mkWorld (env w) (heap w) (testFilesOf (validateFile now) r kept)
     (stderr_lines w) e2).
Proof.
  unfold validateSyntax, Eff.try_catch, Eff.bind, Date_now, writeFile, execAsync,
    unlink, Eff.modify, Eff.ret.
  destruct (clock (ext w)) as [now e1]. cbn [fst snd files set_files set_ext ext].
  fold (validateFile now). fold (validateCommand now).
  destruct (child_process _ _ e1) as [[[stdout stderr | message] kept] e2];
    cbn [fst snd files set_files set_ext ext syntaxValid testFilesOf].
  - destruct (kept !! validateFile now) eqn:Hkept; [reflexivity |].
    rewrite (delete_id kept (validateFile now) Hkept). reflexivity.
  - reflexivity.
Qed.

Lemma validateSyntax_returns (code : string) (w : World) :
  exists b w', validateSyntax child_process clock code w = (Ret b, w').
Proof.
  pose proof (validateSyntax_run code w) as H.
  destruct (clock (ext w)) as [now e1]. cbn zeta in H.
  destruct (child_process _ _ e1) as [[r kept] e2]. eauto.
Qed.

Ltac ml :=
  cbn [Eff.bind update Eff.modify Eff.ret Eff.throw readObject fst snd lift
       console_error set_stderr].

Ltac ml_call := unfold Eff.bind at 1; unfold lift at 1; cbn [fst snd].

Lemma determineSucess_set_success (b : bool) (r : EvaluationResult) (p : Problem) :
  determineSucess (set_success b r) p = determineSucess r p.
Proof. reflexivity. Qed.

(** The problem has test cases to run. *)
Definition hasTests (problem : Problem) : bool :=
  match test_cases problem with
  | Some (_ :: _) => true
  | _ => false
  end.

(** How the [try] block and the [catch] of [evaluateProblem] leave the result
    they were given: either an error is recorded and [success] is false, or no
    field but those of the six steps changed and [success] is the verdict of
    [determineSucess]. *)
Lemma evaluateSteps_outcome (a : Agent) (problem : Problem)
    (r0 : EvaluationResult) (w : World) :
  error r0 = None ->
  test_results r0 = [] ->
  exists r w',
    evaluateSteps exchange child_process clock a problem (r0, w) = (Ret tt, (r, w')) /\
    problem_id r = problem_id r0 /\
    ((exists message, error r = Some message /\ success r = false) \/
     (error r = None /\
      (exists f, generated_fix r = Some f /\ JS.truthy (Some f) = true) /\
      (if hasTests problem
       then length (test_results r) = length (default [] (test_cases problem))
       else test_results r = []) /\
      success r = determineSucess r problem)).
Proof.
  intros Herr Htests.
  unfold evaluateSteps, Eff.try_catch.
  unfold Eff.bind at 1. unfold lift at 1. cbn [fst snd].
  destruct (analyzeCode exchange a (base_code problem) (problem_statement problem) w)
    as [[analysis | message] w1].
  2:{ eexists _, _. split; [reflexivity |]. split; [reflexivity |]. left. eauto. }
  cbn [Eff.bind update Eff.modify Eff.ret Eff.throw readObject fst snd].
  destruct (JS.truthy (Extract.extractFixedCode analysis)) eqn:Hfix; cbn [negb].
  2:{ ml. eexists _, _. split; [reflexivity |]. split; [reflexivity |]. left. eauto. }
  set (fixedCode := default "" (Extract.extractFixedCode analysis)).
  assert (Hfixed : JS.truthy (Some fixedCode) = true).
  { subst fixedCode. destruct (Extract.extractFixedCode analysis); [exact Hfix | discriminate]. }
  ml. ml_call.
  destruct (generatePatch exchange a (base_code problem) fixedCode
              (JS.str_or (filename problem) "main.py") w1)
    as [[patch | message] w2].
  2:{ ml. eexists _, _. split; [reflexivity |]. split; [reflexivity |]. left. eauto. }
  ml. ml_call.
  destruct (validateSyntax_returns fixedCode w2) as (syntaxValid & w3 & ->).
  destruct syntaxValid; cbn [negb].
  2:{ ml. eexists _, _. split; [reflexivity |]. split; [reflexivity |]. left. eauto. }
  unfold hasTests.
  destruct (test_cases problem) as [[| t ts] |]; ml.
  - eexists _, _. split; [reflexivity |]. split; [reflexivity |]. right.
    cbn [error set_success set_patch set_generated_fix set_analysis set_test_results
         generated_fix test_results success].
    rewrite Herr, ?Htests.
    split; [reflexivity |].
    split; [exists fixedCode; split; [reflexivity | exact Hfixed] |].
    split; [first [reflexivity | exact Hlen] | reflexivity].
  - unfold Eff.bind at 1. unfold Eff.bind at 1. unfold lift at 1. cbn [fst snd].
    unfold runTestCases.
    destruct (runTestCasesFrom_spec fixedCode (t :: ts) 0 w3)
      as (trs & w4 & -> & Hlen & _).
    ml. eexists _, _. split; [reflexivity |]. split; [reflexivity |]. right.
    cbn [error set_success set_patch set_generated_fix set_analysis set_test_results
         generated_fix test_results success].
    rewrite Herr, ?Htests.
    split; [reflexivity |].
    split; [exists fixedCode; split; [reflexivity | exact Hfixed] |].
    split; [first [reflexivity | exact Hlen] | reflexivity].
  - eexists _, _. split; [reflexivity |]. split; [reflexivity |]. right.
    cbn [error set_success set_patch set_generated_fix set_analysis set_test_results
         generated_fix test_results success].
    rewrite Herr, ?Htests.
    split; [reflexivity |].
    split; [exists fixedCode; split; [reflexivity | exact Hfixed] |].
    split; [first [reflexivity | exact Hlen] | reflexivity].
Qed.

Lemma evaluateProblem_returns (ev : Evaluator) (problem : Problem) (w : World) :
  exists r w',
    evaluateProblem exchange child_process clock ev problem w =
      (Ret (r, mkEvaluator (agent ev) (results ev ++ [r])), w') /\
    problem_id r = id problem /\
    ((exists message, error r = Some message /\ success r = false) \/
     (error r = None /\
      (exists f, generated_fix r = Some f /\ JS.truthy (Some f) = true) /\
      (if hasTests problem
       then length (test_results r) = length (default [] (test_cases problem))
       else test_results r = []) /\
      success r = determineSucess r problem)).
Proof.
  unfold evaluateProblem.
  unfold Eff.bind at 1. unfold Date_now at 1.
  destruct (clock (ext w)) as [startTime e1].
  unfold Eff.bind at 1. unfold Date_now at 1. cbn [ext set_ext].
  destruct (clock e1) as [timestamp e2].
  match goal with
  | |- context [evaluateSteps _ _ _ _ _ (?r0, ?w0)] =>
      destruct (evaluateSteps_outcome (agent ev) problem r0 w0 eq_refl eq_refl)
        as (r & w1 & -> & Hid & Hout)
  end.
  unfold Eff.bind, Date_now. destruct (clock (ext w1)) as [endTime e3].
  cbn [Eff.ret].
  eexists _, _. split; [reflexivity |].
  split; [exact Hid |].
  destruct Hout as [(message & Herr & Hs) | (Herr & Hfix & Htests & Hs)];
    [left; exists message; auto | right].
  cbn [error generated_fix test_results success set_execution_time]. 
  repeat split; assumption.
Qed.

Lemma length_zero_eqb (s : string) : (String.length s =? 0)%nat = true <-> s = "".
Proof.
  destruct s; cbn; split; intros H; try reflexivity; discriminate H.
Qed.

Lemma some_passed (l : list TestResult) :
  (0 <? length (List.filter passed l))%nat = true <->
  exists t, In t l /\ passed t = true.
Proof.
  rewrite Nat.ltb_lt. split.
  - intros H. destruct (List.filter passed l) as [| t l'] eqn:Hf; [cbn in H; lia |].
    exists t. apply filter_In. rewrite Hf. left. reflexivity.
  - intros (t & Hin & Hp).
    assert (Hf : In t (List.filter passed l)) by (apply filter_In; auto).
    destruct (List.filter passed l); [destruct Hf | cbn; lia].
Qed.

(** C1. [evaluateProblem] always completes with a result, and the result is a
    success if and only if no error was recorded on it, the extracted fix is a
    string that is not empty once trimmed, and either the problem has no test
    case or one of the test results is passed. *)
Theorem evaluateProblem_success_iff (ev : Evaluator) (problem : Problem) (w : World) :
  exists r ev' w',
    evaluateProblem exchange child_process clock ev problem w = (Ret (r, ev'), w') /\
    (success r = true <->
     error r = None /\
     (exists f, generated_fix r = Some f /\ JS.trim f <> "") /\
     (hasTests problem = false \/
      exists t, In t (test_results r) /\ passed t = true)).
Proof.
  destruct (evaluateProblem_returns ev problem w) as (r & w' & Hrun & _ & Hout).
  eexists r, _, w'. split; [exact Hrun |].
  destruct Hout as [(message & Herr & Hs) | (Herr & (f & Hfix & Hft) & Htests & Hs)].
  - rewrite Hs, Herr. split; [discriminate | intros (H & _); discriminate H].
  - rewrite Hs. unfold determineSucess. rewrite Herr, Hfix. cbn [JS.truthy].
    change (negb (String.eqb f "")) with (JS.truthy (Some f)). rewrite Hft.
    cbn [negb orb default from_option Datatypes.id].
    destruct (String.length (JS.trim f) =? 0)%nat eqn:Hlen.
    + apply length_zero_eqb in Hlen.
      split; [discriminate |]. intros (_ & (f' & Hf' & Hne) & _).
      injection Hf' as <-. contradiction.
    + assert (Hne : JS.trim f <> "").
      { intros Heq. apply length_zero_eqb in Heq. congruence. }
      destruct (hasTests problem) eqn:Hhas.
      * assert (Hpos : (0 <? length (test_results r))%nat = true).
        { apply Nat.ltb_lt. rewrite Htests. unfold hasTests in Hhas.
          destruct (test_cases problem) as [[| t ts] |]; try discriminate. cbn. lia. }
        rewrite Hpos, some_passed. split.
        -- intros Hp. split; [reflexivity |]. split; [eauto |]. right. exact Hp.
        -- intros (_ & _ & [H | H]); [discriminate | exact H].
      * rewrite Htests. cbn. split; [| reflexivity].
        intros _. split; [reflexivity |]. split; [eauto | left; reflexivity].
Qed.

Lemma evaluateBatch_returns (problems : list Problem) :
  forall (ev : Evaluator) (w : World),
  exists rs w',
    evaluateBatch exchange child_process clock ev problems w =
      (Ret (rs, mkEvaluator (agent ev) (results ev ++ rs)), w') /\
    map problem_id rs = map id problems.
Proof.
  induction problems as [| p ps IH]; intros ev w.
  - exists [], w. cbn. rewrite app_nil_r. destruct ev; auto.
  - cbn [evaluateBatch]. unfold Eff.bind at 1.
    destruct (evaluateProblem_returns ev p w) as (r & w1 & -> & Hid & _).
    destruct (IH (mkEvaluator (agent ev) (results ev ++ [r])) w1)
      as (rs & w2 & Hrest & Hids).
    unfold Eff.bind. rewrite Hrest. cbn [Eff.ret agent results].
    exists (r :: rs), w2. rewrite <- app_assoc. cbn [app map].
    split; [reflexivity | congruence].
Qed.



(** ** The report *)

(** The percentage [successful / total * 100] in hundredths, computed exactly
    and rounded to the nearest integer, the larger one when two are as near. *)
Definition exactHundredths (successful total : nat) : N :=
  ((20000 * N.of_nat successful + N.of_nat total) / (2 * N.of_nat total))%N.

(** That percentage as [toFixed(2)] renders it, with the percent sign. *)
Definition exactRate (successful total : nat) : string :=
  Num.fixed 2 (exactHundredths successful total) +:+ "%".

(** For a given total, the program and the exact computation agree on every
    count of successes. *)
Definition agrees (total : nat) : bool :=
  forallb (fun successful =>
             String.eqb (successRate successful total) (exactRate successful total))
    (seq 0 (S total)).

Lemma agrees_below_160 : forallb agrees (seq 1 159) = true.
Proof. vm_compute. reflexivity. Qed.

Lemma successRate_exact (successful total : nat) :
  (0 < total < 160)%nat ->
  (successful <= total)%nat ->
  successRate successful total = exactRate successful total.
Proof.
  intros Ht Hs.
  pose proof agrees_below_160 as H.
  rewrite forallb_forall in H.
  assert (Hin : In total (seq 1 159)) by (apply in_seq; lia).
  specialize (H total Hin). unfold agrees in H. rewrite forallb_forall in H.
  apply String.eqb_eq, H, in_seq. lia.
Qed.

Lemma filter_length_le {A} (f : A -> bool) (l : list A) :
  (length (List.filter f l) <= length l)%nat.
Proof.
  induction l as [| x l IH]; cbn; [lia |]. destruct (f x); cbn; lia.
Qed.

(** C8, as the code has it. [generateReport] always returns a report. For an
    empty list of results its success rate is ["0%"] (the quotient is not
    computed). For a list of fewer than 160 results it is the exact percentage
    [successful / total * 100] rounded to two decimals (halves upwards),
    followed by the percent sign. *)
Theorem generateReport_success_rate (results : list EvaluationResult) (w : World) :
  (length results < 160)%nat ->
  exists report w',
    generateReport clock results w = (Ret report, w') /\
    total_problems (summary report) = length results /\
    successful_solutions (summary report) = length (List.filter success results) /\
    success_rate (summary report) =
      match results with
      | [] => "0%"
      | _ :: _ => exactRate (length (List.filter success results)) (length results)
      end.
Proof.
  intros Hlen. unfold generateReport, Eff.bind, Date_now.
  destruct (clock (ext w)) as [now e1]. cbn [Eff.ret].
  eexists _, _. split; [reflexivity |].
  cbn [summary total_problems successful_solutions success_rate].
  split; [reflexivity |]. split; [reflexivity |].
  destruct results as [| r results]; [reflexivity |].
  apply successRate_exact; [cbn [length] in *; lia | apply filter_length_le].
Qed.

(** ** The comparison of providers *)

(** A message that [result.error] shows as an error: it is not empty. *)
Definition loud (message : string) : bool := JS.truthy (Some message).

Lemma testConnection_returns (a : Agent) (w : World) :
  exists (b : bool) (w' : World), testConnection exchange a w = (Ret b, w').
Proof.
  unfold testConnection, Eff.try_catch, Eff.bind.
  destruct (generate exchange a "Hello" (probeOptions (ag_kind a)) w)
    as [[response | message] w1]; eexists _, _; reflexivity.
Qed.

(** The factory returns only for a valid environment, and what it throws is
    a message. *)
Lemma createValidatedAgent_outcome (provider : string) (w : World) :
  match createValidatedAgent provider None w with
  | (Ret _, _) => validEnvironment (env w) provider = true
  | (Throw message, _) => loud message = true
  end.
Proof.
  rewrite createValidatedAgent_fresh.
  set (l := fresh (dom (heap w))).
  set (w0 := set_heap (<[l := emptyOptions]> (heap w)) w).
  destruct (validEnvironment (env w) provider) eqn:Hvalid.
  - destruct (createValidatedAgent_valid provider l w0 Hvalid) as (m & _ & H).
    cbn zeta in H.
    destruct (includesModel (allowedModels provider) (Some m)).
    + destruct H as (a & -> & _). reflexivity.
    + rewrite H. reflexivity.
  - unfold createValidatedAgent. eff_step.
    change (env w0) with (env w).
    unfold validEnvironment, validateEnvironment in *.
    destruct (readProperty getRequiredEnvVars (JS.toLowerCase provider))
      as [vars | |]; eff_step; [| reflexivity | reflexivity].
    cbn [valid envError] in *. rewrite Hvalid. cbn [negb]. eff_step.
    destruct (List.filter _ vars); [discriminate | reflexivity].
Qed.

(** The name of a provider with a valid environment is no array index. *)
Lemma lower_letter_no_digit (c : ascii) :
  Num.is_digit c = true -> JS.lower c = c.
Proof.
  destruct c as [[] [] [] [] [] [] [] []]; vm_compute; congruence.
Qed.

Lemma valid_name_no_index (e : gmap string string) (provider : string) :
  validEnvironment e provider = true -> isArrayIndex provider = false.
Proof.
  intros Hvalid.
  destruct (valid_environment_known _ _ Hvalid) as (vars & Hvars & _).
  apply known_provider in Hvars.
  unfold isArrayIndex.
  destruct provider as [| c rest]; [reflexivity |].
  cbn [list_ascii_of_string forallb].
  destruct (Num.is_digit c) eqn:Hc; [| reflexivity].
  cbn [JS.toLowerCase] in Hvars.
  rewrite (lower_letter_no_digit c Hc) in Hvars.
  destruct Hvars as [[H _] | [[H _] | [[H _] | [H _]]]];
    injection H as H _; subst c; discriminate Hc.
Qed.

Lemma generateReport_returns (results : list EvaluationResult) (w : World) :
  exists report w',
    generateReport clock results w = (Ret report, w') /\
    success_rate (summary report) =
      successRate (length (List.filter success results)) (length results).
Proof.
  unfold generateReport, Eff.bind, Date_now.
  destruct (clock (ext w)) as [t e]. eexists _, _. split; reflexivity.
Qed.

(** A run of a provider: it reports a numeric rate, for a provider with a
    valid environment, or throws a message. *)
Lemma runProvider_outcome (provider : string) (problems : list Problem) (w : World) :
  (Z.of_nat (length problems) < 2 ^ 53)%Z ->
  match runProvider exchange child_process clock provider problems w with
  | (Ret report, _) =>
      isArrayIndex provider = false /\
      RateFacts.numeric
        (Num.parseFloat (removeFirst "%" (success_rate (summary report))))
  | (Throw message, _) => loud message = true
  end.
Proof.
  intros Hsize. unfold runProvider. unfold Eff.bind at 1.
  pose proof (createValidatedAgent_outcome provider w) as Hagent.
  destruct (createValidatedAgent provider None w) as [[a | message] w1];
    [| exact Hagent].
  unfold Eff.bind at 1.
  destruct (testConnection_returns a w1) as (connected & w2 & ->).
  destruct connected; cbn [negb]; [| reflexivity].
  unfold Eff.bind at 1.
  destruct (evaluateBatch_returns problems (mkEvaluator a []) w2)
    as (rs & w3 & -> & Hids).
  destruct (generateReport_returns rs w3) as (report & w4 & -> & ->).
  split; [eapply valid_name_no_index, Hagent |].
  assert (Hlen : length rs = length problems).
  { rewrite <- (length_map problem_id rs), Hids. apply length_map. }
  apply RateFacts.successRate_numeric.
  - rewrite Hlen. exact Hsize.
  - apply filter_length_le.
Qed.

(** *** Objects as ordered lists of properties *)

Lemma lookup_obj_set {A} (o : list (string * A)) (k k' : string) (v : A) :
  lookup_obj (obj_set o k v) k' =
  if String.eqb k k' then Some v else lookup_obj o k'.
Proof.
  induction o as [| [k0 v0] o IH]; cbn [obj_set lookup_obj]; [reflexivity |].
  destruct (String.eqb_spec k0 k) as [-> | Hne]; cbn [lookup_obj].
  - destruct (String.eqb k k'); reflexivity.
  - rewrite IH. destruct (String.eqb_spec k0 k') as [-> | Hne']; [| reflexivity].
    destruct (String.eqb_spec k k'); [congruence | reflexivity].
Qed.

Lemma obj_set_keys {A} (o : list (string * A)) (k k' : string) (v : A) :
  In k' (map fst (obj_set o k v)) <-> k' = k \/ In k' (map fst o).
Proof.
  induction o as [| [k0 v0] o IH]; cbn [obj_set map fst In]; [intuition |].
  destruct (String.eqb_spec k0 k) as [-> | Hne]; cbn [map fst In];
    [| rewrite IH]; intuition.
Qed.

Lemma obj_set_NoDup {A} (o : list (string * A)) (k : string) (v : A) :
  List.NoDup (map fst o) -> List.NoDup (map fst (obj_set o k v)).
Proof.
  induction o as [| [k0 v0] o IH]; cbn [obj_set map fst]; intros Hnd.
  - constructor; [intros [] | constructor].
  - inversion Hnd as [| ? ? Hnotin Hnd']; subst.
    destruct (String.eqb_spec k0 k) as [-> | Hne]; cbn [map fst].
    + constructor; assumption.
    + constructor; [| auto].
      rewrite obj_set_keys. intros [-> | Hin]; [congruence | contradiction].
Qed.

Lemma obj_set_Forall {A} (P : string * A -> Prop) (o : list (string * A))
    (k : string) (v : A) :
  P (k, v) -> Forall P o -> Forall P (obj_set o k v).
Proof.
  intros Hkv Ho. induction Ho as [| [k0 v0] o H0 Ho IH]; cbn [obj_set].
  - constructor; [exact Hkv | constructor].
  - destruct (String.eqb k0 k); constructor; auto.
Qed.


Lemma insertIndex_In {A} (x y : string * A) (l : list (string * A)) :
  In x (insertIndex y l) -> x = y \/ In x l.
Proof.
  induction l as [| z l IH]; cbn [insertIndex]; [cbn; intuition |].
  destruct (digitsValue (fst y) <=? digitsValue (fst z))%N; cbn [In]; intuition.
Qed.

Lemma indexOrder_In {A} (x : string * A) (l : list (string * A)) :
  In x (fold_right insertIndex [] l) -> In x l.
Proof.
  induction l as [| y l IH]; cbn [fold_right]; [auto |].
  intros H. apply insertIndex_In in H. cbn [In]. intuition.
Qed.

(** *** The loop over the providers *)

(** What one turn of the loop stores for its provider, and the world it
    leaves. *)
Definition entryOf (provider : string) (problems : list Problem) (w : World)
    : ProviderResult * World :=
  match runProvider exchange child_process clock provider problems w with
  | (Ret report, w') => (Reported report, w')
  | (Throw message, w') => (Failed message, w')
  end.

(** The entries the loop stores: a report has a numeric rate and a key that
    is no array index, an error has a message. *)
Definition goodEntry (e : string * ProviderResult) : Prop :=
  match snd e with
  | Reported report =>
      isArrayIndex (fst e) = false /\
      RateFacts.numeric
        (Num.parseFloat (removeFirst "%" (success_rate (summary report))))
  | Failed message => loud message = true
  end.

Definition goodObject (o : list (string * ProviderResult)) : Prop :=
  Forall goodEntry o /\ List.NoDup (map fst o).


Lemma assign_NoDup {A} (o : list (string * A)) (k : string) (v : A) :
  List.NoDup (map fst o) -> List.NoDup (map fst (assign o k v)).
Proof.
  unfold assign. destruct (String.eqb k "__proto__"); [auto | apply obj_set_NoDup].
Qed.

Lemma assign_Forall {A} (P : string * A -> Prop) (o : list (string * A))
    (k : string) (v : A) :
  P (k, v) -> Forall P o -> Forall P (assign o k v).
Proof.
  unfold assign. destruct (String.eqb k "__proto__"); [auto | apply obj_set_Forall].
Qed.

Lemma compareLoop_cons (provider : string) (rest : list string)
    (problems : list Problem) (acc : list (string * ProviderResult)) (w : World) :
  compareLoop exchange child_process clock (provider :: rest) problems acc w =
  compareLoop exchange child_process clock rest problems
    (assign acc provider (fst (entryOf provider problems w)))
    (snd (entryOf provider problems w)).
Proof.
  cbn [compareLoop]. unfold Eff.bind, Eff.try_catch, entryOf, Eff.ret.
  destruct (runProvider exchange child_process clock provider problems w)
    as [[report | message] w1]; reflexivity.
Qed.

Lemma entryOf_good (provider : string) (problems : list Problem) (w : World) :
  (Z.of_nat (length problems) < 2 ^ 53)%Z ->
  goodEntry (provider, fst (entryOf provider problems w)).
Proof.
  intros Hsize. pose proof (runProvider_outcome provider problems w Hsize) as H.
  unfold entryOf, goodEntry.
  destruct (runProvider exchange child_process clock provider problems w)
    as [[report | message] w1]; exact H.
Qed.

Lemma compareLoop_returns (problems : list Problem) :
  (Z.of_nat (length problems) < 2 ^ 53)%Z ->
  forall providers acc (w : World),
    goodObject acc ->
    exists entries w',
      compareLoop exchange child_process clock providers problems acc w =
        (Ret entries, w') /\
      goodObject entries.
Proof.
  intros Hsize. induction providers as [| p rest IH]; intros acc w Hacc.
  - eexists _, _. split; [reflexivity | exact Hacc].
  - rewrite compareLoop_cons. apply IH. destruct Hacc as [Hgood Hkeys]. split.
    + apply assign_Forall; [apply entryOf_good, Hsize | exact Hgood].
    + apply assign_NoDup, Hkeys.
Qed.






(** *** The summary *)

(** The test [!result.error] of the filter. *)
Definition noError (e : string * ProviderResult) : bool :=
  negb (JS.truthy (result_error (snd e))).

(** The entry is a report. *)
Definition isReported (e : string * ProviderResult) : bool :=
  match snd e with
  | Reported _ => true
  | Failed _ => false
  end.

(** The element of [validResults] made from an entry. *)
Definition ratedOf (e : string * ProviderResult) : Rated :=
  mkRated (fst e)
    (Num.parseFloat (removeFirst "%" (result_success_rate (snd e)))).

(** The comparator [(a, b) => b.success_rate - a.success_rate], by its sign. *)
Definition byRate (a b : Rated) : Z := Num.sub_sign (rate b) (rate a).

(** [a] may stand before [b]: the rate of [b] is not above that of [a]. *)
Definition descending (a b : Rated) : Prop := (byRate a b <= 0)%Z.

(** [a] and [b] have the same rate. *)
Definition sameRate (a b : Rated) : bool := (byRate a b =? 0)%Z.

(** The rate is a number. *)
Definition numericRate (r : Rated) : Prop := RateFacts.numeric (rate r).

Lemma validResults_unfold (o : list (string * ProviderResult)) :
  validResults o =
  sort byRate (map ratedOf (List.filter noError (Object_entries o))).
Proof. reflexivity. Qed.

Lemma filter_none {A} (f : A -> bool) (l : list A) :
  (forall x, In x l -> f x = false) -> List.filter f l = [].
Proof.
  induction l as [| a l IH]; cbn [List.filter]; intros H; [reflexivity |].
  rewrite (H a) by (left; reflexivity). apply IH. intros x Hx. apply H. now right.
Qed.

Lemma sort_length {A} (comparefn : A -> A -> Z) (l : list A) :
  length (sort comparefn l) = length l.
Proof.
  induction l as [| x l IH]; [reflexivity |].
  unfold sort in *. cbn [fold_right length]. rewrite insert_length. congruence.
Qed.

(** Among good entries [Object.entries] and the filter keep the reports, in
    the order they were stored in. *)
Lemma entries_reported (o : list (string * ProviderResult)) :
  Forall goodEntry o ->
  List.filter noError (Object_entries o) = List.filter isReported o.
Proof.
  intros Hgood. unfold Object_entries. rewrite List.filter_app.
  rewrite filter_none.
  2:{ intros [k r] Hin. apply indexOrder_In, filter_In in Hin.
      destruct Hin as [Hin Hidx].
      rewrite List.Forall_forall in Hgood. specialize (Hgood _ Hin).
      unfold goodEntry, noError in *. cbn [fst snd] in *.
      destruct r as [report | m]; cbn [result_error].
      - destruct Hgood as [Hno _]. congruence.
      - unfold loud in Hgood. rewrite Hgood. reflexivity. }
  cbn [app]. induction Hgood as [| [k r] o Hx Ho IH]; [reflexivity |].
  cbn [List.filter fst snd]. unfold goodEntry in Hx. cbn [fst snd] in Hx.
  destruct r as [report | m].
  - destruct Hx as [-> _]. cbn [negb List.filter]. rewrite IH. reflexivity.
  - assert (Hno : noError (k, Failed m) = false).
    { unfold noError. cbn [snd result_error]. unfold loud in Hx. now rewrite Hx. }
    unfold isReported at 2. cbn [snd].
    destruct (negb (isArrayIndex k)); cbn [List.filter]; [rewrite Hno |]; exact IH.
Qed.



Lemma validResults_reported (o : list (string * ProviderResult)) :
  Forall goodEntry o ->
  validResults o = sort byRate (map ratedOf (List.filter isReported o)).
Proof. intros Hgood. now rewrite validResults_unfold, entries_reported. Qed.


Lemma reported_numeric (o : list (string * ProviderResult)) :
  Forall goodEntry o ->
  Forall numericRate (map ratedOf (List.filter isReported o)).
Proof.
  intros Hgood. induction Hgood as [| [k r] o He Ho IH]; cbn [List.filter]; [constructor |].
  unfold isReported at 1. cbn [snd]. destruct r as [report | m]; [| exact IH].
  cbn [map]. constructor; [| exact IH]. exact (proj2 He).
Qed.

Lemma byRate_opp (x y : Rated) :
  numericRate x -> numericRate y -> byRate y x = (- byRate x y)%Z.
Proof. intros Hx Hy. apply RateFacts.sub_sign_opp; assumption. Qed.

Lemma byRate_trans (x y z : Rated) :
  numericRate x -> numericRate y -> numericRate z ->
  (byRate x y <= 0)%Z -> (byRate y z <= 0)%Z -> (byRate x z <= 0)%Z.
Proof.
  intros Hx Hy Hz Hxy Hyz.
  exact (RateFacts.sub_sign_trans (rate z) (rate y) (rate x) Hz Hy Hx Hyz Hxy).
Qed.




End Properties.

(** * Concrete runs

    The external world is a counter of the interactions so far: the clock
    reads [1000] plus the counter, and every oracle advances it. *)

Module Run.

Definition clock (e : nat) : Z * nat := ((1000 + Z.of_nat e)%Z, S e).

(** No request is answered. *)
Definition offline (_ : Request) (e : nat) : Response * nat :=
  (RequestError "connect ECONNREFUSED 127.0.0.1:11434", S e).

(** Every child process exits with a status that is not 0, and leaves the
    files as they are. *)
Definition failing (command : string) (f : gmap string string) (e : nat)
    : ExecResult * gmap string string * nat :=
  (ExecFailed ("Command failed: " +:+ command), f, S e).

(** The world at the start: nothing written, the given environment. *)
Definition start (environment : gmap string string) : World (Ext := nat) :=
  mkWorld environment ∅ ∅ [] 0%nat.

End Run.

(** C3, refuted on the failure paths. A fix that does not compile makes
    [execAsync] reject in [validateSyntax]: the method answers [false] and the
    file it wrote is still there. A test whose script exits with an error
    makes [execAsync] reject in [runTestCases]: the test is reported as not
    passed and the script is still there. *)
Theorem temporary_files_stay_on_failure :
  (let '(r, w) :=
     validateSyntax Run.failing Run.clock "def calc(a, b:" (Run.start ∅) in
   r = Ret false /\
   files w !! "/tmp/validate_1000.py" = Some "def calc(a, b:") /\
  (let '(r, w) :=
     runTestCases Run.failing Run.clock ["assert calc(1, 0) == 0"]
       "def calc(a, b): return a / b"
       (mkProblem "p" "division" "def calc(a, b): return a / b" None
          (Some ["assert calc(1, 0) == 0"]))
       (Run.start ∅) in
   (exists t, r = Ret [t] /\ passed t = false) /\
   is_Some (files w !! "/tmp/test_1000_0.py")).
Proof.
  split.
  - vm_compute. split; reflexivity.
  - vm_compute. split; [eexists; split; reflexivity | eexists; reflexivity].
Qed.



Definition witness_world : World (Ext := nat) :=
  mkWorld {[ "OPENAI_API_KEY" := "sk-test"; "GEMINI_API_KEY" := "g-test" ]}
    {[ 0%nat := emptyOptions ]} ∅ [] 0%nat.

Lemma createValidatedAgent_mutates_options_witness :
  exists (d : string) (a : Agent),
    createValidatedAgent "openai" (Some 0%nat) witness_world =
      (Ret a,
       set_heap (<[0%nat := set_model (Some d) emptyOptions]> (heap witness_world))
         witness_world) /\
    d = "gpt-4" /\
    createValidatedAgent "gemini" (Some 0%nat)
      (set_heap (<[0%nat := set_model (Some d) emptyOptions]> (heap witness_world))
         witness_world) =
      (Throw "Invalid model gpt-4 for provider gemini. Available models: gemini-pro, gemini-1.5-pro, gemini-1.5-flash",
       set_heap (<[0%nat := set_model (Some d) emptyOptions]> (heap witness_world))
         witness_world).
Proof.
  destruct (createValidatedAgent_mutates_options "openai" 0%nat emptyOptions
              witness_world)
    as (d & a & Hd & Hrun & _ & Hnext);
    [reflexivity | reflexivity | reflexivity |].
  exists d, a. split; [exact Hrun |].
  assert (Heq : d = "gpt-4") by (vm_compute in Hd; congruence).
  split; [exact Heq |].
  subst d. exact (Hnext "gemini" eq_refl).
Defined.

(** A result whose only field of interest is [success]. *)
Definition verdict (ok : bool) : EvaluationResult :=
  mkResult "p" ok None None None None [] 0 0.

(** [successes] successful results followed by failed ones, [total] in all. *)
Definition verdicts (successes total : nat) : list EvaluationResult :=
  (repeat (verdict true) successes ++ repeat (verdict false) (total - successes))%list.

Definition reportedRate (successes total : nat) : outcome string :=
  match fst (generateReport Run.clock (verdicts successes total) (Run.start ∅)) with
  | Ret report => Ret (success_rate (summary report))
  | Throw message => Throw message
  end.

Lemma generateReport_success_rate_witness :
  reportedRate 2 3 = Ret "66.67%".
Proof.
  unfold reportedRate.
  destruct (generateReport_success_rate Run.clock (verdicts 2 3) (Run.start ∅))
    as (report & w' & -> & _ & _ & Hrate); [vm_compute; lia |].
  cbn [fst]. rewrite Hrate. vm_compute. reflexivity.
Defined.

(** C8, refuted as stated. 1 success in 32 and 23 successes in 160 are the
    exact percentages 3.125 and 14.375, each halfway between two hundredths.
    The report rounds the first upwards and the second downwards: its success
    rate is no rounding of the exact percentage to two decimals, and for 23 in
    160 it is not the ["14.38%"] that rounding halves upwards, or to the even
    hundredth, gives. *)
Lemma success_rate_is_no_rounding :
  (1 * 100 * 1000 = 3125 * 32)%Z /\
  reportedRate 1 32 = Ret "3.13%" /\
  (23 * 100 * 1000 = 14375 * 160)%Z /\
  reportedRate 23 160 = Ret "14.37%" /\
  exactRate 23 160 = "14.38%".
Proof. repeat split; vm_compute; reflexivity. Qed.

(** A comparison of two providers. The server on this machine answers every
    prompt with a tagged fix, no other host can be reached, and every child
    process prints the sentinel. *)
Definition local_only (r : Request) (e : nat) : Response * nat :=
  if rq_secure r
  then (RequestError "getaddrinfo ENOTFOUND", S e)
  else (Ended (TextField (Some "FIXED_CODE: ```python x = 1 ```")), S e).

Definition passing (command : string) (f : gmap string string) (e : nat)
    : ExecResult * gmap string string * nat :=
  (Exited "TEST_PASSED" "", f, S e).

Definition comparison_world : World (Ext := nat) :=
  mkWorld {[ "OPENAI_API_KEY" := "sk-test" ]} ∅ ∅ [] 0%nat.

Definition sample_problems : list Problem :=
  [ mkProblem "p1" "x must be 1" "x = 0" None (Some ["assert x == 1"]) ].

Example comparison_sample_run :
  match compareProviders local_only passing Run.clock "ollama, openai, ollama2"
          sample_problems comparison_world with
  | (Ret res, _) =>
      map (fun e => (fst e, result_error (snd e), result_success_rate (snd e)))
        (provider_results res) =
        [ ("ollama", None, "100.00%");
          ("openai", Some "Cannot connect to openai", "0%");
          ("ollama2", Some "Unknown provider: ollama2", "0%") ] /\
      comparison_summary res =
        mkComparisonSummary (Some "ollama") [("ollama", "100%")] (Some "100.0%")
  | (Throw _, _) => False
  end.
Proof. vm_compute. split; reflexivity. Qed.

(** The child processes of the first moments print nothing, the later ones
    print the sentinel: the tests of the provider that runs first fail. *)
Definition warming (command : string) (f : gmap string string) (e : nat)
    : ExecResult * gmap string string * nat :=
  (Exited (if (e <? 12)%nat then "" else "TEST_PASSED") "", f, S e).

(** A comparison of four names. The local server is asked twice, under two
    spellings of its tag, and solves the problem the second time only; the
    cloud provider cannot be reached; [__proto__] is no provider. The ranking
    puts the better run first, the failed provider has its entry and the
    name [__proto__] has none. *)
Example comparison_of_four :
  match compareProviders local_only warming Run.clock
          "ollama, openai, Ollama, __proto__" sample_problems comparison_world with
  | (Ret res, _) =>
      meta_providers res = ["ollama"; "openai"; "Ollama"; "__proto__"] /\
      map (fun e => (fst e, result_error (snd e), result_success_rate (snd e)))
        (provider_results res) =
        [ ("ollama", None, "0.00%");
          ("openai", Some "Cannot connect to openai", "0%");
          ("Ollama", None, "100.00%") ] /\
      comparison_summary res =
        mkComparisonSummary (Some "Ollama") [("Ollama", "100%"); ("ollama", "0%")]
          (Some "50.0%")
  | (Throw _, _) => False
  end.
Proof. vm_compute. repeat split; reflexivity. Qed.



(** * Further properties *)

(** ** The scan of the lines *)

Module LineScanFacts.
Import Regex Extract ExtractFacts.

(** The nine words that start a statement. *)
Definition keywords : list string :=
  ["def"; "class"; "import"; "from"; "if"; "for"; "while"; "try"; "with"].

(** [s.startsWith(w)] *)
Definition startsWith (s w : string) : bool :=
  JS.prefixb (list_ascii_of_string w) (list_ascii_of_string s).

(** The line, once trimmed, starts with one of the words. *)
Definition startsStatement (line : string) : bool :=
  existsb (startsWith (JS.trim line)) keywords.

(** The test of the loop: [line.trim().match(...)] is not [null]. *)
Definition triggers (line : string) : bool :=
  match match1 false re_statement (JS.trim line) with
  | Some _ => true
  | None => false
  end.

Lemma prefix_ic_prefixb (w s : list ascii) : prefix_ic false w s = JS.prefixb w s.
Proof.
  revert s. induction w as [| c w IH]; intros [| x s]; cbn; try reflexivity.
  rewrite IH. reflexivity.
Qed.

(** [^] holds at the start of the input only. *)
Lemma search_bol_later (ic : bool) (n : nat) (r : regex) (s : list ascii) :
  (length s < n)%nat -> search ic n (Cat Bol r) s = None.
Proof.
  induction s as [| c s IH]; intros Hlen; cbn [search rmatch].
  - destruct (Nat.eqb_spec (length (@nil ascii)) n) as [He | _]; [cbn in *; lia | reflexivity].
  - destruct (Nat.eqb_spec (length (c :: s)) n) as [He | _]; [lia |].
    apply IH. cbn [length] in Hlen. lia.
Qed.

Lemma starG_total {A} (p : ascii -> bool) (k : @cont A) :
  (forall s cap, k s cap <> None) ->
  forall s cap, starG p s cap k <> None.
Proof.
  intros Hk. induction s as [| c s IH]; intros cap; cbn [starG]; [apply Hk |].
  destruct (p c); [| apply Hk].
  destruct (starG p s cap k) eqn:Hs; [discriminate | apply Hk].
Qed.

(** The alternatives of the pattern, tried at the start of a text. *)
Lemma statement_at_start (l : list ascii) :
  match rmatch false (length l) re_statement l None final with
  | Some _ => true
  | None => false
  end =
  existsb (fun kw => JS.prefixb (list_ascii_of_string kw) l) keywords
  || match l with
     | c :: _ => JS.is_ws c
     | [] => false
     end.
Proof.
  unfold re_statement, word. cbn [rmatch]. rewrite Nat.eqb_refl.
  cbn [existsb keywords].
  repeat (rewrite rmatch_lit, prefix_ic_prefixb;
          match goal with
          | |- context [JS.prefixb ?w l] =>
              destruct (JS.prefixb w l); [reflexivity |]
          end).
  cbn [orb].
  destruct l as [| c l]; [reflexivity |].
  destruct (JS.is_ws c); [| reflexivity].
  match goal with
  | |- context [starG ?p ?s ?cap ?k] =>
      pose proof (starG_total p k (fun _ _ H => ltac:(discriminate H)) s cap) as Hs;
      destruct (starG p s cap k); [reflexivity | congruence]
  end.
Qed.

Lemma trimL_head (l : list ascii) :
  match JS.trimL l with
  | c :: _ => JS.is_ws c = false
  | [] => True
  end.
Proof.
  unfold JS.trimL.
  pose proof (trimStartL_head l) as H1.
  pose proof (trimEndL_head (JS.trimStartL l)) as H2.
  destruct (JS.trimStartL l) as [| y t]; [exact I |].
  destruct (JS.trimEndL (y :: t)) as [| x t']; [exact I |].
  subst x. exact H1.
Qed.

(** X1. A trimmed line makes the scan start exactly when it starts with one of
    the nine words: the alternative [\s+] of the pattern never decides, for a
    trimmed line does not start with white space. So an indented line, or a
    line holding only an assignment or a call, does not start the scan. *)
Theorem triggers_iff_keyword (line : string) :
  triggers line = startsStatement line.
Proof.
  unfold triggers, startsStatement, startsWith, match1, JS.trim.
  rewrite list_ascii_of_string_of_list_ascii.
  pose proof (trimL_head (list_ascii_of_string line)) as Hhead.
  pose proof (statement_at_start (JS.trimL (list_ascii_of_string line))) as Hat.
  set (l := JS.trimL (list_ascii_of_string line)) in *.
  replace (existsb _ keywords)
    with (existsb (fun kw => JS.prefixb (list_ascii_of_string kw) l) keywords)
    by reflexivity.
  assert (Hws : match l with c :: _ => JS.is_ws c | [] => false end = false)
    by (destruct l; [reflexivity | exact Hhead]).
  rewrite Hws, orb_false_r in Hat. rewrite <- Hat.
  destruct l as [| c l']; cbn [search];
    change (fun (_ : list ascii) (cap : option (list ascii)) => Some cap) with final;
    destruct (rmatch false _ re_statement _ None final); try reflexivity.
  unfold re_statement. rewrite search_bol_later by (cbn [length]; lia). reflexivity.
Qed.

(** *** Lines split and joined *)

Definition lf : ascii := ascii_of_nat 10.

Lemma splitL_cons (sep : ascii) (s : list ascii) :
  exists l ls, JS.splitL sep s = l :: ls.
Proof.
  induction s as [| c s (l & ls & IH)]; cbn [JS.splitL]; [eauto |].
  destruct (Ascii.eqb c sep); [eauto |]. rewrite IH. eauto.
Qed.

Lemma splitL_app (sep : ascii) (a b : list ascii) :
  JS.splitL sep (a ++ sep :: b) = (JS.splitL sep a ++ JS.splitL sep b)%list.
Proof.
  induction a as [| c a IH]; cbn [app JS.splitL].
  - rewrite Ascii.eqb_refl. reflexivity.
  - destruct (Ascii.eqb c sep); [rewrite IH; reflexivity |].
    rewrite IH. destruct (splitL_cons sep a) as (l & ls & ->). reflexivity.
Qed.

Lemma split_app (sep : ascii) (a b : string) :
  JS.split sep (a +:+ String sep b) = (JS.split sep a ++ JS.split sep b)%list.
Proof.
  unfold JS.split. rewrite chars_app. cbn [list_ascii_of_string].
  rewrite splitL_app, map_app. reflexivity.
Qed.

Lemma split_cons (sep : ascii) (s : string) :
  exists l ls, JS.split sep s = l :: ls.
Proof.
  unfold JS.split. destruct (splitL_cons sep (list_ascii_of_string s)) as (l & ls & ->).
  cbn [map]. eauto.
Qed.

(** [s.split(sep).join(sep)] is [s]. *)
Lemma join_split (sep : ascii) (s : string) :
  JS.join (String sep "") (JS.split sep s) = s.
Proof.
  unfold JS.split. induction s as [| c s IH]; [reflexivity |].
  cbn [list_ascii_of_string JS.splitL].
  destruct (splitL_cons sep (list_ascii_of_string s)) as (l & ls & Hs).
  rewrite Hs in *. destruct (Ascii.eqb_spec c sep) as [-> | Hne].
  - cbn [map JS.join] in *. rewrite IH. reflexivity.
  - cbn [map JS.join string_of_list_ascii] in *.
    destruct (map string_of_list_ascii ls); cbn in *; rewrite <- IH; reflexivity.
Qed.

(** *** The scan *)

Lemma scanLines_started (lines : list string) : scanLines true lines = lines.
Proof.
  induction lines as [| line rest IH]; [reflexivity |].
  cbn [scanLines]. destruct (match1 false re_statement (JS.trim line)); now rewrite IH.
Qed.

Lemma scanLines_skip (before rest : list string) :
  Forall (fun line => triggers line = false) before ->
  scanLines false (before ++ rest) = scanLines false rest.
Proof.
  intros H. induction H as [| line before Hline Hbefore IH]; [reflexivity |].
  cbn [app scanLines]. unfold triggers in Hline.
  destruct (match1 false re_statement (JS.trim line)); [discriminate | exact IH].
Qed.

Lemma scanLines_start (line : string) (rest : list string) :
  triggers line = true -> scanLines false (line :: rest) = line :: rest.
Proof.
  intros H. cbn [scanLines]. unfold triggers in H.
  destruct (match1 false re_statement (JS.trim line)); [| discriminate].
  now rewrite scanLines_started.
Qed.

(** X2. The last resort, on the text. When no line starts a statement nothing is
    found. Otherwise the result is the whole text from the first line that
    starts a statement to the end, trimmed: the lines of prose that follow
    the code are part of it. *)
Theorem lineScan_from_first_statement :
  (forall analysis,
      Forall (fun line => triggers line = false) (JS.split lf analysis) ->
      lineScan analysis = None) /\
  (forall code,
      triggers (hd "" (JS.split lf code)) = true ->
      lineScan code = Some (JS.trim code)) /\
  (forall prose code,
      Forall (fun line => triggers line = false) (JS.split lf prose) ->
      triggers (hd "" (JS.split lf code)) = true ->
      lineScan (prose +:+ String lf code) = Some (JS.trim code)).
Proof.
  assert (Hcode : forall code,
             triggers (hd "" (JS.split lf code)) = true ->
             scanLines false (JS.split lf code) = JS.split lf code /\
             (0 <? length (JS.split lf code))%nat = true).
  { intros code H. destruct (split_cons lf code) as (l & ls & Hs).
    rewrite Hs in *. cbn [hd] in H. rewrite scanLines_start by exact H.
    split; reflexivity. }
  split; [| split].
  - intros analysis H. unfold lineScan. fold lf.
    rewrite <- (app_nil_r (JS.split lf analysis)), scanLines_skip by exact H.
    reflexivity.
  - intros code H. unfold lineScan. fold lf.
    destruct (Hcode code H) as [-> ->]. now rewrite join_split.
  - intros prose code Hprose H. unfold lineScan. fold lf.
    rewrite split_app, scanLines_skip by exact Hprose.
    destruct (Hcode code H) as [-> ->]. now rewrite join_split.
Qed.

(** X3. Whatever tier finds it, the fix extracted is trimmed: it neither starts
    nor ends with white space. *)
Theorem extractFixedCode_trimmed (analysis code : string) :
  extractFixedCode analysis = Some code -> JS.trim code = code.
Proof.
  unfold extractFixedCode, lineScan.
  destruct (match1 true re_fixed_code analysis) as [m1 |].
  - intros H. injection H as <-. apply trim_idem.
  - destruct (match1 false re_code_block analysis) as [m1 |].
    + intros H. injection H as <-. apply trim_idem.
    + destruct (0 <? _)%nat; [| discriminate].
      intros H. injection H as <-. apply trim_idem.
Qed.

End LineScanFacts.

(** ** The stages of an evaluation *)

Section PipelineFacts.
Context {Ext : Type}.
Variable exchange : Request -> Ext -> Response * Ext.
Variable clock : Ext -> Z * Ext.

Abbreviation World := (@World Ext).

Section Steps.
Variable child_process : string -> gmap string string -> Ext -> ExecResult * gmap string string * Ext.

Ltac ml :=
  cbn [Eff.bind update Eff.modify Eff.ret Eff.throw readObject fst snd lift
       console_error set_stderr].

Ltac ml_call := unfold Eff.bind at 1; unfold lift at 1; cbn [fst snd].

(** What the [catch] of [evaluateProblem] makes of the result and the world
    when a step threw [message]. *)
Definition caught (problem : Problem) (message : string)
    (s : EvaluationResult * World) : outcome unit * (EvaluationResult * World) :=
  (Ret tt,
   (set_success false (set_error (Some message) (fst s)),
    set_stderr
      (stderr_lines (snd s)
         ++ [("❌ Error evaluating problem " +:+ id problem +:+ ":")
             +:+ " " +:+ message]) (snd s))).

(** The steps after the patch: the syntax check, the tests, the verdict. *)
Definition checkAndTest (problem : Problem) (fixedCode : string)
    (s : EvaluationResult * World) : outcome unit * (EvaluationResult * World) :=
  match validateSyntax child_process clock fixedCode (snd s) with
  | (Ret true, w3) =>
      match test_cases problem with
      | Some (t :: ts) =>
          match runTestCases child_process clock (t :: ts) fixedCode problem w3 with
          | (Ret trs, w4) =>
              let r := set_test_results trs (fst s) in
              (Ret tt, (set_success (determineSucess r problem) r, w4))
          | (Throw message, w4) => caught problem message (fst s, w4)
          end
      | _ => (Ret tt, (set_success (determineSucess (fst s) problem) (fst s), w3))
      end
  | (Ret false, w3) => caught problem "Generated code has syntax errors" (fst s, w3)
  | (Throw message, w3) => caught problem message (fst s, w3)
  end.

(** The [try] block of [evaluateProblem], step by step. *)
Lemma evaluateSteps_unfold (a : Agent) (problem : Problem)
    (r0 : EvaluationResult) (w : World) :
  evaluateSteps exchange child_process clock a problem (r0, w) =
  match analyzeCode exchange a (base_code problem) (problem_statement problem) w with
  | (Throw message, w1) => caught problem message (r0, w1)
  | (Ret analysis, w1) =>
      let r1 := set_analysis (Some analysis) r0 in
      if JS.truthy (Extract.extractFixedCode analysis)
      then
        let fixedCode := default "" (Extract.extractFixedCode analysis) in
        let r2 := set_generated_fix (Some fixedCode) r1 in
        match generatePatch exchange a (base_code problem) fixedCode
                (JS.str_or (filename problem) "main.py") w1 with
        | (Throw message, w2) => caught problem message (r2, w2)
        | (Ret patch, w2) => checkAndTest problem fixedCode (set_patch (Some patch) r2, w2)
        end
      else caught problem "Could not extract fixed code from analysis" (r1, w1)
  end.
Proof.
  unfold evaluateSteps, Eff.try_catch, caught, checkAndTest.
  unfold Eff.bind at 1. unfold lift at 1. cbn [fst snd].
  destruct (analyzeCode exchange a (base_code problem) (problem_statement problem) w)
    as [[analysis | message] w1]; [| reflexivity].
  ml.
  destruct (JS.truthy (Extract.extractFixedCode analysis)); cbn [negb]; [| reflexivity].
  ml. ml_call.
  destruct (generatePatch exchange a (base_code problem) _ _ w1)
    as [[patch | message] w2]; [| reflexivity].
  ml. ml_call.
  destruct (validateSyntax child_process clock _ w2) as [[[|] | message] w3];
    cbn [negb]; ml; try reflexivity.
  destruct (test_cases problem) as [[| t ts] |]; ml; try reflexivity.
  unfold Eff.bind at 1. unfold Eff.bind at 1. unfold lift at 1. cbn [fst snd].
  destruct (runTestCases child_process clock (t :: ts) _ problem w3)
    as [[trs | message] w4]; reflexivity.
Qed.

(** [evaluateProblem], around its [try] block. *)
Lemma evaluateProblem_unfold (ev : Evaluator) (problem : Problem) (w : World) :
  evaluateProblem exchange child_process clock ev problem w =
  let '(startTime, e1) := clock (ext w) in
  let '(timestamp, e2) := clock e1 in
  let r0 := mkResult (id problem) false None None None None [] 0 timestamp in
  let '(_, (r, w1)) :=
    evaluateSteps exchange child_process clock (agent ev) problem
      (r0, set_ext e2 (set_ext e1 w)) in
  let '(endTime, e3) := clock (ext w1) in
  let result := set_execution_time (endTime - startTime) r in
  (Ret (result, mkEvaluator (agent ev) (results ev ++ [result])), set_ext e3 w1).
Proof.
  unfold evaluateProblem. unfold Eff.bind at 1. unfold Date_now at 1.
  destruct (clock (ext w)) as [startTime e1].
  unfold Eff.bind at 1. unfold Date_now at 1. cbn [ext set_ext].
  destruct (clock e1) as [timestamp e2].
  destruct (evaluateSteps _ _ _ _ _ _) as [o [r w1]].
  unfold Eff.bind, Date_now. destruct (clock (ext w1)) as [endTime e3]. reflexivity.
Qed.

(** A request changes nothing of the world but what lies outside the
    program. *)
Lemma generate_frame (a : Agent) (prompt : string) (o : GenOptions) (w : World) :
  let w' := snd (generate exchange a prompt o w) in
  env w' = env w /\ heap w' = heap w /\ files w' = files w /\
  stderr_lines w' = stderr_lines w.
Proof.
  unfold generate. destruct (exchange _ (ext w)) as [r e]. repeat split.
Qed.





Lemma caught_patch (problem : Problem) (message : string)
    (s : EvaluationResult * World) :
  patch (fst (snd (caught problem message s))) = patch (fst s).
Proof. reflexivity. Qed.

Lemma checkAndTest_patch (problem : Problem) (fixedCode : string)
    (s : EvaluationResult * World) :
  patch (fst (snd (checkAndTest problem fixedCode s))) = patch (fst s).
Proof.
  unfold checkAndTest.
  destruct (validateSyntax child_process clock fixedCode (snd s))
    as [[[|] | message] w3]; try reflexivity.
  destruct (test_cases problem) as [[| t ts] |]; try reflexivity.
  destruct (runTestCases child_process clock (t :: ts) fixedCode problem w3)
    as [[trs | message] w4]; reflexivity.
Qed.

(** X5. A batch evaluated in two parts by the same evaluator is the batch
    evaluated at once: the second part starts from the evaluator and the world
    the first part left, and the results follow each other. *)
Theorem evaluateBatch_app (first rest : list Problem) :
  forall (ev : Evaluator) (w : World),
    evaluateBatch exchange child_process clock ev (first ++ rest) w =
    match evaluateBatch exchange child_process clock ev first w with
    | (Ret (rs1, ev1), w1) =>
        match evaluateBatch exchange child_process clock ev1 rest w1 with
        | (Ret (rs2, ev2), w2) => (Ret ((rs1 ++ rs2)%list, ev2), w2)
        | (Throw message, w2) => (Throw message, w2)
        end
    | (Throw message, w1) => (Throw message, w1)
    end.
Proof.
  induction first as [| p first IH]; intros ev w.
  - cbn [app evaluateBatch Eff.ret].
    destruct (evaluateBatch exchange child_process clock ev rest w)
      as [[[rs2 ev2] | message] w2]; reflexivity.
  - cbn [app evaluateBatch]. unfold Eff.bind at 1 3.
    destruct (evaluateProblem exchange child_process clock ev p w)
      as [[[r ev1] | message] w1]; [| reflexivity].
    unfold Eff.bind. rewrite IH.
    destruct (evaluateBatch exchange child_process clock ev1 first w1)
      as [[[rs1 ev2] | message] w2]; [| reflexivity].
    cbn [Eff.ret].
    destruct (evaluateBatch exchange child_process clock ev2 rest w2)
      as [[[rs2 ev3] | message] w3]; reflexivity.
Qed.

End Steps.

(** X6. Nothing is executed before the patch is there. An evaluation whose
    result has no [patch] (the analysis failed, no fix could be extracted, or
    the patch could not be generated) has started no child process and has
    written no file: it is the same whatever a child process would have
    answered, and the files are those it found. *)
Theorem evaluateProblem_no_patch_no_execution
    (child_process other : string -> gmap string string -> Ext -> ExecResult * gmap string string * Ext)
    (ev : Evaluator) (problem : Problem) (w : World) :
  match evaluateProblem exchange child_process clock ev problem w with
  | (Ret (r, ev'), w') =>
      patch r = None ->
      files w' = files w /\
      evaluateProblem exchange other clock ev problem w = (Ret (r, ev'), w')
  | (Throw _, _) => False
  end.
Proof.
  rewrite (evaluateProblem_unfold child_process), (evaluateProblem_unfold other).
  destruct (clock (ext w)) as [startTime e1]. destruct (clock e1) as [timestamp e2].
  cbn zeta.
  rewrite (evaluateSteps_unfold child_process), (evaluateSteps_unfold other).
  set (w0 := set_ext e2 (set_ext e1 w)).
  pose proof (generate_frame (agent ev)
                (analyzePrompt (base_code problem) (problem_statement problem))
                (mkGenOptions (Some 0.1%float) None None) w0) as Hframe1.
  cbn zeta in Hframe1. fold (analyzeCode exchange (agent ev) (base_code problem)
                               (problem_statement problem)) in Hframe1.
  destruct (analyzeCode exchange (agent ev) (base_code problem)
              (problem_statement problem) w0) as [[answer | message] w1].
  2:{ cbn [caught fst snd]. cbn [stderr_lines set_stderr ext].
      destruct (clock (ext w1)) as [endTime e3]. intros _.
      split; [| reflexivity]. cbn. apply Hframe1. }
  cbn zeta.
  destruct (JS.truthy (Extract.extractFixedCode answer)).
  2:{ cbn [caught fst snd]. cbn [stderr_lines set_stderr ext].
      destruct (clock (ext w1)) as [endTime e3]. intros _.
      split; [| reflexivity]. cbn. apply Hframe1. }
  set (fixedCode := default "" (Extract.extractFixedCode answer)).
  pose proof (generate_frame (agent ev)
                (patchPrompt (base_code problem) fixedCode
                   (JS.str_or (filename problem) "main.py"))
                (mkGenOptions (Some 0%float) None None) w1) as Hframe2.
  cbn zeta in Hframe2. fold (generatePatch exchange (agent ev) (base_code problem)
                               fixedCode (JS.str_or (filename problem) "main.py"))
    in Hframe2.
  destruct (generatePatch exchange (agent ev) (base_code problem) fixedCode _ w1)
    as [[diff | message] w2].
  2:{ cbn [caught fst snd]. cbn [stderr_lines set_stderr ext].
      destruct (clock (ext w2)) as [endTime e3]. intros _.
      split; [| reflexivity].
      destruct Hframe1 as (_ & _ & Hf1 & _). destruct Hframe2 as (_ & _ & Hf2 & _).
      subst w0. cbn [files set_stderr set_ext snd] in *. congruence. }
  match goal with
  | |- context [checkAndTest child_process problem fixedCode ?s] =>
      pose proof (checkAndTest_patch child_process problem fixedCode s) as Hpatch;
      destruct (checkAndTest child_process problem fixedCode s) as [o [r w3]]
  end.
  cbn [fst snd] in Hpatch.
  destruct (clock (ext w3)) as [endTime e3].
  cbn [patch set_execution_time]. rewrite Hpatch. discriminate.
Qed.

End PipelineFacts.

(** ** The agents *)

Section AgentFacts.
Context {Ext : Type}.
Variable exchange : Request -> Ext -> Response * Ext.

Abbreviation World := (@World Ext).

Lemma request_temperature (a : Agent) (prompt : string) (o : GenOptions) :
  rq_temperature (request a prompt o) = num_or (go_temperature o) 0.1%float.
Proof. unfold request. destruct (ag_kind a); reflexivity. Qed.

(** X7. A temperature of 0 in the options of [generate] is never sent. The
    temperature [generate] computes from [options.temperature] is never 0 and
    never [NaN]: a temperature of 0 is taken for none and replaced by 0.1
    ([options.modelOptions], which no caller passes, is left out of the
    requests here). So the generation of the patch and the connection test,
    which both ask for 0, send what they would send had they asked for 0.1. *)
Theorem temperature_zero_is_not_sent :
  (forall (a : Agent) prompt o,
      PrimFloat.eqb (rq_temperature (request a prompt o)) 0 = false /\
      PrimFloat.is_nan (rq_temperature (request a prompt o)) = false) /\
  (forall (a : Agent) prompt top_p max_tokens,
      request a prompt (mkGenOptions (Some 0%float) top_p max_tokens) =
      request a prompt (mkGenOptions (Some 0.1%float) top_p max_tokens)) /\
  (forall (a : Agent) originalCode fixedCode filename,
      generatePatch exchange a originalCode fixedCode filename =
      generate exchange a (patchPrompt originalCode fixedCode filename)
        (mkGenOptions (Some 0.1%float) None None)) /\
  (forall (a : Agent),
      rq_temperature (request a "Hello" (probeOptions (ag_kind a))) = 0.1%float).
Proof.
  split; [| split; [| split]].
  - intros a prompt o. rewrite request_temperature. unfold num_or.
    destruct (go_temperature o) as [v |]; [| split; reflexivity].
    destruct (PrimFloat.eqb v 0 || PrimFloat.is_nan v) eqn:Hv; [split; reflexivity |].
    apply orb_false_iff in Hv. exact Hv.
  - intros a prompt top_p max_tokens. unfold request.
    destruct (ag_kind a); reflexivity.
  - intros a originalCode fixedCode filename. unfold generatePatch, generate, request.
    destruct (ag_kind a); reflexivity.
  - intros a. rewrite request_temperature. destruct (ag_kind a); reflexivity.
Qed.

(** X8. What the connection test answers. When the request fails it answers
    [false] after a line on [console.error]. When the provider answers, the
    test is [true] exactly for a text that is not empty, and nothing is
    printed; an empty text gives [false] with no line printed, which cannot
    happen with the Claude agent, whose [generate] rejects an empty text. *)
Theorem testConnection_answer (a : Agent) (w : World) :
  match generate exchange a "Hello" (probeOptions (ag_kind a)) w with
  | (Ret response, w1) =>
      testConnection exchange a w = (Ret (negb (String.eqb response "")), w1) /\
      stderr_lines w1 = stderr_lines w /\
      (response = "" -> ag_kind a <> Claude)
  | (Throw message, w1) =>
      exists w2, testConnection exchange a w = (Ret false, w2) /\
                 length (stderr_lines w2) = S (length (stderr_lines w))
  end.
Proof.
  unfold testConnection, Eff.try_catch, Eff.bind.
  pose proof (generate_frame exchange a "Hello" (probeOptions (ag_kind a)) w) as Hframe.
  destruct (generate exchange a "Hello" (probeOptions (ag_kind a)) w)
    as [[response | message] w1] eqn:Hgen.
  - cbn [Eff.ret]. split; [| split].
    + destruct response; reflexivity.
    + apply Hframe.
    + intros -> Hkind. unfold generate in Hgen.
      destruct (exchange _ (ext w)) as [r e]. injection Hgen as Hsettle _.
      unfold settle in Hsettle. rewrite Hkind in Hsettle.
      destruct r as [m | m | | [m | m | text |]]; try discriminate.
      destruct (JS.truthy text) eqn:Ht; [| discriminate].
      destruct text as [t |]; [| discriminate]. cbn in Hsettle, Ht.
      injection Hsettle as ->. discriminate Ht.
  - eexists. split; [reflexivity |].
    cbn [console_error Eff.modify Eff.ret snd stderr_lines set_stderr].
    destruct Hframe as (_ & _ & _ & Hs). cbn [snd] in Hs.
    rewrite length_app, Hs. cbn. lia.
Qed.

End AgentFacts.

(** ** The factory *)

Section FactoryFacts.
Context {Ext : Type}.

Abbreviation World := (@World Ext).

Ltac eff_step :=
  cbn [Eff.bind Eff.ret Eff.throw Eff.get Eff.modify Eff.try_catch Eff.settled
       optionsArg readOptions writeModel fst snd
       env heap files stderr_lines ext set_heap set_files set_stderr set_ext].

(** Where a request carries the key of the agent. *)
Definition carriesKey (r : Request) (k : Provider) (key : string) : Prop :=
  match k with
  | Ollama => True
  | OpenAI => lookup_obj (rq_headers r) "Authorization" = Some ("Bearer " +:+ key)
  | Gemini =>
      rq_path r = "/v1/models/" +:+ rq_model r +:+ ":generateContent?key=" +:+ key
  | Claude => lookup_obj (rq_headers r) "x-api-key" = Some key
  end.

(** X9. The key of a cloud agent. For a provider that requires one variable of
    the environment, [createAgent] takes the key from [options.apiKey] when
    that is not empty and from that same variable otherwise; with neither it
    throws. It leaves the options and the world as they are, and every
    request of the agent it returns carries that key. *)
Theorem createAgent_key_source (provider var : string) (l : nat) (w : World) :
  lookup_obj getRequiredEnvVars (JS.toLowerCase provider) = Some [var] ->
  let o := default emptyOptions (heap w !! l) in
  let key := JS.or_else (opt_apiKey o) (env w !! var) in
  if JS.truthy key
  then exists a,
         createAgent provider (Some l) w = (Ret a, w) /\
         Some (ag_kind a) = kindOf provider /\
         ag_apiKey a = key /\
         forall prompt go,
           carriesKey (request a prompt go) (ag_kind a) (default "" key)
  else exists message,
         createAgent provider (Some l) w = (Throw message, w) /\
         JS.includes message "API key required" = true.
Proof.
  intros Hvars o key. subst key o.
  unfold createAgent, kindOf.
  destruct (known_provider _ _ Hvars) as [[Hp Hv] | [[Hp Hv] | [[Hp Hv] | [Hp Hv]]]];
    [discriminate Hv | | |]; injection Hv as ->;
    rewrite Hp; cbn [String.eqb Ascii.eqb Bool.eqb lookup_obj];
    unfold OpenAIAgent, GeminiAgent, ClaudeAgent, cloudAgent; eff_step;
    destruct (JS.truthy (JS.or_else _ _)) eqn:Hkey; eff_step;
    try (eexists; split; [reflexivity | vm_compute; reflexivity]);
    (eexists; split; [reflexivity |]; split; [reflexivity |]; split; [reflexivity |];
     intros prompt go; unfold request, carriesKey, key_of; cbn; reflexivity).
Qed.

(** Two runs that end the same way in the same world, but for the message
    when both throw. *)
Definition sameButMessage {A} (x y : outcome A * World) : Prop :=
  snd x = snd y /\
  match fst x, fst y with
  | Ret a, Ret b => a = b
  | Throw _, Throw _ => True
  | _, _ => False
  end.

Lemma createAgent_same_tag (p q : string) (options : option nat) (w : World) :
  JS.toLowerCase p = JS.toLowerCase q ->
  sameButMessage (createAgent p options w) (createAgent q options w).
Proof.
  intros H. unfold createAgent, Eff.bind.
  destruct (optionsArg options w) as [[l | m] w0]; [| split; [reflexivity | exact I]].
  rewrite H.
  repeat match goal with
         | |- context [String.eqb ?a ?b] => destruct (String.eqb a b)
         end;
    try (split; [reflexivity | exact I]);
    match goal with
    | |- sameButMessage ?x ?x => split; [reflexivity | destruct (fst x); auto]
    end.
Qed.

(** X10. The tag of a provider counts up to the case of its letters. Two tags that
    are the same in lower case make [createAgent] and [createValidatedAgent]
    end the same way: with the same agent and the same world, or both with an
    error, whose message alone may differ (it quotes the tag as given). *)
Theorem factory_ignores_case (p q : string) (options : option nat) (w : World) :
  JS.toLowerCase p = JS.toLowerCase q ->
  sameButMessage (createAgent p options w) (createAgent q options w) /\
  sameButMessage (createValidatedAgent p options w) (createValidatedAgent q options w).
Proof.
  intros H. split; [apply createAgent_same_tag, H |].
  assert (Hmodel : forall m, isValidProviderModel p m = isValidProviderModel q m).
  { intros m. unfold isValidProviderModel. rewrite H. reflexivity. }
  unfold createValidatedAgent, validateEnvironment. rewrite H.
  destruct options as [l |]; eff_step;
    (destruct (readProperty getRequiredEnvVars (JS.toLowerCase q)) as [vars | |];
     eff_step; cbn [valid envError negb]; eff_step;
     try (split; [reflexivity | exact I]);
     match goal with
     | |- context [(?n =? 0)%nat] =>
         destruct (n =? 0)%nat; cbn [negb]; [| split; [reflexivity | exact I]]
     end;
     eff_step;
     match goal with
     | |- context [JS.truthy ?m] => destruct (JS.truthy m); cbn [negb]
     end;
     eff_step; rewrite Hmodel;
     match goal with
     | |- context [isValidProviderModel q ?m] =>
         destruct (isValidProviderModel q m) as [[|] | message]; eff_step;
           cbn [negb];
           [apply (createAgent_same_tag p q (Some _)), H
           | split; [reflexivity | exact I]
           | split; [reflexivity | exact I]]
     end).
Qed.

End FactoryFacts.

(** ** The best performer *)

Section ComparisonFacts.
Context {Ext : Type}.
Variable exchange : Request -> Ext -> Response * Ext.
Variable child_process : string -> gmap string string -> Ext -> ExecResult * gmap string string * Ext.
Variable clock : Ext -> Z * Ext.

Abbreviation World := (@World Ext).

Lemma byRate_refl (x : Rated) : numericRate x -> byRate x x = 0%Z.
Proof. intros Hx. pose proof (byRate_opp x x Hx Hx). lia. Qed.

(** The comparison returns, with entries as the loop stores them. *)
Lemma compareProviders_returns (providers : string) (problems : list Problem)
    (w : World) :
  (Z.of_nat (length problems) < 2 ^ 53)%Z ->
  exists res w',
    compareProviders exchange child_process clock providers problems w = (Ret res, w') /\
    goodObject (provider_results res) /\
    comparison_summary res = generateComparisonSummary (provider_results res).
Proof.
  intros Hsize. unfold compareProviders, Eff.bind at 1, Date_now.
  destruct (clock (ext w)) as [timestamp e].
  assert (Hempty : goodObject []) by (split; constructor).
  destruct (compareLoop_returns exchange child_process clock problems Hsize
              (map JS.trim (JS.split "," providers)) [] (set_ext e w) Hempty)
    as (entries & w' & Hloop & Hgood).
  unfold Eff.bind, Eff.ret. rewrite Hloop. eexists _, w'.
  split; [reflexivity |]. split; [exact Hgood | reflexivity].
Qed.

(** X11. The best performer of a comparison, on fewer than [2^53] problems. When
    no provider has a report the summary is the initial one: no best
    performer, an empty ranking and the average never computed. Otherwise the
    best performer is the first of the ranking: no ranked provider has a
    higher rate, and among the providers with that same rate it is the one
    whose entry was stored first. *)
Theorem compareProviders_best_performer (providers : string)
    (problems : list Problem) (w : World) :
  (Z.of_nat (length problems) < 2 ^ 53)%Z ->
  exists res w',
    compareProviders exchange child_process clock providers problems w = (Ret res, w') /\
    let entries := provider_results res in
    let summary := comparison_summary res in
    match validResults entries with
    | [] =>
        List.filter isReported entries = [] /\
        summary = mkComparisonSummary None [] None
    | best :: others =>
        best_performer summary = Some (provider best) /\
        Forall (descending best) others /\
        head (List.filter (sameRate best)
                (map ratedOf (List.filter isReported entries))) = Some best /\
        exists rendered, average_success_rate summary = Some rendered
    end.
Proof.
  intros Hsize.
  destruct (compareProviders_returns providers problems w Hsize)
    as (res & w' & Hrun & [Hentries Hkeys] & Hsummary).
  exists res, w'. split; [exact Hrun |]. cbn zeta. rewrite Hsummary.
  pose proof (reported_numeric _ Hentries) as Hnum.
  pose proof (validResults_reported child_process _ Hentries) as Hvalid.
  pose proof (sort_sorted byRate numericRate byRate_opp byRate_trans _ Hnum) as Hsorted.
  rewrite <- Hvalid in Hsorted.
  unfold generateComparisonSummary.
  destruct (validResults (provider_results res)) as [| best others] eqn:Hranked.
  - split; [| reflexivity].
    apply (f_equal (@length Rated)) in Hvalid.
    rewrite sort_length, length_map in Hvalid.
    destruct (List.filter isReported (provider_results res)); [reflexivity | discriminate].
  - cbn [best_performer average_success_rate].
    split; [reflexivity |]. split; [| split; [| eauto]].
    + apply StronglySorted_inv in Hsorted. apply Hsorted.
    + assert (Hbest : numericRate best).
      { rewrite List.Forall_forall in Hnum. apply Hnum.
        apply (sort_In byRate). rewrite <- Hvalid. left. reflexivity. }
      pose proof (sort_stable byRate numericRate byRate_opp byRate_trans best _
                    Hbest Hnum) as Hstable.
      rewrite <- Hvalid in Hstable.
      change (tie byRate best) with (sameRate best) in Hstable.
      rewrite <- Hstable. cbn [List.filter]. unfold sameRate at 1.
      rewrite (byRate_refl best Hbest). reflexivity.
Qed.

End ComparisonFacts.

(** ** The loader of problems *)

Module LoaderFacts.
Import Loader.

(** The field holds a string that is not empty. *)
Definition text (problem : list (string * JSON)) (field : string) : Prop :=
  exists s, lookup_obj problem field = Some (JStr s) /\ s <> "".

(** What [validateProblem] accepts: an object whose [id],
    [problem_statement] and [base_code] are strings that are not empty, whose
    [test_cases] is an array or falsy (absent, [null], [false], [0], the
    empty string) and whose [expected_patch] is a string or falsy. *)
Definition wellFormed (problem : JSON) : Prop :=
  exists properties,
    problem = JObj properties /\
    text properties "id" /\
    text properties "problem_statement" /\
    text properties "base_code" /\
    (truthy (lookup_obj properties "test_cases") = false \/
     isArray (lookup_obj properties "test_cases") = true) /\
    (truthy (lookup_obj properties "expected_patch") = false \/
     isString (lookup_obj properties "expected_patch") = true).

Lemma text_checks (properties : list (string * JSON)) (field : string) :
  text properties field <->
  truthy (lookup_obj properties field) = true /\
  isString (lookup_obj properties field) = true.
Proof.
  unfold text. split.
  - intros (s & -> & Hs). cbn. split; [| reflexivity].
    destruct (String.eqb_spec s ""); [contradiction | reflexivity].
  - intros [Ht Hs]. destruct (lookup_obj properties field) as [[| | | s | |] |];
      try discriminate. exists s. split; [reflexivity |]. intros ->. discriminate Ht.
Qed.

Lemma validateProblem_wellFormed (problem : JSON) :
  validateProblem problem = Ret tt <-> wellFormed problem.
Proof.
  unfold wellFormed. split.
  - destruct problem as [| b | x | s | l | o]; try discriminate.
    intros H. exists o. split; [reflexivity |].
    rewrite !text_checks.
    unfold validateProblem, requiredFields in H. cbn [requireFields get andThen] in H.
    destruct (truthy (lookup_obj o "id")); [| discriminate H].
    destruct (truthy (lookup_obj o "problem_statement")); [| discriminate H].
    destruct (truthy (lookup_obj o "base_code")); [| discriminate H].
    cbn [negb andThen] in H.
    destruct (isString (lookup_obj o "id")); [| discriminate H].
    destruct (isString (lookup_obj o "problem_statement")); [| discriminate H].
    destruct (isString (lookup_obj o "base_code")); [| discriminate H].
    cbn [negb] in H.
    destruct (truthy (lookup_obj o "test_cases")),
             (isArray (lookup_obj o "test_cases")); try discriminate H;
      destruct (truthy (lookup_obj o "expected_patch")),
               (isString (lookup_obj o "expected_patch")); try discriminate H;
      auto 10.
  - intros (o & -> & Hid & Hst & Hcode & Htests & Hpatch).
    apply text_checks in Hid, Hst, Hcode.
    destruct Hid as [Hid1 Hid2], Hst as [Hst1 Hst2], Hcode as [Hc1 Hc2].
    unfold validateProblem, requiredFields. cbn [requireFields get andThen].
    rewrite Hid1, Hst1, Hc1, Hid2, Hst2, Hc2. cbn [negb andThen].
    destruct Htests as [-> | ->], Hpatch as [-> | ->];
      rewrite ?andb_false_r; reflexivity.
Qed.

(** X12. [validateProblem] returns exactly for the problems that are well formed
    and throws for every other value; in particular a problem whose
    [test_cases] is [0], [false] or the empty string is accepted. *)
Theorem validateProblem_accepts (problem : JSON) :
  (validateProblem problem = Ret tt <-> wellFormed problem) /\
  (forall message, validateProblem problem = Throw message -> ~ wellFormed problem).
Proof.
  split; [apply validateProblem_wellFormed |].
  intros message H Hwell. apply validateProblem_wellFormed in Hwell. congruence.
Qed.

Lemma requireFields_missing (o : list (string * JSON)) (before after : list string)
    (field : string) :
  Forall (fun g => truthy (lookup_obj o g) = true) before ->
  truthy (lookup_obj o field) = false ->
  requireFields (JObj o) (before ++ field :: after) =
  Throw ("Problem missing required field: " +:+ field).
Proof.
  intros Hbefore Hfield. induction Hbefore as [| g before Hg Hbefore IH].
  - cbn [app requireFields get andThen]. rewrite Hfield. reflexivity.
  - cbn [app requireFields get andThen]. rewrite Hg. exact IH.
Qed.

(** X13. The required fields are looked at first, in the order [id],
    [problem_statement], [base_code]: the error names the first of them that
    is absent or falsy, whatever the types of the other fields are. *)
Theorem validateProblem_first_missing_field (o : list (string * JSON))
    (before after : list string) (field : string) :
  requiredFields = (before ++ field :: after)%list ->
  Forall (fun g => truthy (lookup_obj o g) = true) before ->
  truthy (lookup_obj o field) = false ->
  validateProblem (JObj o) = Throw ("Problem missing required field: " +:+ field).
Proof.
  intros Hfields Hbefore Hfield. unfold validateProblem. rewrite Hfields.
  rewrite (requireFields_missing o before after field Hbefore Hfield). reflexivity.
Qed.

Lemma validateAll_returns (tasks problems : list JSON) :
  validateAll tasks = Ret problems <-> problems = tasks /\ Forall wellFormed tasks.
Proof.
  revert problems. induction tasks as [| task tasks IH]; intros problems; cbn [validateAll].
  - split; [intros H; injection H as <-; auto | intros [-> _]; reflexivity].
  - destruct (validateProblem task) as [[] | message] eqn:Htask; cbn [andThen].
    + apply validateProblem_wellFormed in Htask.
      destruct (validateAll tasks) as [rest | message] eqn:Hrest; cbn [andThen].
      * destruct (proj1 (IH rest) eq_refl) as [-> Hall]. split.
        -- intros H. injection H as <-. auto.
        -- intros [-> _]. reflexivity.
      * split; [discriminate |]. intros [-> Hall].
        inversion Hall as [| ? ? _ Hall']; subst.
        discriminate (proj2 (IH tasks) (conj eq_refl Hall')).
    + split; [discriminate |]. intros [_ Hall].
      inversion Hall as [| ? ? Hwell _]; subst.
      apply validateProblem_wellFormed in Hwell. congruence.
Qed.

Lemma validateAll_first_invalid (good rest : list JSON) (bad : JSON) (cause : string) :
  Forall wellFormed good ->
  validateProblem bad = Throw cause ->
  validateAll (good ++ bad :: rest) = Throw cause.
Proof.
  intros Hgood Hbad. induction Hgood as [| task good Htask Hgood IH];
    cbn [app validateAll].
  - rewrite Hbad. reflexivity.
  - apply validateProblem_wellFormed in Htask. rewrite Htask. cbn [andThen].
    rewrite IH. reflexivity.
Qed.

(** The error a batch that cannot be loaded is reported with. *)
Definition batchError (filePath cause : string) : string :=
  "Failed to load batch from " +:+ filePath +:+ ": " +:+ cause.

(** X14. A batch is loaded whole or not at all. [loadBatch] returns exactly when the
    file holds an object whose [tasks] is an array of well-formed problems, and
    then it returns these tasks, all of them, as they are and in their order.
    Every error it throws names the file, and when a task is not well formed
    the error is that of the first such task: the tasks before it are lost. *)
Theorem loadBatch_all_or_nothing (filePath : string) (parsed : outcome JSON) :
  (forall problems,
      loadBatch filePath parsed = Ret problems <->
      exists batch,
        parsed = Ret batch /\
        get batch "tasks" = Ret (Some (JArr problems)) /\
        Forall wellFormed problems) /\
  (forall message,
      loadBatch filePath parsed = Throw message ->
      exists cause, message = batchError filePath cause) /\
  (forall batch good bad rest cause,
      parsed = Ret batch ->
      get batch "tasks" = Ret (Some (JArr (good ++ bad :: rest))) ->
      Forall wellFormed good ->
      validateProblem bad = Throw cause ->
      loadBatch filePath parsed = Throw (batchError filePath cause)).
Proof.
  unfold loadBatch, rethrow. split; [| split].
  - intros problems. split.
    + destruct parsed as [batch | message]; cbn [andThen]; [| discriminate].
      destruct (get batch "tasks") as [tasks | message] eqn:Hget; cbn [andThen];
        [| discriminate].
      destruct tasks as [[| b | x | s | tasks | o] |];
        cbn [truthy isArray negb]; rewrite ?orb_true_r; cbn [orb]; try discriminate.
      destruct (validateAll tasks) as [l |] eqn:Hall; [| discriminate].
      intros H. injection H as <-.
      apply validateAll_returns in Hall. destruct Hall as [-> Hall]. eauto.
    + intros (batch & -> & Htasks & Hall). cbn [andThen]. rewrite Htasks.
      cbn [andThen truthy isArray negb orb].
      rewrite (proj2 (validateAll_returns problems problems) (conj eq_refl Hall)).
      reflexivity.
  - intros message.
    destruct (andThen parsed _) as [l | cause]; [discriminate |].
    intros H. injection H as <-. exists cause. reflexivity.
  - intros batch good bad rest cause -> Htasks Hgood Hbad. cbn [andThen].
    rewrite Htasks. cbn [andThen truthy isArray negb orb].
    rewrite (validateAll_first_invalid good rest bad cause Hgood Hbad). reflexivity.
Qed.

Lemma orDefault_checks (v : option JSON) (d : JSON) (check : option JSON -> bool) :
  truthy (Some d) = false \/ check (Some d) = true ->
  (truthy (Some (orDefault v d)) = false \/ check (Some (orDefault v d)) = true) <->
  (truthy v = false \/ check v = true).
Proof.
  intros Hd. unfold orDefault. destruct v as [x |].
  - destruct (truthy (Some x)) eqn:Hx.
    + rewrite Hx. reflexivity.
    + split; auto.
  - split; intros _; [left; reflexivity | exact Hd].
Qed.

(** X15. What [createProblem] makes of three texts and an options object is a
    problem that [validateProblem] accepts exactly when none of the three
    texts is empty and the options hold an array or nothing for [test_cases]
    and a string or nothing for [expected_patch]: the defaults it fills in
    are well formed. *)
Theorem createProblem_validates (id statement code : string)
    (options : list (string * JSON)) (created_at : string) :
  exists problem,
    createProblem id statement code (JObj options) created_at = Ret problem /\
    (validateProblem problem = Ret tt <->
     id <> "" /\ statement <> "" /\ code <> "" /\
     (truthy (lookup_obj options "test_cases") = false \/
      isArray (lookup_obj options "test_cases") = true) /\
     (truthy (lookup_obj options "expected_patch") = false \/
      isString (lookup_obj options "expected_patch") = true)).
Proof.
  eexists. split; [reflexivity |].
  rewrite validateProblem_wellFormed. unfold wellFormed, text. split.
  - intros (o & Ho & (s1 & H1 & Hn1) & (s2 & H2 & Hn2) & (s3 & H3 & Hn3) & Ht & Hp).
    injection Ho as <-. cbn [lookup_obj String.eqb Ascii.eqb Bool.eqb] in *.
    injection H1 as <-. injection H2 as <-. injection H3 as <-.
    apply orDefault_checks in Ht; [| right; reflexivity].
    apply orDefault_checks in Hp; [| left; reflexivity]. auto.
  - intros (Hn1 & Hn2 & Hn3 & Ht & Hp). eexists. split; [reflexivity |].
    cbn [lookup_obj String.eqb Ascii.eqb Bool.eqb].
    repeat split; eauto.
    + apply orDefault_checks; [right; reflexivity | exact Ht].
    + apply orDefault_checks; [left; reflexivity | exact Hp].
Qed.

End LoaderFacts.

(** ** The limit *)

Module LimitFacts.
Import Limit.

Lemma no_hexPrefix (l : list ascii) :
  forallb Num.is_digit l = true -> hexPrefix l = false.
Proof.
  destruct l as [| a [| c l]]; [reflexivity | |].
  - intros _. destruct a as [[] [] [] [] [] [] [] []]; reflexivity.
  - cbn [forallb]. intros H.
    apply andb_true_iff in H. destruct H as [_ H].
    apply andb_true_iff in H. destruct H as [Hc _].
    destruct a as [[] [] [] [] [] [] [] []]; try reflexivity;
      destruct c as [[] [] [] [] [] [] [] []]; try reflexivity; discriminate Hc.
Qed.

Lemma parse_digits {B} (l : list ascii) (f : N -> B) :
  forallb Num.is_digit l = true -> l <> [] ->
  (let '(value, count) :=
     if hexPrefix l then read_hex (drop 2 l) 0%N 0
     else let '(v, n, _) := Num.read_digits l 0%N 0 in (v, n) in
   if (count =? 0)%nat then None else Some (f value)) = Some (f (NumFacts.valueL l)).
Proof.
  intros Hl Hne. rewrite (no_hexPrefix l Hl).
  pose proof (NumFacts.read_digits_all l [] Hl I 0%N 0%nat) as H.
  rewrite app_nil_r in H. rewrite H. cbn [Nat.add].
  destruct l; [contradiction | reflexivity].
Qed.

Lemma sign_none (c : ascii) (r : list ascii) :
  negb (Ascii.eqb c "-") && negb (Ascii.eqb c "+") = true ->
  sign (c :: r) = (false, c :: r).
Proof.
  destruct c as [[] [] [] [] [] [] [] []]; try reflexivity; discriminate.
Qed.

Lemma sign_digit (d : ascii) (r : list ascii) :
  Num.is_digit d = true -> sign (d :: r) = (false, d :: r).
Proof.
  intros H. apply sign_none.
  destruct d as [[] [] [] [] [] [] [] []]; try reflexivity; discriminate H.
Qed.

Lemma valueL_digitsL (n : N) : NumFacts.valueL (Num.digitsL n) = n.
Proof.
  destruct (NumFacts.digitsL_spec n) as (_ & _ & H).
  unfold NumFacts.valueL. rewrite H. lia.
Qed.

Lemma parseInt_numeral (n : N) : parseInt (Num.ofN n) = Some (Z.of_N n).
Proof.
  unfold parseInt, Num.ofN. rewrite list_ascii_of_string_of_list_ascii.
  destruct (NumFacts.digitsL_spec n) as (Hdigits & Hne & _).
  pose proof (parse_digits (Num.digitsL n) Z.of_N Hdigits Hne) as Hparse.
  rewrite valueL_digitsL in Hparse.
  destruct (Num.digitsL n) as [| d r] eqn:Hd; [contradiction |].
  assert (Hdig : Num.is_digit d = true)
    by (cbn [forallb] in Hdigits; apply andb_true_iff in Hdigits; apply Hdigits).
  cbn [JS.trimStartL]. rewrite (NumFacts.digit_not_ws d Hdig).
  rewrite (sign_digit d r Hdig). exact Hparse.
Qed.

Lemma parseInt_negative (n : N) :
  parseInt ("-" +:+ Num.ofN n) = Some (- Z.of_N n)%Z.
Proof.
  unfold parseInt, Num.ofN.
  change (list_ascii_of_string ("-" +:+ ?s)) with ("-"%char :: list_ascii_of_string s).
  rewrite list_ascii_of_string_of_list_ascii.
  destruct (NumFacts.digitsL_spec n) as (Hdigits & Hne & _).
  pose proof (parse_digits (Num.digitsL n) (fun v => (- Z.of_N v)%Z) Hdigits Hne)
    as Hparse.
  rewrite valueL_digitsL in Hparse.
  cbn [JS.trimStartL]. change (JS.is_ws "-") with false. cbn iota.
  change (sign ("-"%char :: ?l)) with (true, l). exact Hparse.
Qed.

(** The first character of [limit] that is not white space is neither a
    digit nor a sign, or there is none. *)
Definition noNumber (limit : string) : bool :=
  match JS.trimStartL (list_ascii_of_string limit) with
  | c :: _ => negb (Num.is_digit c) && negb (Ascii.eqb c "-") && negb (Ascii.eqb c "+")
  | [] => true
  end.

Lemma parseInt_noNumber (limit : string) : noNumber limit = true -> parseInt limit = None.
Proof.
  unfold noNumber, parseInt.
  destruct (JS.trimStartL (list_ascii_of_string limit)) as [| c r]; [reflexivity |].
  intros H. apply andb_true_iff in H. destruct H as [H Hplus].
  apply andb_true_iff in H. destruct H as [Hdigit Hminus].
  rewrite sign_none by (now rewrite Hminus, Hplus).
  assert (Hhex : hexPrefix (c :: r) = false).
  { destruct c as [[] [] [] [] [] [] [] []]; try reflexivity; discriminate. }
  rewrite Hhex. cbn [Num.read_digits].
  destruct (Num.is_digit c); [discriminate | reflexivity].
Qed.

Lemma ofN_truthy (n : N) : JS.truthy (Some (Num.ofN n)) = true.
Proof.
  unfold Num.ofN. destruct (NumFacts.digitsL_spec n) as (_ & Hne & _).
  destruct (Num.digitsL n); [contradiction | reflexivity].
Qed.

(** X16. How the limit cuts the list of problems, in [compareProviders]
    ([limitProblems]) and in the two [evaluateBatch] commands
    ([limitIfGiven]). In both, a decimal numeral [n] keeps the first [n]
    problems (all of them when there are fewer) and the numeral of a negative
    number [-n] drops the last [n] problems. A limit that holds no number at
    its start keeps no problem at all, but for the empty limit in
    [evaluateBatch], whose guard then leaves every problem in, as it does
    when no limit is given. *)
Theorem limitProblems_cuts {A} (problems : list A) :
  (forall n,
      limitProblems (Num.ofN n) problems = take (N.to_nat n) problems /\
      limitIfGiven (Some (Num.ofN n)) problems = take (N.to_nat n) problems) /\
  (forall n, (0 < n)%N ->
      limitProblems ("-" +:+ Num.ofN n) problems =
        take (length problems - N.to_nat n) problems /\
      limitIfGiven (Some ("-" +:+ Num.ofN n)) problems =
        take (length problems - N.to_nat n) problems) /\
  (forall limit, noNumber limit = true ->
      limitProblems limit problems = [] /\
      limitIfGiven (Some limit) problems =
        if String.eqb limit "" then problems else []) /\
  limitIfGiven None problems = problems.
Proof.
  assert (Hnumeral : forall n,
            limitProblems (Num.ofN n) problems = take (N.to_nat n) problems).
  { intros n. unfold limitProblems. rewrite parseInt_numeral. unfold slice_to.
    destruct (Z.ltb_spec (Z.of_N n) 0); [lia |]. f_equal. lia. }
  assert (Hnegative : forall n, (0 < n)%N ->
            limitProblems ("-" +:+ Num.ofN n) problems =
            take (length problems - N.to_nat n) problems).
  { intros n Hn. unfold limitProblems. rewrite parseInt_negative. unfold slice_to.
    destruct (Z.ltb_spec (- Z.of_N n) 0) as [Hneg | Hpos]; [| lia].
    f_equal. lia. }
  assert (Hnone : forall limit, noNumber limit = true ->
            limitProblems limit problems = []).
  { intros limit H. unfold limitProblems. rewrite (parseInt_noNumber limit H).
    reflexivity. }
  split; [| split; [| split]].
  - intros n. split; [apply Hnumeral |].
    unfold limitIfGiven. rewrite ofN_truthy. apply Hnumeral.
  - intros n Hn. split; [apply Hnegative, Hn |].
    unfold limitIfGiven. cbn [JS.truthy default from_option Datatypes.id].
    change (String.eqb ("-" +:+ Num.ofN n) "") with false. cbn [negb].
    apply Hnegative, Hn.
  - intros limit H. split; [apply Hnone, H |].
    unfold limitIfGiven. cbn [JS.truthy default from_option Datatypes.id].
    destruct (String.eqb limit ""); cbn [negb]; [reflexivity | apply Hnone, H].
  - reflexivity.
Qed.

End LimitFacts.

(** ** The report *)

Section ReportFacts.
Context {Ext : Type}.
Variable clock : Ext -> Z * Ext.

Abbreviation World := (@World Ext).

(** The type of an error: the text of its message before the first colon. *)
Definition typeOf (message : string) : string :=
  default "" (head (JS.split ":" message)).

(** The type of the error of a result. *)
Definition errorType (r : EvaluationResult) : string :=
  typeOf (default "" (error r)).

(** The result carries an error. *)
Definition hasError (r : EvaluationResult) : bool := JS.truthy (error r).

Definition ownName (k : string) : Prop := ~ In k inheritedNames.

(** The results of type [k] among those that carry an error. *)
Definition ofType (k : string) (results : list EvaluationResult) : nat :=
  length (List.filter (fun r => String.eqb (errorType r) k)
            (List.filter hasError results)).

Lemma lookup_counted (k : string) (l : list EvaluationResult) :
  forall acc,
    lookup_obj
      (fold_left (fun errorTypes r => countError errorTypes (errorType r)) l acc) k =
    match lookup_obj acc k, length (List.filter (fun r => String.eqb (errorType r) k) l) with
    | None, O => None
    | c, n => Some (default 0 c + n)%nat
    end.
Proof.
  induction l as [| r l IH]; intros acc; cbn [fold_left List.filter length].
  - destruct (lookup_obj acc k); cbn; [f_equal; lia | reflexivity].
  - rewrite IH. unfold countError. rewrite lookup_obj_set.
    destruct (String.eqb_spec (errorType r) k) as [-> | Hne]; cbn [length].
    + destruct (lookup_obj acc k) as [c |]; cbn [default from_option Datatypes.id];
        f_equal; lia.
    + reflexivity.
Qed.

Lemma obj_set_names {A} (o : list (string * A)) (k k' : string) (v : A) :
  In k' (map fst (obj_set o k v)) -> k' = k \/ In k' (map fst o).
Proof.
  induction o as [| [k0 v0] o IH]; cbn [obj_set map fst In].
  - intros [H | []]. left. congruence.
  - destruct (String.eqb_spec k0 k) as [-> | Hne]; cbn [map fst In].
    + intros [H | H]; [left; congruence | right; right; exact H].
    + intros [H | H]; [right; left; exact H |].
      destruct (IH H) as [Hk | Hin]; [left; exact Hk | right; right; exact Hin].
Qed.

Lemma obj_set_distinct {A} (o : list (string * A)) (k : string) (v : A) :
  List.NoDup (map fst o) -> List.NoDup (map fst (obj_set o k v)).
Proof.
  induction o as [| [k0 v0] o IH]; cbn [obj_set map fst]; intros Hnd.
  - constructor; [intros [] | constructor].
  - inversion Hnd as [| ? ? Hnotin Hnd']; subst.
    destruct (String.eqb_spec k0 k) as [-> | Hne]; cbn [map fst].
    + constructor; assumption.
    + constructor; [| apply IH, Hnd'].
      intros Hin. apply obj_set_names in Hin.
      destruct Hin as [-> | Hin]; [congruence | contradiction].
Qed.

Lemma counted_keys (l : list EvaluationResult) :
  forall acc,
    List.NoDup (map fst acc) ->
    List.NoDup
      (map fst (fold_left (fun errorTypes r => countError errorTypes (errorType r)) l acc)).
Proof.
  induction l as [| r l IH]; intros acc Hacc; cbn [fold_left]; [exact Hacc |].
  apply IH. unfold countError. apply obj_set_distinct, Hacc.
Qed.

Lemma filter_complement {A} (f : A -> bool) (l : list A) :
  (length (List.filter f l) + length (List.filter (fun x => negb (f x)) l) = length l)%nat.
Proof.
  induction l as [| x l IH]; [reflexivity |].
  cbn [List.filter]. destruct (f x); cbn [negb length]; lia.
Qed.

(** X17. The counts of a report. The successes and the failures add up to the
    total, the failures are the results that are no success, and the results
    are handed on as they are. [error_analysis] has one entry for each type of
    error, the text of an error before its first colon, and the entry counts
    the results with an error of that type, provided no type is a name every
    object inherits. *)
Theorem generateReport_counts (results : list EvaluationResult) (w : World) :
  Forall ownName (map errorType (List.filter hasError results)) ->
  match generateReport clock results w with
  | (Ret report, w') =>
      total_problems (summary report) =
        (successful_solutions (summary report) + failed_solutions (summary report))%nat /\
      failed_solutions (summary report) =
        length (List.filter (fun r => negb (success r)) results) /\
      detailed_results report = results /\
      List.NoDup (map fst (error_analysis report)) /\
      forall k,
        lookup_obj (error_analysis report) k =
        match ofType k results with
        | O => None
        | n => Some n
        end
  | (Throw _, _) => False
  end.
Proof.
  intros _. unfold generateReport, Eff.bind, Date_now.
  destruct (clock (ext w)) as [t e]. cbn [Eff.ret summary total_problems
    successful_solutions failed_solutions detailed_results error_analysis].
  pose proof (filter_complement success results) as Hsum.
  repeat split; try lia.
  - apply (counted_keys _ []). constructor.
  - intros k. unfold errorTypesOf, ofType.
    change (fun errorTypes r =>
              countError errorTypes
                (default "" (head (JS.split ":" (default "" (error r))))))
      with (fun errorTypes r => countError errorTypes (errorType r)).
    change (fun r => JS.truthy (error r)) with hasError.
    rewrite lookup_counted. cbn [lookup_obj].
    destruct (length _); reflexivity.
Qed.

End ReportFacts.

(** ** The names of the temporary files *)

Module NameFacts.
Import ExtractFacts.

(** A character of the numeral of an integer: a digit or the sign. *)
Definition numeralChar (c : ascii) : bool := Num.is_digit c || Ascii.eqb c "-".

Lemma ofN_chars (n : N) : chars (Num.ofN n) = Num.digitsL n.
Proof. unfold Num.ofN. apply list_ascii_of_string_of_list_ascii. Qed.

Lemma ofN_injective (n m : N) : Num.ofN n = Num.ofN m -> n = m.
Proof.
  intros H. apply (f_equal chars) in H. rewrite !ofN_chars in H.
  rewrite <- (LimitFacts.valueL_digitsL n), <- (LimitFacts.valueL_digitsL m), H.
  reflexivity.
Qed.

Lemma digits_numeral (l : list ascii) :
  forallb Num.is_digit l = true -> forallb numeralChar l = true.
Proof.
  induction l as [| c l IH]; [reflexivity |]. cbn [forallb]. intros H.
  apply andb_true_iff in H. destruct H as [Hc Hl].
  unfold numeralChar at 1. rewrite Hc, (IH Hl). reflexivity.
Qed.

Lemma ofZ_chars (z : Z) :
  chars (Num.ofZ z) =
  match z with
  | Zneg p => "-"%char :: Num.digitsL (Npos p)
  | _ => Num.digitsL (Z.to_N z)
  end.
Proof.
  destruct z; unfold Num.ofZ; try apply ofN_chars.
  change (chars ("-" +:+ ?s)) with ("-"%char :: chars s). now rewrite ofN_chars.
Qed.

Lemma ofZ_numeral (z : Z) : forallb numeralChar (chars (Num.ofZ z)) = true.
Proof.
  rewrite ofZ_chars.
  destruct z; cbn [forallb]; apply digits_numeral, NumFacts.digitsL_spec.
Qed.

Lemma digitsL_head (n : N) :
  exists d r, Num.digitsL n = d :: r /\ Num.is_digit d = true.
Proof.
  destruct (NumFacts.digitsL_spec n) as (Hd & Hne & _).
  destruct (Num.digitsL n) as [| d r]; [contradiction |].
  exists d, r. split; [reflexivity |].
  cbn [forallb] in Hd. apply andb_true_iff in Hd. apply Hd.
Qed.

Lemma ofZ_injective (a b : Z) : Num.ofZ a = Num.ofZ b -> a = b.
Proof.
  intros H. apply (f_equal chars) in H. rewrite !ofZ_chars in H.
  assert (Hval : forall n m, Num.digitsL n = Num.digitsL m -> n = m).
  { intros n m E.
    rewrite <- (LimitFacts.valueL_digitsL n), <- (LimitFacts.valueL_digitsL m), E.
    reflexivity. }
  assert (Hmix : forall n p, Num.digitsL n <> "-"%char :: Num.digitsL (Npos p)).
  { intros n p E. destruct (digitsL_head n) as (d & r & Hd & Hdig).
    rewrite Hd in E. injection E as -> _. discriminate Hdig. }
  destruct a as [| p | p], b as [| q | q];
    try reflexivity;
    try (apply Hval in H; cbn in H; congruence);
    try (exfalso; eapply Hmix; first [exact H | symmetry; exact H]).
  all: injection H as H; apply Hval in H; congruence.
Qed.

(** Two texts cut at their first underscore. *)
Lemma cut_at_underscore (l1 l2 r1 r2 : list ascii) :
  forallb numeralChar l1 = true -> forallb numeralChar l2 = true ->
  (l1 ++ "_"%char :: r1 = l2 ++ "_"%char :: r2)%list -> l1 = l2 /\ r1 = r2.
Proof.
  revert l2. induction l1 as [| c l1 IH]; intros [| d l2] H1 H2 E; cbn [app] in E.
  - injection E as ->. auto.
  - injection E as <- _. cbn [forallb] in H2. discriminate H2.
  - injection E as -> _. cbn [forallb] in H1. discriminate H1.
  - injection E as -> E. cbn [forallb] in H1, H2.
    apply andb_true_iff in H1, H2.
    destruct (IH l2 (proj2 H1) (proj2 H2) E) as [-> ->]. auto.
Qed.

(** X18. The scripts of the test cases never share a file. The name of the script
    of a test case tells both the reading of the clock and the index of the
    test case, so two test cases of one run have different files even when
    they start within the same millisecond, and no script has the name of a
    file of the syntax check. The file of the syntax check is named after the
    clock alone. *)
Theorem test_files_distinct :
  (forall now now' i j, testFile now i = testFile now' j -> now = now' /\ i = j) /\
  (forall now now' i, validateFile now <> testFile now' i) /\
  (forall now now', validateFile now = validateFile now' -> now = now').
Proof.
  split; [| split].
  - intros now now' i j H. unfold testFile in H.
    apply (f_equal chars) in H. rewrite !chars_app in H.
    apply app_inv_head in H.
    apply cut_at_underscore in H; try apply ofZ_numeral.
    destruct H as [Hnow Hi]. split.
    + apply ofZ_injective. rewrite <- (string_of_list_ascii_of_string (Num.ofZ now)),
        <- (string_of_list_ascii_of_string (Num.ofZ now')). now rewrite Hnow.
    + apply app_inv_tail in Hi.
      assert (Hn : Num.ofN (N.of_nat i) = Num.ofN (N.of_nat j)).
      { rewrite <- (string_of_list_ascii_of_string (Num.ofN (N.of_nat i))),
          <- (string_of_list_ascii_of_string (Num.ofN (N.of_nat j))). now rewrite Hi. }
      apply ofN_injective in Hn. lia.
  - intros now now' i H. unfold validateFile, testFile in H.
    apply (f_equal chars) in H. rewrite !chars_app in H. discriminate H.
  - intros now now' H. unfold validateFile in H.
    apply (f_equal chars) in H. rewrite !chars_app in H.
    apply app_inv_head, app_inv_tail in H.
    apply ofZ_injective. rewrite <- (string_of_list_ascii_of_string (Num.ofZ now)),
      <- (string_of_list_ascii_of_string (Num.ofZ now')). now rewrite H.
Qed.

End NameFacts.

(** ** The types of error of an evaluation *)

Section ErrorTypeFacts.
Context {Ext : Type}.
Variable exchange : Request -> Ext -> Response * Ext.
Variable child_process : string -> gmap string string -> Ext -> ExecResult * gmap string string * Ext.
Variable clock : Ext -> Z * Ext.

Abbreviation World := (@World Ext).

(** The types of error an evaluation by agent [a] can record. *)
Definition errorTypes (a : Agent) : list string :=
  [ "Request failed";
    "Request timeout after " +:+ Num.ofZ (ag_timeout a) +:+ "ms";
    "Failed to parse " +:+ providerName (ag_kind a) +:+ " response";
    providerName (ag_kind a) +:+ " API error";
    "Invalid response format from " +:+ providerName (ag_kind a) +:+ " API";
    "Could not extract fixed code from analysis";
    "Generated code has syntax errors" ].

Definition noColon (s : string) : bool :=
  forallb (fun c => negb (Ascii.eqb c ":")) (list_ascii_of_string s).

Lemma splitL_noColon (l : list ascii) :
  forallb (fun c => negb (Ascii.eqb c ":")) l = true -> JS.splitL ":" l = [l].
Proof.
  induction l as [| c l IH]; [reflexivity |]. cbn [forallb JS.splitL]. intros H.
  apply andb_true_iff in H. destruct H as [Hc Hl].
  destruct (Ascii.eqb c ":"); [discriminate Hc |]. rewrite (IH Hl). reflexivity.
Qed.

Lemma typeOf_whole (s : string) : noColon s = true -> typeOf s = s.
Proof.
  intros H. unfold typeOf, JS.split. rewrite (splitL_noColon _ H).
  cbn. apply string_of_list_ascii_of_string.
Qed.

Lemma typeOf_prefix (s rest : string) :
  noColon s = true -> typeOf (s +:+ String ":" rest) = s.
Proof.
  intros H. unfold typeOf. rewrite LineScanFacts.split_app.
  unfold JS.split at 1. rewrite (splitL_noColon _ H).
  cbn. apply string_of_list_ascii_of_string.
Qed.

Lemma append_assoc (a b c : string) : a +:+ (b +:+ c) = (a +:+ b) +:+ c.
Proof.
  induction a as [| x a IH]; [reflexivity |].
  change (String x (a +:+ (b +:+ c)) = String x ((a +:+ b) +:+ c)).
  f_equal. exact IH.
Qed.

Lemma noColon_app (s t : string) : noColon (s +:+ t) = noColon s && noColon t.
Proof. unfold noColon. rewrite ExtractFacts.chars_app. apply forallb_app. Qed.

Lemma noColon_ofZ (z : Z) : noColon (Num.ofZ z) = true.
Proof.
  unfold noColon. pose proof (NameFacts.ofZ_numeral z) as H.
  induction (list_ascii_of_string (Num.ofZ z)) as [| c l IH]; [reflexivity |].
  cbn [forallb] in *. apply andb_true_iff in H. destruct H as [Hc Hl].
  rewrite (IH Hl), andb_true_r.
  destruct c as [[] [] [] [] [] [] [] []]; try reflexivity; discriminate Hc.
Qed.

Lemma noColon_name (k : Provider) : noColon (providerName k) = true.
Proof. destruct k; reflexivity. Qed.

(** [message] is what the call of a request threw inside the executor of
    the promise: an error of Node, passed on as it is. *)
Definition thrownByRequest (message : string) : Prop :=
  exists request e e', exchange request e = (Threw message, e').

(** The type of what [generate] throws, unless the call of the request
    itself threw. *)
Lemma settle_type (a : Agent) (r : Response) (message : string) :
  settle a r = Throw message ->
  In (typeOf message) (errorTypes a) \/ r = Threw message.
Proof.
  unfold settle, errorTypes.
  destruct r as [m | m | | [m | m | text |]]; intros H;
    [right; congruence | left ..].
  - injection H as <-.
    change ("Request failed: " +:+ m) with ("Request failed" +:+ String ":" (" " +:+ m)).
    rewrite typeOf_prefix by reflexivity. cbn. auto.
  - injection H as <-.
    rewrite typeOf_whole
      by (rewrite !noColon_app, noColon_ofZ; reflexivity).
    cbn. auto.
  - injection H as <-.
    change ("Failed to parse " +:+ providerName (ag_kind a) +:+ " response: " +:+ m)
      with ("Failed to parse " +:+ providerName (ag_kind a)
            +:+ " response" +:+ String ":" (" " +:+ m)).
    rewrite (append_assoc (providerName (ag_kind a))), append_assoc.
    rewrite typeOf_prefix by (rewrite !noColon_app, noColon_name; reflexivity).
    cbn. auto.
  - injection H as <-.
    change (providerName (ag_kind a) +:+ " API error: " +:+ m)
      with (providerName (ag_kind a) +:+ " API error" +:+ String ":" (" " +:+ m)).
    rewrite append_assoc.
    rewrite typeOf_prefix by (rewrite !noColon_app, noColon_name; reflexivity).
    cbn. auto 10.
  - destruct (ag_kind a) eqn:Hk; try discriminate H.
    destruct (JS.truthy text); [discriminate H |]. injection H as <-.
    rewrite typeOf_whole by reflexivity. cbn. auto 10.
  - destruct (ag_kind a) eqn:Hk; try discriminate H; injection H as <-;
      rewrite typeOf_whole by reflexivity; cbn; auto 10.
Qed.

Lemma generate_type (a : Agent) (prompt : string) (o : GenOptions) (w w1 : World)
    (message : string) :
  generate exchange a prompt o w = (Throw message, w1) ->
  In (typeOf message) (errorTypes a) \/ thrownByRequest message.
Proof.
  unfold generate. destruct (exchange _ (ext w)) as [r e] eqn:Hexchange. intros H.
  injection H as H _.
  destruct (settle_type a r message H) as [Htype | ->]; [left; exact Htype |].
  right. eexists _, _, _. exact Hexchange.
Qed.

Lemma errorTypes_own (a : Agent) (t : string) :
  In t (errorTypes a) -> ownName t.
Proof.
  unfold errorTypes, ownName, inheritedNames. cbn [In]. intros H1 H2.
  destruct (ag_kind a); cbn [providerName] in H1;
    repeat (destruct H1 as [H1 | H1];
            [subst t;
             repeat (destruct H2 as [H2 | H2]; [discriminate H2 |]); exact H2 |]);
    exact H1.
Qed.

Lemma caught_error (problem : Problem) (message : string)
    (s : EvaluationResult * World) :
  error (fst (snd (caught problem message s))) = Some message.
Proof. reflexivity. Qed.

(** X19. The errors an evaluation records. Unless the call of a request
    itself threw inside the executor of the promise, in which case the error
    recorded is that of Node, an error is of one of seven types, which depend
    on the agent alone: one for each way a request can fail (no connection, a
    timeout, an answer that cannot be read, an error of the provider, an
    answer without text), one for an analysis that holds no fix and one for a
    fix that does not compile; the text of an answer, when there is one, is
    a string. None of the seven is a name that every object inherits, so
    [generateReport] counts the results of these types by their type. *)
Theorem evaluateProblem_error_types (ev : Evaluator) (problem : Problem) (w : World) :
  match evaluateProblem exchange child_process clock ev problem w with
  | (Ret (r, _), _) =>
      forall message,
        error r = Some message ->
        (In (typeOf message) (errorTypes (agent ev)) /\ ownName (typeOf message))
        \/ thrownByRequest message
  | (Throw _, _) => False
  end.
Proof.
  rewrite (evaluateProblem_unfold exchange clock child_process).
  destruct (clock (ext w)) as [startTime e1]. destruct (clock e1) as [timestamp e2].
  cbn zeta. rewrite (evaluateSteps_unfold exchange clock child_process).
  set (w0 := set_ext e2 (set_ext e1 w)).
  assert (Hboth : forall t, In t (errorTypes (agent ev)) ->
                            In t (errorTypes (agent ev)) /\ ownName t)
    by (intros t Ht; split; [exact Ht | exact (errorTypes_own _ _ Ht)]).
  assert (Hfix : In (typeOf "Could not extract fixed code from analysis")
                   (errorTypes (agent ev)))
    by (rewrite typeOf_whole by reflexivity; cbn; auto 10).
  assert (Hsyntax : In (typeOf "Generated code has syntax errors")
                      (errorTypes (agent ev)))
    by (rewrite typeOf_whole by reflexivity; cbn; auto 10).
  destruct (analyzeCode exchange (agent ev) (base_code problem)
              (problem_statement problem) w0) as [[answer | message] w1] eqn:Hanalysis.
  2:{ cbn [caught fst snd]. destruct (clock _) as [endTime e3].
      intros m Hm. injection Hm as <-.
      destruct (generate_type _ _ _ _ _ _ Hanalysis) as [Htype | Hthrown];
        [left; apply Hboth, Htype | right; exact Hthrown]. }
  cbn zeta.
  destruct (JS.truthy (Extract.extractFixedCode answer)).
  2:{ cbn [caught fst snd]. destruct (clock _) as [endTime e3].
      intros m Hm. injection Hm as <-. left. apply Hboth, Hfix. }
  destruct (generatePatch exchange (agent ev) (base_code problem) _ _ w1)
    as [[diff | message] w2] eqn:Hpatch.
  2:{ cbn [caught fst snd]. destruct (clock _) as [endTime e3].
      intros m Hm. injection Hm as <-.
      destruct (generate_type _ _ _ _ _ _ Hpatch) as [Htype | Hthrown];
        [left; apply Hboth, Htype | right; exact Hthrown]. }
  unfold checkAndTest. cbn [fst snd].
  destruct (validateSyntax_returns child_process clock
              (default "" (Extract.extractFixedCode answer)) w2)
    as (syntaxValid & w3 & ->).
  destruct syntaxValid.
  2:{ cbn [caught fst snd]. destruct (clock _) as [endTime e3].
      intros m Hm. injection Hm as <-. left. apply Hboth, Hsyntax. }
  destruct (test_cases problem) as [[| t ts] |].
  - destruct (clock _) as [endTime e3]. intros m Hm. discriminate Hm.
  - unfold runTestCases.
    destruct (runTestCasesFrom_spec child_process clock
                (default "" (Extract.extractFixedCode answer)) (t :: ts) 0 w3)
      as (trs & w4 & -> & _).
    destruct (clock _) as [endTime e3]. intros m Hm. discriminate Hm.
  - destruct (clock _) as [endTime e3]. intros m Hm. discriminate Hm.
Qed.

End ErrorTypeFacts.

(** ** Concrete runs of the further properties *)

Lemma extractFixedCode_trimmed_witness :
  JS.trim "import os" = "import os".
Proof.
  apply (LineScanFacts.extractFixedCode_trimmed
           ("The fix:" +:+ String LineScanFacts.lf "  import os  ") "import os").
  vm_compute. reflexivity.
Defined.

Lemma createAgent_key_source_witness :
  exists a,
    createAgent "OpenAI" (Some 0%nat) witness_world = (Ret a, witness_world) /\
    ag_apiKey a = Some "sk-test" /\
    lookup_obj (rq_headers (request a "Hello" (probeOptions OpenAI))) "Authorization"
      = Some "Bearer sk-test".
Proof.
  pose proof (createAgent_key_source "OpenAI" "OPENAI_API_KEY" 0%nat witness_world
                eq_refl) as H.
  cbn zeta in H.
  assert (Hkey : JS.or_else
                   (opt_apiKey (default emptyOptions (heap witness_world !! 0%nat)))
                   (env witness_world !! "OPENAI_API_KEY") = Some "sk-test")
    by (vm_compute; reflexivity).
  rewrite Hkey in H. cbn [JS.truthy String.eqb negb] in H.
  destruct H as (a & Hrun & Hkind & Hk & Hsent).
  exists a. split; [exact Hrun |]. split; [exact Hk |].
  specialize (Hsent "Hello" (probeOptions OpenAI)).
  assert (Ha : Some (ag_kind a) = Some OpenAI) by (rewrite Hkind; reflexivity).
  injection Ha as Ha.
  rewrite Ha in Hsent. exact Hsent.
Defined.

Lemma factory_ignores_case_witness :
  sameButMessage (createAgent "OpenAI" (Some 0%nat) witness_world)
    (createAgent "OPENAI" (Some 0%nat) witness_world) /\
  sameButMessage (createValidatedAgent "OpenAI" (Some 0%nat) witness_world)
    (createValidatedAgent "OPENAI" (Some 0%nat) witness_world).
Proof.
  apply (factory_ignores_case "OpenAI" "OPENAI" (Some 0%nat) witness_world).
  reflexivity.
Defined.

Lemma compareProviders_best_performer_witness :
  exists res w',
    compareProviders local_only passing Run.clock "ollama, openai, ollama2"
      sample_problems comparison_world = (Ret res, w') /\
    match validResults (provider_results res) with
    | [] => True
    | best :: _ => best_performer (comparison_summary res) = Some (provider best)
    end.
Proof.
  destruct (compareProviders_best_performer local_only passing Run.clock
              "ollama, openai, ollama2" sample_problems comparison_world)
    as (res & w' & Hrun & Hbest).
  { vm_compute. reflexivity. }
  exists res, w'. split; [exact Hrun |]. cbn zeta in Hbest.
  destruct (validResults (provider_results res)); [exact I | apply Hbest].
Defined.

(** An [id] that is a number and no [problem_statement]: the missing field is
    reported, not the type of the [id]. *)
Lemma validateProblem_first_missing_field_witness :
  Loader.validateProblem
    (Loader.JObj [("id", Loader.JNum 5%float); ("base_code", Loader.JStr "x = 1")]) =
  Throw "Problem missing required field: problem_statement".
Proof.
  apply (LoaderFacts.validateProblem_first_missing_field _ ["id"] ["base_code"]
           "problem_statement").
  - reflexivity.
  - constructor; [reflexivity | constructor].
  - reflexivity.
Defined.

Definition failedWith (message : string) : EvaluationResult :=
  mkResult "p" false (Some message) None None None [] 0 0.

Lemma generateReport_counts_witness :
  match generateReport Run.clock
          [failedWith "Request failed: connect ECONNREFUSED"; verdict true;
           failedWith "Request failed: socket hang up";
           failedWith "Generated code has syntax errors"]
          (Run.start ∅) with
  | (Ret report, _) =>
      lookup_obj (error_analysis report) "Request failed" = Some 2%nat /\
      lookup_obj (error_analysis report) "Generated code has syntax errors" = Some 1%nat /\
      lookup_obj (error_analysis report) "Request timeout" = None
  | (Throw _, _) => False
  end.
Proof.
  pose proof (generateReport_counts Run.clock
                [failedWith "Request failed: connect ECONNREFUSED"; verdict true;
                 failedWith "Request failed: socket hang up";
                 failedWith "Generated code has syntax errors"]
                (Run.start ∅)) as H.
  destruct (generateReport Run.clock _ (Run.start ∅)) as [[report | message] w'].
  - assert (Hown : Forall ownName
                     (map errorType
                        (List.filter hasError
                           [failedWith "Request failed: connect ECONNREFUSED";
                            verdict true;
                            failedWith "Request failed: socket hang up";
                            failedWith "Generated code has syntax errors"]))).
    { repeat constructor; intros Hin; vm_compute in Hin;
        repeat (destruct Hin as [Hin | Hin]; [discriminate Hin |]); exact Hin. }
    destruct (H Hown) as (_ & _ & _ & _ & Hcount).
    repeat split; rewrite Hcount; reflexivity.
  - apply H. repeat constructor; intros Hin; vm_compute in Hin;
      repeat (destruct Hin as [Hin | Hin]; [discriminate Hin |]); exact Hin.
Defined.
